(** * kube-router network-policy controller: pod firewall chains

    A shallow embedding of [pkg/controllers/netpol/pod.go] and the
    properties established about it.  Go strings are byte strings
    ([string]), Go maps are finite maps ([gmap]), and calls to the iptables
    executor are state transformers over an in-memory packet-filter store. *)

From Stdlib Require Import ZArith List Ascii String Lia Permutation.
From stdpp Require Import base option list strings gmap fin_maps.

Local Open Scope string_scope.
Local Open Scope list_scope.
#[local] Set Warnings "-clear-no-such-hyp".

(** ** crypto/sha256 (Go standard library): FIPS 180-4 SHA-256 over bytes. *)
Module SHA256.
Local Open Scope Z_scope.

Definition mask32 : Z := 0xFFFFFFFF.
Definition add32 (x y : Z) : Z := (x + y) mod 2 ^ 32.
Definition rotr (n x : Z) : Z :=
  Z.lor (Z.shiftr x n) (Z.land (Z.shiftl x (32 - n)) mask32).
Definition not32 (x : Z) : Z := Z.lxor x mask32.

Definition Ch (x y z : Z) : Z := Z.lxor (Z.land x y) (Z.land (not32 x) z).
Definition Maj (x y z : Z) : Z :=
  Z.lxor (Z.lxor (Z.land x y) (Z.land x z)) (Z.land y z).
Definition bigSigma0 (x : Z) : Z := Z.lxor (Z.lxor (rotr 2 x) (rotr 13 x)) (rotr 22 x).
Definition bigSigma1 (x : Z) : Z := Z.lxor (Z.lxor (rotr 6 x) (rotr 11 x)) (rotr 25 x).
Definition smallSigma0 (x : Z) : Z := Z.lxor (Z.lxor (rotr 7 x) (rotr 18 x)) (Z.shiftr x 3).
Definition smallSigma1 (x : Z) : Z := Z.lxor (Z.lxor (rotr 17 x) (rotr 19 x)) (Z.shiftr x 10).

(** The constants of FIPS 180-4, 4.2.2 and 5.3.3, from their definition:
    the first 32 bits of the fractional parts of the cube roots (round
    constants) and of the square roots (initial value) of the first primes. *)
Definition is_prime (p : nat) : bool :=
  forallb (fun d => negb (Nat.eqb (Nat.modulo p d) 0)) (seq 2 (p - 2)).

Definition primes : list Z :=
  map Z.of_nat (List.filter is_prime (seq 2 310)).

Fixpoint cube_root_between (fuel : nat) (lo hi n : Z) : Z :=
  match fuel with
  | O => lo
  | S fuel' =>
      let mid := (lo + hi + 1) / 2 in
      if mid * mid * mid <=? n
      then cube_root_between fuel' mid hi n
      else cube_root_between fuel' lo (mid - 1) n
  end.

Definition cube_root (n : Z) : Z := cube_root_between 48 0 (2 ^ 44) n.

Definition K : list Z :=
  map (fun p => cube_root (p * 2 ^ 96) mod 2 ^ 32) primes.

(** The eight working variables / chaining value. *)
Record hstate := H8 { ha : Z; hb : Z; hc : Z; hd : Z; he : Z; hf : Z; hg : Z; hh : Z }.

Definition frac_sqrt (p : Z) : Z := Z.sqrt (p * 2 ^ 64) mod 2 ^ 32.

Definition init : hstate :=
  H8 (frac_sqrt 2) (frac_sqrt 3) (frac_sqrt 5) (frac_sqrt 7)
     (frac_sqrt 11) (frac_sqrt 13) (frac_sqrt 17) (frac_sqrt 19).

(** Padding: one 0x80 byte, zeros up to 56 mod 64, then the bit length on
    eight big-endian bytes. *)
Definition be_bytes (n : nat) (x : Z) : list Z :=
  map (fun i => Z.land (Z.shiftr x (8 * Z.of_nat i)) 0xFF) (rev (seq 0 n)).

Definition pad (msg : list Z) : list Z :=
  let len := Z.of_nat (List.length msg) in
  let zeros := Z.to_nat ((55 - len) mod 64) in
  msg ++ 0x80 :: repeat 0 zeros ++ be_bytes 8 (8 * len).

Fixpoint be_words (bs : list Z) : list Z :=
  match bs with
  | b0 :: b1 :: b2 :: b3 :: rest =>
      (Z.lor (Z.lor (Z.shiftl b0 24) (Z.shiftl b1 16)) (Z.lor (Z.shiftl b2 8) b3))
        :: be_words rest
  | _ => []
  end.

(** Message schedule: [extend n w] appends [n] further words to the
    sixteen words of a block. *)
Fixpoint extend (n : nat) (w : list Z) : list Z :=
  match n with
  | O => w
  | S n' =>
      let t := List.length w in
      let at_ i := nth (t - i) w 0 in
      extend n' (w ++ [add32 (add32 (smallSigma1 (at_ 2%nat)) (at_ 7%nat))
                             (add32 (smallSigma0 (at_ 15%nat)) (at_ 16%nat))])
  end.

Definition round (s : hstate) (kw : Z * Z) : hstate :=
  let '(k, w) := kw in
  let t1 := add32 (add32 (add32 (hh s) (bigSigma1 (he s))) (add32 (Ch (he s) (hf s) (hg s)) k)) w in
  let t2 := add32 (bigSigma0 (ha s)) (Maj (ha s) (hb s) (hc s)) in
  H8 (add32 t1 t2) (ha s) (hb s) (hc s) (add32 (hd s) t1) (he s) (hf s) (hg s).

Definition compress (s : hstate) (block : list Z) : hstate :=
  let w := extend 48 (be_words block) in
  let r := fold_left round (combine K w) s in
  H8 (add32 (ha s) (ha r)) (add32 (hb s) (hb r)) (add32 (hc s) (hc r)) (add32 (hd s) (hd r))
     (add32 (he s) (he r)) (add32 (hf s) (hf r)) (add32 (hg s) (hg r)) (add32 (hh s) (hh r)).

Fixpoint blocks (n : nat) (bs : list Z) (s : hstate) : hstate :=
  match n with
  | O => s
  | S n' => blocks n' (skipn 64 bs) (compress s (firstn 64 bs))
  end.

Definition digest_bytes (s : hstate) : list Z :=
  be_bytes 4 (ha s) ++ be_bytes 4 (hb s) ++ be_bytes 4 (hc s) ++ be_bytes 4 (hd s) ++
  be_bytes 4 (he s) ++ be_bytes 4 (hf s) ++ be_bytes 4 (hg s) ++ be_bytes 4 (hh s).

(** [sha256.Sum256]: the 32-byte digest of a byte sequence. *)
Definition Sum256 (msg : list Z) : list Z :=
  let p := pad msg in
  digest_bytes (blocks (List.length p / 64) p init).

End SHA256.

(** ** encoding/base32 (Go standard library): [StdEncoding], RFC 4648 with
    padding. *)
Module Base32.
Local Open Scope Z_scope.

Definition encodeStd : string := "ABCDEFGHIJKLMNOPQRSTUVWXYZ234567".

Definition enc (v : Z) : ascii :=
  match String.get (Z.to_nat (Z.land v 0x1F)) encodeStd with
  | Some c => c
  | None => "="%char
  end.

Definition q0 (s0 : Z) : Z := Z.shiftr s0 3.
Definition q1 (s0 s1 : Z) : Z := Z.lor (Z.land (Z.shiftl s0 2) 0x1F) (Z.shiftr s1 6).
Definition q2 (s1 : Z) : Z := Z.land (Z.shiftr s1 1) 0x1F.
Definition q3 (s1 s2 : Z) : Z := Z.lor (Z.land (Z.shiftl s1 4) 0x1F) (Z.shiftr s2 4).
Definition q4 (s2 s3 : Z) : Z := Z.lor (Z.land (Z.shiftl s2 1) 0x1F) (Z.shiftr s3 7).
Definition q5 (s3 : Z) : Z := Z.land (Z.shiftr s3 2) 0x1F.
Definition q6 (s3 s4 : Z) : Z := Z.lor (Z.land (Z.shiftl s3 3) 0x1F) (Z.shiftr s4 5).
Definition q7 (s4 : Z) : Z := Z.land s4 0x1F.

Definition chars (l : list ascii) (k : string) : string := fold_right String k l.
Definition padChar : ascii := "="%char.

Fixpoint EncodeToString (src : list Z) : string :=
  match src with
  | [] => ""
  | [s0] =>
      chars [enc (q0 s0); enc (q1 s0 0); padChar; padChar; padChar; padChar; padChar; padChar] ""
  | [s0; s1] =>
      chars [enc (q0 s0); enc (q1 s0 s1); enc (q2 s1); enc (q3 s1 0);
             padChar; padChar; padChar; padChar] ""
  | [s0; s1; s2] =>
      chars [enc (q0 s0); enc (q1 s0 s1); enc (q2 s1); enc (q3 s1 s2); enc (q4 s2 0);
             padChar; padChar; padChar] ""
  | [s0; s1; s2; s3] =>
      chars [enc (q0 s0); enc (q1 s0 s1); enc (q2 s1); enc (q3 s1 s2); enc (q4 s2 s3);
             enc (q5 s3); enc (q6 s3 0); padChar] ""
  | s0 :: s1 :: s2 :: s3 :: s4 :: rest =>
      chars [enc (q0 s0); enc (q1 s0 s1); enc (q2 s1); enc (q3 s1 s2); enc (q4 s2 s3);
             enc (q5 s3); enc (q6 s3 s4); enc (q7 s4)] (EncodeToString rest)
  end.

End Base32.

(** [[]byte(s)]: the bytes of a Go string. *)
Definition bytes_of_string (s : string) : list Z :=
  map (fun c => Z.of_N (N_of_ascii c)) (list_ascii_of_string s).

(** * Data model *)

(** [podInfo] as built by [getLocalPods] (its declaration lives in another
    file of the package; the four fields are those of the struct literal). *)
Record podInfo := PodInfo {
  ip : string;
  name : string;
  namespace : string;
  labels : gmap string string
}.

(** The fields of [api.Pod] the controller reads. *)
Record Pod := {
  ObjectMeta_Name : string;
  ObjectMeta_Namespace : string;
  ObjectMeta_Labels : gmap string string;
  Status_Phase : string;
  Status_HostIP : string;
  Status_PodIP : string
}.

(** [networkPolicyInfo] (declared in another file of the package): this
    file reads its fields [name] and [namespace], written [policy_name] and
    [policy_namespace] here to tell them from those of [podInfo], and the
    key set of the map [targetPods]. *)
Record networkPolicyInfo := {
  policy_name : string;
  policy_namespace : string;
  targetPods : gmap string podInfo
}.

(** The controller state read here: the node address and the pod cache as
    returned by [podLister.List()], taken to hold pods;
    [getLocalPods_range_cache] and [syncPodFirewallChains_cache] below read
    a cache whose entries may be anything. *)
Record NetworkPolicyController := {
  nodeIP : string;
  podLister : list Pod
}.

(** * Errors and abnormal termination *)

(** A Go [error] value: either go-iptables' [iptables.Error] (a command
    that exited with a status) or a value of any other dynamic type. *)
Inductive error :=
| IptablesError (exitStatus : Z) (msg : string)
| OtherError (msg : string).

Definition Error (e : error) : string :=
  match e with
  | IptablesError _ m => m
  | OtherError m => m
  end.

(** [fmt.Errorf("Failed to run iptables command: %s", err.Error())] *)
Definition failedToRun (e : error) : error :=
  OtherError ("Failed to run iptables command: " +:+ Error e).

(** The ways in which a function does not return: a panic in an unchecked
    type assertion, a panic on reading a field through a nil pointer, and
    [glog.Fatalf]. *)
Inductive crash :=
| PanicTypeAssertion
| PanicNilDereference
| GlogFatal (msg : string).

Inductive outcome (A : Type) :=
| Done (a : A)
| Crashed (c : crash).
Arguments Done {A} a.
Arguments Crashed {A} c.

(** * The iptables executor (go-iptables) over an in-memory store *)

Definition rulespec := list string.

Inductive command :=
| CmdNew
| CmdNewChain (table chain : string)
| CmdCheck (table chain : string) (spec : rulespec)
| CmdInsert (table chain : string) (pos : nat) (spec : rulespec)
| CmdAppend (table chain : string) (spec : rulespec).

(** The packet filter: the rules of every chain of every table, a script of
    outcomes forced on the coming commands ([Some e]: the command fails with
    [e] and changes nothing; [None] or an exhausted script: the command runs
    on the store), and the record of the commands issued so far. *)
Record ipt := Ipt {
  chains : gmap (string * string) (list rulespec);
  script : list (option error);
  calls : list (command * option error)
}.

Definition in_chain (spec : rulespec) (l : list rulespec) : bool :=
  bool_decide (spec ∈ l).

(** What the iptables binary does to the store. *)
Definition exec (c : command) (ch : gmap (string * string) (list rulespec))
  : option error * gmap (string * string) (list rulespec) :=
  match c with
  | CmdNew => (None, ch)
  | CmdNewChain t c =>
      match ch !! (t, c) with
      | Some _ => (Some (IptablesError 1%Z "Chain already exists."), ch)
      | None => (None, <[(t, c) := []]> ch)
      end
  | CmdCheck t c spec =>
      match ch !! (t, c) with
      | Some l =>
          if in_chain spec l then (None, ch)
          else (Some (IptablesError 1%Z "Bad rule (does a matching rule exist in that chain?)."), ch)
      | None => (Some (IptablesError 1%Z "No chain/target/match by that name."), ch)
      end
  | CmdInsert t c pos spec =>
      match ch !! (t, c) with
      | Some l =>
          if bool_decide (1 ≤ pos ≤ S (length l))%nat
          then (None, <[(t, c) := take (pos - 1) l ++ spec :: drop (pos - 1) l]> ch)
          else (Some (IptablesError 1%Z "Index of insertion too big."), ch)
      | None => (Some (IptablesError 1%Z "No chain/target/match by that name."), ch)
      end
  | CmdAppend t c spec =>
      match ch !! (t, c) with
      | Some l => (None, <[(t, c) := l ++ [spec]]> ch)
      | None => (Some (IptablesError 1%Z "No chain/target/match by that name."), ch)
      end
  end.

(** Computations over the executor. *)
Definition M (A : Type) : Type := ipt → outcome A * ipt.

Definition ret {A} (a : A) : M A := fun s => (Done a, s).
Definition bind {A B} (m : M A) (k : A → M B) : M B :=
  fun s => match m s with
           | (Done a, s') => k a s'
           | (Crashed c, s') => (Crashed c, s')
           end.
Definition abort {A} (c : crash) : M A := fun s => (Crashed c, s).

Notation "'do' x <- m ; k" := (bind m (fun x => k))
  (at level 10, x name, m at level 100, k at level 200, only parsing).
Notation "'do' ' p <- m ; k" := (bind m (fun p => k))
  (at level 10, p pattern, m at level 100, k at level 200, only parsing).

(** One command: forced by the script, or run on the store. *)
Definition run (c : command) : M (option error) := fun s =>
  match script s with
  | Some e :: rest =>
      (Done (Some e), Ipt (chains s) rest (calls s ++ [(c, Some e)]))
  | _ =>
      let '(r, ch) := exec c (chains s) in
      (Done r, Ipt ch (tail (script s)) (calls s ++ [(c, r)]))
  end.

(** [e.ExitStatus()] after the unchecked type assertion of [err] to
    go-iptables' error type, which panics on any other dynamic type. *)
Definition ExitStatus (e : error) : M Z :=
  match e with
  | IptablesError st _ => ret st
  | OtherError _ => abort PanicTypeAssertion
  end.

(** go-iptables' methods, each as the library builds it from commands:
    [New] probes the binary; [NewChain] is [-N]; [Exists] is [-C], where exit
    status 1 means that the rule is not there and any other failure is an
    error; [Insert] is [-I] at a position; [Append] is [-A]; [AppendUnique]
    is [Exists] followed by [Append] only when the rule is not there. *)
Definition New : M (option error) := run CmdNew.

Definition NewChain (table chain : string) : M (option error) :=
  run (CmdNewChain table chain).

Definition Exists (table chain : string) (spec : rulespec) : M (bool * option error) :=
  do err <- run (CmdCheck table chain spec);
  match err with
  | None => ret (true, None)
  | Some (IptablesError 1%Z _) => ret (false, None)
  | Some e => ret (false, Some e)
  end.

Definition Insert (table chain : string) (pos : nat) (spec : rulespec) : M (option error) :=
  run (CmdInsert table chain pos spec).

Definition Append (table chain : string) (spec : rulespec) : M (option error) :=
  run (CmdAppend table chain spec).

Definition AppendUnique (table chain : string) (spec : rulespec) : M (option error) :=
  do '(exists_, err) <- Exists table chain spec;
  match err with
  | Some e => ret (Some e)
  | None => if exists_ then ret None else Append table chain spec
  end.

(** * Pod event handlers *)

(** An [interface{}] handed over by the informer: a pointer to a pod, a
    nil pod pointer, a tombstone, or a value of another type. *)
Inductive object :=
| PodObject (pod : Pod)
| NilPodObject
| DeletedFinalStateUnknown (Obj : object)
| OtherObject.

(** What a handler does, in order.  [Panic] is a failed type assertion or
    the reading of a field through a nil pod pointer. *)
Inductive effect :=
| GlogInfo (msg : string)
| GlogError (msg : string)
| RequestFullSync
| Panic.

(** [OnPodAdd] *)
Definition OnPodAdd (obj : object) : list effect :=
  match obj with
  | PodObject pod =>
      [GlogInfo ("Received pod: " +:+ ObjectMeta_Namespace pod +:+ "/" +:+ ObjectMeta_Name pod
                 +:+ " add event");
       RequestFullSync]
  | _ => [Panic]
  end.

(** [OnPodUpdate] *)
Definition OnPodUpdate (obj : object) : list effect :=
  match obj with
  | PodObject pod =>
      [GlogInfo ("Received pod: " +:+ ObjectMeta_Namespace pod +:+ "/" +:+ ObjectMeta_Name pod
                 +:+ " update event");
       RequestFullSync]
  | _ => [Panic]
  end.

(** [OnPodDelete]: both assertions are checked; a nil pod pointer passes
    them and panics where the log line reads [pod.Namespace]. *)
Definition OnPodDelete (obj : object) : list effect :=
  let deleted (pod : Pod) :=
    [GlogInfo ("Received pod: " +:+ ObjectMeta_Namespace pod +:+ "/" +:+ ObjectMeta_Name pod
               +:+ " delete event");
     RequestFullSync] in
  match obj with
  | PodObject pod => deleted pod
  | NilPodObject => [Panic]
  | DeletedFinalStateUnknown (PodObject pod) => deleted pod
  | DeletedFinalStateUnknown NilPodObject => [Panic]
  | DeletedFinalStateUnknown _ => [GlogError "unexpected object type"]
  | OtherObject => [GlogError "unexpected object type"]
  end.

(** The three callbacks of [newPodEventHandler]. *)
Definition AddFunc (obj : object) : list effect := OnPodAdd obj.

Definition UpdateFunc (oldObj newObj : object) : list effect :=
  match newObj with
  | PodObject newPoObj =>
      match oldObj with
      | PodObject oldPoObj =>
          if negb (String.eqb (Status_Phase newPoObj) (Status_Phase oldPoObj))
             || negb (String.eqb (Status_PodIP newPoObj) (Status_PodIP oldPoObj))
          then OnPodUpdate newObj
          else []
      | _ => [Panic]
      end
  | _ => [Panic]
  end.

Definition DeleteFunc (obj : object) : list effect := OnPodDelete obj.

Definition is_RequestFullSync (e : effect) : bool :=
  match e with RequestFullSync => true | _ => false end.

(** Number of resync requests a handler run makes. *)
Definition resyncRequests (t : list effect) : nat :=
  length (filter (fun e => is_RequestFullSync e = true) t).

(** * The controller *)

(** [strings.Compare] *)
Definition strings_Compare (a b : string) : Z :=
  match String.compare a b with
  | Eq => 0%Z
  | Lt => (-1)%Z
  | Gt => 1%Z
  end.

(** [getLocalPods]: the loop over [podLister.List()], then the function. *)
Fixpoint getLocalPods_range (nodeIP : string) (objs : list Pod)
    (localPods : gmap string podInfo) : gmap string podInfo :=
  match objs with
  | [] => localPods
  | pod :: rest =>
      if negb (strings_Compare (Status_HostIP pod) nodeIP =? 0)%Z
      then getLocalPods_range nodeIP rest localPods
      else if (String.length (Status_PodIP pod) =? 0)%nat || String.eqb (Status_PodIP pod) ""
      then getLocalPods_range nodeIP rest localPods
      else getLocalPods_range nodeIP rest
             (<[Status_PodIP pod :=
                  {| ip := Status_PodIP pod;
                     name := ObjectMeta_Name pod;
                     namespace := ObjectMeta_Namespace pod;
                     labels := ObjectMeta_Labels pod |}]> localPods)
  end.

Definition getLocalPods (npc : NetworkPolicyController) (nodeIP : string)
  : gmap string podInfo * option error :=
  (getLocalPods_range nodeIP (podLister npc) ∅, None).

(** [_, ok := policy.targetPods[pod.ip]] *)
Definition targets (policy : networkPolicyInfo) (pod : podInfo) : bool :=
  match targetPods policy !! ip pod with
  | Some _ => true
  | None => false
  end.

(** ** Source idioms

    The shapes under which [pod.go] talks to the executor; each is spelled
    out at every use in the source, and named once here. *)

(** [if err != nil { return fmt.Errorf("Failed to run iptables command: %s", err.Error()) }]
    followed by the rest of the function. *)
Notation "'try' m ; k" :=
  (bind m (fun err => match err with Some e => ret (Some e) | None => k end))
  (at level 10, m at level 100, k at level 200, only parsing).

(** [[
    exists, err := h.Exists("filter", chain, args...)
    if err != nil { return fmt.Errorf(...) }
    if !exists {
        err := h.Insert("filter", chain, 1, args...)
        if err != nil { return fmt.Errorf(...) }
    }
    ]] *)
Definition insertUnlessExists (chain : string) (args : rulespec) : M (option error) :=
  do '(exists_, err) <- Exists "filter" chain args;
  match err with
  | Some e => ret (Some (failedToRun e))
  | None =>
      if negb exists_ then
        do err <- Insert "filter" chain 1 args;
        match err with
        | Some e => ret (Some (failedToRun e))
        | None => ret None
        end
      else ret None
  end.

(** The same with the guard of the insertion written
    [if err != nil && err.(T).ExitStatus() != 1], [T] being the pointer type
    of go-iptables' error: exit status 1 is let through, and an error of
    another type panics in the assertion. *)
Definition insertUnlessExists_exit1 (chain : string) (args : rulespec) : M (option error) :=
  do '(exists_, err) <- Exists "filter" chain args;
  match err with
  | Some e => ret (Some (failedToRun e))
  | None =>
      if negb exists_ then
        do err <- Insert "filter" chain 1 args;
        match err with
        | Some e =>
            do st <- ExitStatus e;
            if negb (st =? 1)%Z then ret (Some (failedToRun e)) else ret None
        | None => ret None
        end
      else ret None
  end.

(** [[
    err := h.AppendUnique("filter", chain, args...)
    if err != nil { return fmt.Errorf(...) }
    ]] *)
Definition appendUnique (chain : string) (args : rulespec) : M (option error) :=
  do err <- AppendUnique "filter" chain args;
  match err with
  | Some e => ret (Some (failedToRun e))
  | None => ret None
  end.

(** [[
    exists, err := h.Exists("filter", chain, args...)
    if err != nil { return fmt.Errorf(...) }
    if !exists {
        err := h.AppendUnique("filter", chain, args...)
        if err != nil { return fmt.Errorf(...) }
    }
    ]] *)
Definition appendUniqueUnlessExists (chain : string) (args : rulespec) : M (option error) :=
  do '(exists_, err) <- Exists "filter" chain args;
  match err with
  | Some e => ret (Some (failedToRun e))
  | None => if negb exists_ then appendUnique chain args else ret None
  end.

(** [[
    err = h.NewChain("filter", chain)
    if err != nil && err.(T).ExitStatus() != 1 { return nil, fmt.Errorf(...) }
    ]] *)
Definition newChain_exit1 (chain : string) : M (option error) :=
  do err <- NewChain "filter" chain;
  match err with
  | Some e =>
      do st <- ExitStatus e;
      if negb (st =? 1)%Z then ret (Some (failedToRun e)) else ret None
  | None => ret None
  end.

(** ** Executor steps

    A function of [pod.go] is a sequence of the idioms above, left at the
    first error.  [step] names one idiom applied to a chain and a rule. *)
Inductive step :=
| SNewChain (chain : string)
| SInsert (exit1 : bool) (chain : string) (args : rulespec)
| SAppend (checked : bool) (chain : string) (args : rulespec).

Definition runStep (st : step) : M (option error) :=
  match st with
  | SNewChain c => newChain_exit1 c
  | SInsert false c a => insertUnlessExists c a
  | SInsert true c a => insertUnlessExists_exit1 c a
  | SAppend false c a => appendUnique c a
  | SAppend true c a => appendUniqueUnlessExists c a
  end.

Fixpoint runSteps (l : list step) : M (option error) :=
  match l with
  | [] => ret None
  | st :: rest => try runStep st; runSteps rest
  end.

Definition step_chain (st : step) : string :=
  match st with
  | SNewChain c => c
  | SInsert _ c _ => c
  | SAppend _ c _ => c
  end.

(** The rule a step installs, if any. *)
Definition step_rule (st : step) : option rulespec :=
  match st with
  | SNewChain _ => None
  | SInsert _ _ a => Some a
  | SAppend _ _ a => Some a
  end.

(** The insertions that let exit status 1 through. *)
Definition lenient (st : step) : bool :=
  match st with
  | SInsert true _ _ => true
  | _ => false
  end.

(** What a step does to the store when no outcome is forced on its
    commands: the error it returns and the store it leaves. *)
Definition noChain : error := IptablesError 1 "No chain/target/match by that name.".

Definition applyStep (st : step) (ch : gmap (string * string) (list rulespec))
  : option error * gmap (string * string) (list rulespec) :=
  match st with
  | SNewChain c =>
      match ch !! ("filter", c) with
      | Some _ => (None, ch)
      | None => (None, <[("filter", c) := []]> ch)
      end
  | SInsert exit1 c a =>
      match ch !! ("filter", c) with
      | Some l => (None, if in_chain a l then ch else <[("filter", c) := a :: l]> ch)
      | None => (if exit1 then None else Some (failedToRun noChain), ch)
      end
  | SAppend _ c a =>
      match ch !! ("filter", c) with
      | Some l => (None, if in_chain a l then ch else <[("filter", c) := l ++ [a]]> ch)
      | None => (Some (failedToRun noChain), ch)
      end
  end.

Fixpoint applySteps (l : list step) (ch : gmap (string * string) (list rulespec))
  : option error * gmap (string * string) (list rulespec) :=
  match l with
  | [] => (None, ch)
  | st :: rest =>
      match applyStep st ch with
      | (Some e, ch') => (Some e, ch')
      | (None, ch') => applySteps rest ch'
      end
  end.

(** A step that finds everything in place: its chain exists and holds its
    rule. *)
Definition settled (ch : gmap (string * string) (list rulespec)) (st : step) : Prop :=
  match ch !! ("filter", step_chain st) with
  | Some l => match step_rule st with Some a => a ∈ l | None => True end
  | None => False
  end.

(** [ch'] keeps every chain of [ch] and every rule in it. *)
Definition extends (ch ch' : gmap (string * string) (list rulespec)) : Prop :=
  ∀ k l, ch !! k = Some l → ∃ l', ch' !! k = Some l' ∧ l ⊆ l'.

(** No chain holds a rule twice. *)
Definition duplicate_free (ch : gmap (string * string) (list rulespec)) : Prop :=
  ∀ k l, ch !! k = Some l → NoDup l.

(** The chain left by existence-checked insertions at the head, in order. *)
Definition insertAll (specs : list rulespec) (l : list rulespec) : list rulespec :=
  fold_left (fun (l : list rulespec) a => if in_chain a l then l else a :: l) specs l.

(** Number of rules of a chain in a class, and of copies of one rule. *)
Definition countRules (P : rulespec → bool) (l : list rulespec) : nat :=
  length (List.filter P l).

Definition occurrences (a : rulespec) (l : list rulespec) : nat :=
  countRules (fun r => bool_decide (r = a)) l.

(** The command of an existence check, as recorded. *)
Definition is_check (c : command * option error) : bool :=
  match c with
  | (CmdCheck _ _ _, _) => true
  | _ => false
  end.

(** Every rule of [ch'] was in the same chain of [ch] or is in class [P]:
    between the two stores only rules of class [P] were installed. *)
Definition installs (P : rulespec → Prop) (ch ch' : gmap (string * string) (list rulespec))
  : Prop :=
  ∀ k l' r, ch' !! k = Some l' → r ∈ l' → (∃ l, ch !! k = Some l ∧ r ∈ l) ∨ P r.

(** The same of a computation, from any store. *)
Definition installsOnly {A} (P : rulespec → Prop) (m : M A) : Prop :=
  ∀ s, installs P (chains s) (chains (m s).2).

(** The rule a command carries into the store, if any. *)
Definition cmd_rule (c : command) : option rulespec :=
  match c with
  | CmdInsert _ _ _ a => Some a
  | CmdAppend _ _ a => Some a
  | _ => None
  end.

(** Every value a computation returns is in [Q]. *)
Definition returnsOnly {A} (Q : A → Prop) (m : M A) : Prop :=
  ∀ s a s', m s = (Done a, s') → Q a.

(** An error as the functions of [pod.go] return it: none, or one wrapped by
    [fmt.Errorf]. *)
Definition nilOrWrapped (err : option error) : Prop :=
  match err with
  | None => True
  | Some e => ∃ e0, e = failedToRun e0
  end.

(** ** Rule classes *)

(** A rule specification carries a comment annotation: it contains
    [-m comment --comment <text>]. *)
Fixpoint hasComment (spec : rulespec) : bool :=
  match spec with
  | [] => false
  | a :: rest =>
      (String.eqb a "-m" &&
       match rest with
       | b :: c :: _ :: _ => String.eqb b "comment" && String.eqb c "--comment"
       | _ => false
       end)
      || hasComment rest
  end.

(** A jump to a policy chain, as [setupPodIngressRules] and
    [setupPodEgressRules] write it. *)
Definition isPolicyJump (spec : rulespec) : bool :=
  match spec with
  | [a; b; c; d; e; _] =>
      String.eqb a "-m" && String.eqb b "comment" && String.eqb c "--comment"
      && String.prefix "run through nw policy " d && String.eqb e "-j"
  | _ => false
  end.

(** Names declared in other files of the package: the chain-name constants
    and the namer of policy chains.  The controller is read for any values
    of them. *)
Class Names := {
  kubePodFirewallChainPrefix : string;
  kubeInputChainName : string;
  kubeForwardChainName : string;
  kubeOutputChainName : string;
  kubeIngressNetpolChain : string;
  kubeEgressNetpolChain : string;
  networkPolicyChainName : string → string → string → string
}.

Section Controller.
Context {names : Names}.

(** [podFirewallChainName] *)
Definition podFirewallChainName (namespace podName version : string) : string :=
  let hash := SHA256.Sum256 (bytes_of_string (namespace +:+ podName +:+ version)) in
  let encoded := Base32.EncodeToString hash in
  kubePodFirewallChainPrefix +:+ substring 0 16 encoded.

(** *** Rule specifications, as the source builds them *)

Definition policyJumpArgs (version : string) (policy : networkPolicyInfo) : rulespec :=
  let comment := "run through nw policy " +:+ policy_name policy in
  let policyChainName :=
    networkPolicyChainName (policy_namespace policy) (policy_name policy) version in
  ["-m"; "comment"; "--comment"; comment; "-j"; policyChainName].

Definition defaultIngressArgs (pod : podInfo) : rulespec :=
  let comment := "run through default ingress policy  chain" in
  ["-d"; ip pod; "-m"; "comment"; "--comment"; comment; "-j"; kubeIngressNetpolChain].

Definition defaultEgressArgs (pod : podInfo) : rulespec :=
  let comment := "run through default egress policy  chain" in
  ["-s"; ip pod; "-m"; "comment"; "--comment"; comment; "-j"; kubeEgressNetpolChain].

Definition localNodeArgs (pod : podInfo) : rulespec :=
  let comment :=
    "rule to permit the traffic traffic to pods when source is the pod's local node" in
  ["-m"; "comment"; "--comment"; comment; "-m"; "addrtype"; "--src-type"; "LOCAL";
   "-d"; ip pod; "-j"; "ACCEPT"].

Definition statefulArgs : rulespec :=
  let comment := "rule for stateful firewall for pod" in
  ["-m"; "comment"; "--comment"; comment; "-m"; "conntrack"; "--ctstate";
   "RELATED,ESTABLISHED"; "-j"; "ACCEPT"].

Definition inboundArgs (pod : podInfo) (podFwChainName : string) : rulespec :=
  let comment := "rule to jump traffic destined to POD name:" +:+ name pod +:+ " namespace: "
                 +:+ namespace pod +:+ " to chain " +:+ podFwChainName in
  ["-m"; "comment"; "--comment"; comment; "-d"; ip pod; "-j"; podFwChainName].

Definition inboundBridgedArgs (pod : podInfo) (podFwChainName : string) : rulespec :=
  let comment := "rule to jump traffic destined to POD name:" +:+ name pod +:+ " namespace: "
                 +:+ namespace pod +:+ " to chain " +:+ podFwChainName in
  ["-m"; "physdev"; "--physdev-is-bridged";
   "-m"; "comment"; "--comment"; comment;
   "-d"; ip pod;
   "-j"; podFwChainName].

Definition outboundArgs (pod : podInfo) (podFwChainName : string) : rulespec :=
  let comment := "rule to jump traffic from POD name:" +:+ name pod +:+ " namespace: "
                 +:+ namespace pod +:+ " to chain " +:+ podFwChainName in
  ["-m"; "comment"; "--comment"; comment; "-s"; ip pod; "-j"; podFwChainName].

Definition outboundBridgedArgs (pod : podInfo) (podFwChainName : string) : rulespec :=
  let comment := "rule to jump traffic from POD name:" +:+ name pod +:+ " namespace: "
                 +:+ namespace pod +:+ " to chain " +:+ podFwChainName in
  ["-m"; "physdev"; "--physdev-is-bridged";
   "-m"; "comment"; "--comment"; comment;
   "-s"; ip pod;
   "-j"; podFwChainName].

Definition logDroppedArgs (podName podNamespace : string) : rulespec :=
  let comment := "rule to log dropped traffic POD name:" +:+ podName +:+ " namespace: "
                 +:+ podNamespace in
  ["-m"; "comment"; "--comment"; comment; "-m"; "mark"; "!"; "--mark"; "0x10000/0x10000";
   "-j"; "NFLOG"; "--nflog-group"; "100"; "-m"; "limit"; "--limit"; "10/minute";
   "--limit-burst"; "10"].

Definition rejectArgs (podName podNamespace : string) : rulespec :=
  let comment := "rule to REJECT traffic destined for POD name:" +:+ podName +:+ " namespace: "
                 +:+ podNamespace in
  ["-m"; "comment"; "--comment"; comment; "-m"; "mark"; "!"; "--mark"; "0x10000/0x10000";
   "-j"; "REJECT"].

Definition markResetArgs : rulespec := ["-j"; "MARK"; "--set-mark"; "0/0x10000"].

Definition markAcceptArgs : rulespec :=
  let comment := "set mark to ACCEPT traffic that comply to network policies" in
  ["-m"; "comment"; "--comment"; comment; "-j"; "MARK"; "--set-mark"; "0x20000/0x20000"].

(** *** [setupPodIngressRules]: the loop over the policies, then the function *)
Fixpoint setupPodIngressRules_range (pod : podInfo) (podFwChainName : string)
    (version : string) (networkPoliciesInfo : list networkPolicyInfo)
    (ingressPoliciesPresent : bool) : M (bool * option error) :=
  match networkPoliciesInfo with
  | [] => ret (ingressPoliciesPresent, None)
  | policy :: rest =>
      if negb (targets policy pod)
      then setupPodIngressRules_range pod podFwChainName version rest ingressPoliciesPresent
      else
        let ingressPoliciesPresent := true in
        do err <- insertUnlessExists_exit1 podFwChainName (policyJumpArgs version policy);
        match err with
        | Some e => ret (ingressPoliciesPresent, Some e)
        | None =>
            setupPodIngressRules_range pod podFwChainName version rest ingressPoliciesPresent
        end
  end.

Definition setupPodIngressRules (pod : podInfo) (podFwChainName : string)
    (networkPoliciesInfo : list networkPolicyInfo) (version : string) : M (option error) :=
  do '(ingressPoliciesPresent, err) <-
    setupPodIngressRules_range pod podFwChainName version networkPoliciesInfo false;
  match err with
  | Some e => ret (Some e)
  | None =>
      try (if negb ingressPoliciesPresent
           then insertUnlessExists_exit1 podFwChainName (defaultIngressArgs pod)
           else ret None);
      try insertUnlessExists podFwChainName (localNodeArgs pod);
      try insertUnlessExists podFwChainName statefulArgs;
      ret None
  end.

(** *** [setupPodEgressRules] *)
Fixpoint setupPodEgressRules_range (pod : podInfo) (podFwChainName : string)
    (version : string) (networkPoliciesInfo : list networkPolicyInfo)
    (egressPoliciesPresent : bool) : M (bool * option error) :=
  match networkPoliciesInfo with
  | [] => ret (egressPoliciesPresent, None)
  | policy :: rest =>
      if negb (targets policy pod)
      then setupPodEgressRules_range pod podFwChainName version rest egressPoliciesPresent
      else
        let egressPoliciesPresent := true in
        do err <- insertUnlessExists_exit1 podFwChainName (policyJumpArgs version policy);
        match err with
        | Some e => ret (egressPoliciesPresent, Some e)
        | None =>
            setupPodEgressRules_range pod podFwChainName version rest egressPoliciesPresent
        end
  end.

Definition setupPodEgressRules (pod : podInfo) (podFwChainName : string)
    (networkPoliciesInfo : list networkPolicyInfo) (version : string) : M (option error) :=
  do '(egressPoliciesPresent, err) <-
    setupPodEgressRules_range pod podFwChainName version networkPoliciesInfo false;
  match err with
  | Some e => ret (Some e)
  | None =>
      try (if negb egressPoliciesPresent
           then insertUnlessExists_exit1 podFwChainName (defaultEgressArgs pod)
           else ret None);
      try insertUnlessExists podFwChainName statefulArgs;
      ret None
  end.

(** *** [interceptPodInboundTraffic] *)
Definition interceptPodInboundTraffic (pod : podInfo) (podFwChainName : string)
  : M (option error) :=
  try insertUnlessExists kubeForwardChainName (inboundArgs pod podFwChainName);
  try insertUnlessExists kubeOutputChainName (inboundArgs pod podFwChainName);
  try insertUnlessExists kubeForwardChainName (inboundBridgedArgs pod podFwChainName);
  ret None.

(** *** [interceptPodOutboundTraffic]: the loop over [egressFilterChains],
    then the function *)
Fixpoint interceptPodOutboundTraffic_range (pod : podInfo) (podFwChainName : string)
    (egressFilterChains : list string) : M (option error) :=
  match egressFilterChains with
  | [] => ret None
  | chain :: rest =>
      try appendUniqueUnlessExists chain (outboundArgs pod podFwChainName);
      interceptPodOutboundTraffic_range pod podFwChainName rest
  end.

Definition interceptPodOutboundTraffic (pod : podInfo) (podFwChainName : string)
  : M (option error) :=
  let egressFilterChains := [kubeInputChainName; kubeForwardChainName; kubeOutputChainName] in
  try interceptPodOutboundTraffic_range pod podFwChainName egressFilterChains;
  try insertUnlessExists kubeForwardChainName (outboundBridgedArgs pod podFwChainName);
  ret None.

(** *** [dropUnmarkedTrafficRules] *)
Definition dropUnmarkedTrafficRules (podName podNamespace podFwChainName : string)
  : M (option error) :=
  try appendUnique podFwChainName (logDroppedArgs podName podNamespace);
  try appendUnique podFwChainName (rejectArgs podName podNamespace);
  ret None.

(** *** [syncPodFirewallChains]: the loop over the local pods, then the
    function.  [rangeOrder] is the order in which the runtime's map
    iteration yields the entries of [allLocalPods]. *)
Fixpoint syncPodFirewallChains_range (networkPoliciesInfo : list networkPolicyInfo)
    (version : string) (pods : list podInfo) (activePodFwChains : gmap string bool)
  : M (option (gmap string bool) * option error) :=
  match pods with
  | [] => ret (Some activePodFwChains, None)
  | pod :: rest =>
      let podFwChainName := podFirewallChainName (namespace pod) (name pod) version in
      do err <- newChain_exit1 podFwChainName;
      match err with
      | Some e => ret (None, Some e)
      | None =>
      let activePodFwChains := <[podFwChainName := true]> activePodFwChains in
      do err <- setupPodIngressRules pod podFwChainName networkPoliciesInfo version;
      match err with
      | Some e => ret (None, Some e)
      | None =>
      do err <- setupPodEgressRules pod podFwChainName networkPoliciesInfo version;
      match err with
      | Some e => ret (None, Some e)
      | None =>
      do err <- interceptPodInboundTraffic pod podFwChainName;
      match err with
      | Some e => ret (None, Some e)
      | None =>
      do err <- interceptPodOutboundTraffic pod podFwChainName;
      match err with
      | Some e => ret (None, Some e)
      | None =>
      do err <- dropUnmarkedTrafficRules (name pod) (namespace pod) podFwChainName;
      match err with
      | Some e => ret (None, Some e)
      | None =>
      do err <- appendUnique podFwChainName markResetArgs;
      match err with
      | Some e => ret (None, Some e)
      | None =>
      do err <- appendUnique podFwChainName markAcceptArgs;
      match err with
      | Some e => ret (None, Some e)
      | None =>
          syncPodFirewallChains_range networkPoliciesInfo version rest activePodFwChains
      end end end end end end end end
  end.

Definition syncPodFirewallChains (npc : NetworkPolicyController)
    (networkPoliciesInfo : list networkPolicyInfo) (version : string)
    (rangeOrder : gmap string podInfo → list podInfo)
  : M (option (gmap string bool) * option error) :=
  let activePodFwChains : gmap string bool := ∅ in
  do err <- New;
  match err with
  | Some e => abort (GlogFatal ("Failed to initialize iptables executor: " +:+ Error e))
  | None =>
      let '(allLocalPods, err) := getLocalPods npc (nodeIP npc) in
      match err with
      | Some e => ret (None, Some e)
      | None =>
          syncPodFirewallChains_range networkPoliciesInfo version
            (rangeOrder allLocalPods) activePodFwChains
      end
  end.

(** *** The steps of each function *)

Definition targeting (pod : podInfo) (networkPoliciesInfo : list networkPolicyInfo)
  : list networkPolicyInfo :=
  List.filter (fun policy => targets policy pod) networkPoliciesInfo.

Definition policySteps (pod : podInfo) (podFwChainName version : string)
    (networkPoliciesInfo : list networkPolicyInfo) : list step :=
  map (fun policy => SInsert true podFwChainName (policyJumpArgs version policy))
      (targeting pod networkPoliciesInfo).

Definition ingressSteps (pod : podInfo) (podFwChainName : string)
    (networkPoliciesInfo : list networkPolicyInfo) (version : string) : list step :=
  policySteps pod podFwChainName version networkPoliciesInfo
  ++ (if existsb (fun policy => targets policy pod) networkPoliciesInfo then []
      else [SInsert true podFwChainName (defaultIngressArgs pod)])
  ++ [SInsert false podFwChainName (localNodeArgs pod);
      SInsert false podFwChainName statefulArgs].

Definition egressSteps (pod : podInfo) (podFwChainName : string)
    (networkPoliciesInfo : list networkPolicyInfo) (version : string) : list step :=
  policySteps pod podFwChainName version networkPoliciesInfo
  ++ (if existsb (fun policy => targets policy pod) networkPoliciesInfo then []
      else [SInsert true podFwChainName (defaultEgressArgs pod)])
  ++ [SInsert false podFwChainName statefulArgs].

Definition inboundSteps (pod : podInfo) (podFwChainName : string) : list step :=
  [SInsert false kubeForwardChainName (inboundArgs pod podFwChainName);
   SInsert false kubeOutputChainName (inboundArgs pod podFwChainName);
   SInsert false kubeForwardChainName (inboundBridgedArgs pod podFwChainName)].

Definition outboundSteps (pod : podInfo) (podFwChainName : string) : list step :=
  map (fun chain => SAppend true chain (outboundArgs pod podFwChainName))
      [kubeInputChainName; kubeForwardChainName; kubeOutputChainName]
  ++ [SInsert false kubeForwardChainName (outboundBridgedArgs pod podFwChainName)].

Definition dropSteps (podName podNamespace podFwChainName : string) : list step :=
  [SAppend false podFwChainName (logDroppedArgs podName podNamespace);
   SAppend false podFwChainName (rejectArgs podName podNamespace)].

Definition podSteps (networkPoliciesInfo : list networkPolicyInfo) (version : string)
    (pod : podInfo) : list step :=
  let podFwChainName := podFirewallChainName (namespace pod) (name pod) version in
  SNewChain podFwChainName
  :: ingressSteps pod podFwChainName networkPoliciesInfo version
  ++ egressSteps pod podFwChainName networkPoliciesInfo version
  ++ inboundSteps pod podFwChainName
  ++ outboundSteps pod podFwChainName
  ++ dropSteps (name pod) (namespace pod) podFwChainName
  ++ [SAppend false podFwChainName markResetArgs;
      SAppend false podFwChainName markAcceptArgs].

(** The chain names recorded for a list of pods. *)
Definition recordChains (version : string) (pods : list podInfo)
    (activePodFwChains : gmap string bool) : gmap string bool :=
  fold_left (fun (m : gmap string bool) pod =>
               <[podFirewallChainName (namespace pod) (name pod) version := true]> m)
            pods activePodFwChains.

(** A jump to the default ingress (egress) chain, as the source writes it. *)
Definition isDefaultIngressJump (spec : rulespec) : bool :=
  match spec with
  | [_; i; _; _; _; _; _; _] =>
      bool_decide (spec = ["-d"; i; "-m"; "comment"; "--comment";
                           "run through default ingress policy  chain";
                           "-j"; kubeIngressNetpolChain])
  | _ => false
  end.


(** The three top-level chains exist. *)
Definition provisioned (ch : gmap (string * string) (list rulespec)) : Prop :=
  is_Some (ch !! ("filter", kubeInputChainName))
  ∧ is_Some (ch !! ("filter", kubeForwardChainName))
  ∧ is_Some (ch !! ("filter", kubeOutputChainName)).

End Controller.

(** The rules of a chain of the filter table (none when the chain is absent). *)
Definition chainRules (c : string) (s : ipt) : list rulespec :=
  default [] (chains s !! ("filter", c)).

(** A pod of the cache is local to the node: its host address is the node
    address and its assigned address is not empty. *)
Definition isLocal (nodeIP : string) (pod : Pod) : bool :=
  String.eqb (Status_HostIP pod) nodeIP && negb (String.eqb (Status_PodIP pod) "").

(** The snapshot [getLocalPods] takes of a pod. *)
Definition snapshot (pod : Pod) : podInfo := {|
  ip := Status_PodIP pod;
  name := ObjectMeta_Name pod;
  namespace := ObjectMeta_Namespace pod;
  labels := ObjectMeta_Labels pod
|}.

(** ** Readings refuted below

    Five statements about the controller, each as it reads before the
    facts below settle it on the sample node. *)
Section Readings.
Context {names : Names}.

(** A second call of [dropUnmarkedTrafficRules] on the chain left by a
    first call adds one more log rule and one more reject rule. *)
Definition second_call_duplicates (podName podNamespace chain : string) (s : ipt) : Prop :=
  let s1 := (dropUnmarkedTrafficRules podName podNamespace chain s).2 in
  let s2 := (dropUnmarkedTrafficRules podName podNamespace chain s1).2 in
  occurrences (logDroppedArgs podName podNamespace) (chainRules chain s2)
  = S (occurrences (logDroppedArgs podName podNamespace) (chainRules chain s1))
  ∧ occurrences (rejectArgs podName podNamespace) (chainRules chain s2)
    = S (occurrences (rejectArgs podName podNamespace) (chainRules chain s1)).

(** When at least one policy of the list targets the pod,
    [setupPodIngressRules] leaves as many policy jumps in the chain as
    policies of the list target the pod, and no default-ingress jump. *)
Definition one_jump_per_targeting_policy (pod : podInfo) (chain : string)
    (networkPoliciesInfo : list networkPolicyInfo) (version : string) (s : ipt) : Prop :=
  let s' := (setupPodIngressRules pod chain networkPoliciesInfo version s).2 in
  targeting pod networkPoliciesInfo ≠ [] →
  countRules isPolicyJump (chainRules chain s') = length (targeting pod networkPoliciesInfo)
  ∧ countRules isDefaultIngressJump (chainRules chain s') = 0%nat.

(** The mapping of [getLocalPods] contains a pod of the cache exactly when
    the pod is local. *)
Definition contains_exactly_local_pods (npc : NetworkPolicyController) (nodeIP : string)
  : Prop :=
  ∀ pod, pod ∈ podLister npc →
    ((getLocalPods npc nodeIP).1 !! Status_PodIP pod = Some (snapshot pod)
     ↔ isLocal nodeIP pod = true).

(** The active set holds the chain name of every local pod of the cache,
    mapped to true, and nothing else. *)
Definition one_chain_per_local_pod (npc : NetworkPolicyController) (version : string)
    (active : gmap string bool) : Prop :=
  ∀ k, active !! k =
       if bool_decide
            (k ∈ map (fun pod => podFirewallChainName (ObjectMeta_Namespace pod)
                                   (ObjectMeta_Name pod) version)
                     (List.filter (isLocal (nodeIP npc)) (podLister npc)))
       then Some true else None.

(** Every rule that a pass leaves in a chain and that was not there before
    carries a comment. *)
Definition every_installed_rule_commented (s0 s1 : ipt) : Prop :=
  ∀ c r, r ∈ chainRules c s1 → r ∈ chainRules c s0 ∨ hasComment r = true.

End Readings.

(** * A sample node *)
Module Demo.

(** Modelled from the spec: the namer of policy chains, which another file
    of the package defines.  A chain identifier is the hash of namespace,
    name and version, cut to a fixed width and encoded, behind the role
    prefix (here that of policy chains). *)
Definition policyChainName (namespace policyName version : string) : string :=
  "KUBE-NWPLCY-"
  +:+ substring 0 16
        (Base32.EncodeToString
           (SHA256.Sum256 (bytes_of_string (namespace +:+ policyName +:+ version)))).

(** Sample values for the chain-name constants. *)
Definition names : Names := {|
  kubePodFirewallChainPrefix := "KUBE-POD-FW-";
  kubeInputChainName := "KUBE-ROUTER-INPUT";
  kubeForwardChainName := "KUBE-ROUTER-FORWARD";
  kubeOutputChainName := "KUBE-ROUTER-OUTPUT";
  kubeIngressNetpolChain := "KUBE-NWPLCY-DEFAULT-INGRESS";
  kubeEgressNetpolChain := "KUBE-NWPLCY-DEFAULT-EGRESS";
  networkPolicyChainName := policyChainName
|}.

Definition node : string := "192.168.0.2".

Definition mkPod (ns nm phase host addr : string) : Pod := {|
  ObjectMeta_Name := nm;
  ObjectMeta_Namespace := ns;
  ObjectMeta_Labels := ∅;
  Status_Phase := phase;
  Status_HostIP := host;
  Status_PodIP := addr
|}.

Definition web : Pod := mkPod "default" "web" "Running" node "10.1.1.5".
Definition db : Pod := mkPod "default" "db" "Running" node "10.1.1.6".
Definition cache : Pod := mkPod "default" "cache" "Running" "192.168.0.3" "10.1.2.7".
Definition job : Pod := mkPod "default" "job" "Pending" node "".
(** Two pods on the host network: both carry the node address. *)
Definition proxy : Pod := mkPod "kube-system" "kube-proxy" "Running" node node.
Definition router : Pod := mkPod "kube-system" "kube-router" "Running" node node.

Definition info (p : Pod) : podInfo := {|
  ip := Status_PodIP p;
  name := ObjectMeta_Name p;
  namespace := ObjectMeta_Namespace p;
  labels := ObjectMeta_Labels p
|}.

Definition npc : NetworkPolicyController :=
  {| nodeIP := node; podLister := [web; db; cache; job] |}.

Definition npcHostNetwork : NetworkPolicyController :=
  {| nodeIP := node; podLister := [proxy; router] |}.

Definition allowWeb : networkPolicyInfo := {|
  policy_name := "allow-web";
  policy_namespace := "default";
  targetPods := {[ "10.1.1.5" := info web ]}
|}.

Definition version : string := "1540000000".

(** The runtime yields the map entries in some order; here, the order of
    [map_to_list]. *)
Definition order (m : gmap string podInfo) : list podInfo := (map_to_list m).*2.

(** A store with the three top-level chains, empty, and no forced
    outcome. *)
Definition store : ipt := {|
  chains := {[ ("filter", "KUBE-ROUTER-INPUT") := [];
               ("filter", "KUBE-ROUTER-FORWARD") := [];
               ("filter", "KUBE-ROUTER-OUTPUT") := [] ]};
  script := [];
  calls := []
|}.

(** The same store with a fresh chain [c]. *)
Definition storeWith (c : string) : ipt := {|
  chains := <[("filter", c) := []]> (chains store);
  script := [];
  calls := []
|}.

(** The same store, where the executor starts and then fails its first
    command with an error that is not go-iptables' own. *)
Definition storeLocked : ipt := {|
  chains := chains store;
  script := [None; Some (OtherError "open /run/xtables.lock: permission denied")];
  calls := []
|}.

End Demo.

(** * Further notions, for the facts beyond the claims *)

(** The commands a step may issue. *)
Definition step_commands (st : step) : list command :=
  match st with
  | SNewChain c => [CmdNewChain "filter" c]
  | SInsert _ c a => [CmdCheck "filter" c a; CmdInsert "filter" c 1 a]
  | SAppend _ c a => [CmdCheck "filter" c a; CmdAppend "filter" c a]
  end.

(** The chain a command addresses, if any. *)
Definition cmd_key (c : command) : option (string * string) :=
  match c with
  | CmdNew => None
  | CmdNewChain t c => Some (t, c)
  | CmdCheck t c _ => Some (t, c)
  | CmdInsert t c _ _ => Some (t, c)
  | CmdAppend t c _ => Some (t, c)
  end.

(** A computation relates the store it starts from to the store it leaves by
    [R], from any state. *)
Definition keeps {A : Type} (R : relation (gmap (string * string) (list rulespec))) (m : M A)
  : Prop :=
  ∀ s, R (chains s) (chains (m s).2).

(** The two stores agree on every chain outside [K]. *)
Definition sameOutside (K : string * string → Prop)
    (ch ch' : gmap (string * string) (list rulespec)) : Prop :=
  ∀ k, ¬ K k → ch' !! k = ch !! k.

(** What a step that runs without error does to the chain [c] of the filter
    table ([None]: the chain is absent). *)
Definition stepOn (c : string) (st : step) (o : option (list rulespec))
  : option (list rulespec) :=
  if bool_decide (step_chain st = c) then
    match st, o with
    | SNewChain _, None => Some []
    | SNewChain _, Some l => Some l
    | SInsert _ _ a, Some l => Some (if in_chain a l then l else a :: l)
    | SAppend _ _ a, Some l => Some (if in_chain a l then l else l ++ [a])
    | _, None => None
    end
  else o.

Definition chainAfter (c : string) (l : list step) (o : option (list rulespec))
  : option (list rulespec) :=
  fold_left (fun o st => stepOn c st o) l o.

(** The pod a delete notification is about, when it can be told: the object
    itself, or the object a tombstone holds. *)
Definition recoverPod (obj : object) : option Pod :=
  match obj with
  | PodObject pod => Some pod
  | DeletedFinalStateUnknown (PodObject pod) => Some pod
  | _ => None
  end.

(** The object is a nil pod pointer, or a tombstone that holds one. *)
Definition holdsNilPod (obj : object) : Prop :=
  obj = NilPodObject ∨ obj = DeletedFinalStateUnknown NilPodObject.

Definition is_Panic (e : effect) : bool :=
  match e with Panic => true | _ => false end.

(** The last command recorded, with its outcome. *)
Definition lastCall (s : ipt) : option (command * option error) := last (calls s).

(** [getLocalPods] on the cache as the informer holds it.  The entries of
    [npc.podLister.List()] are [interface{}] values; the loop asserts each
    to a pod pointer without checking and then reads the fields of the pod:
    an entry of another type panics in the assertion, a nil pod pointer on
    reading [pod.Status.HostIP].  [getLocalPods_range] is this loop on a
    cache whose entries are all pods. *)
Fixpoint getLocalPods_range_cache (nodeIP : string) (objs : list object)
    (localPods : gmap string podInfo) : outcome (gmap string podInfo) :=
  match objs with
  | [] => Done localPods
  | PodObject pod :: rest =>
      if negb (strings_Compare (Status_HostIP pod) nodeIP =? 0)%Z
      then getLocalPods_range_cache nodeIP rest localPods
      else if (String.length (Status_PodIP pod) =? 0)%nat || String.eqb (Status_PodIP pod) ""
      then getLocalPods_range_cache nodeIP rest localPods
      else getLocalPods_range_cache nodeIP rest
             (<[Status_PodIP pod :=
                  {| ip := Status_PodIP pod;
                     name := ObjectMeta_Name pod;
                     namespace := ObjectMeta_Namespace pod;
                     labels := ObjectMeta_Labels pod |}]> localPods)
  | NilPodObject :: _ => Crashed PanicNilDereference
  | _ :: _ => Crashed PanicTypeAssertion
  end.

Definition getLocalPods_cache (nodeIP : string) (objs : list object)
  : outcome (gmap string podInfo * option error) :=
  match getLocalPods_range_cache nodeIP objs ∅ with
  | Done localPods => Done (localPods, None)
  | Crashed c => Crashed c
  end.

Section FurtherNotions.
Context {names : Names}.

(** [syncPodFirewallChains] on such a cache: the executor is probed first,
    then [getLocalPods] reads the cache. *)
Definition syncPodFirewallChains_cache (nodeIP : string) (objs : list object)
    (networkPoliciesInfo : list networkPolicyInfo) (version : string)
    (rangeOrder : gmap string podInfo → list podInfo)
  : M (option (gmap string bool) * option error) :=
  let activePodFwChains : gmap string bool := ∅ in
  do err <- New;
  match err with
  | Some e => abort (GlogFatal ("Failed to initialize iptables executor: " +:+ Error e))
  | None =>
      match getLocalPods_cache nodeIP objs with
      | Crashed c => abort c
      | Done (allLocalPods, err) =>
          match err with
          | Some e => ret (None, Some e)
          | None =>
              syncPodFirewallChains_range networkPoliciesInfo version
                (rangeOrder allLocalPods) activePodFwChains
          end
      end
  end.

(** Everything the pass wants for one pod is in place in a store: the chain
    of the pod exists and holds a jump for every targeting policy (the two
    default jumps when there is none), the two accept rules, the log and
    reject rules and the two mark rules; the top-level chains hold the
    interception jumps of the pod. *)
Definition podInPlace (networkPoliciesInfo : list networkPolicyInfo) (version : string)
    (pod : podInfo) (s : ipt) : Prop :=
  let c := podFirewallChainName (namespace pod) (name pod) version in
  is_Some (chains s !! ("filter", c))
  ∧ (∀ policy, policy ∈ targeting pod networkPoliciesInfo →
               policyJumpArgs version policy ∈ chainRules c s)
  ∧ (targeting pod networkPoliciesInfo = [] →
     defaultIngressArgs pod ∈ chainRules c s ∧ defaultEgressArgs pod ∈ chainRules c s)
  ∧ localNodeArgs pod ∈ chainRules c s
  ∧ statefulArgs ∈ chainRules c s
  ∧ logDroppedArgs (name pod) (namespace pod) ∈ chainRules c s
  ∧ rejectArgs (name pod) (namespace pod) ∈ chainRules c s
  ∧ markResetArgs ∈ chainRules c s
  ∧ markAcceptArgs ∈ chainRules c s
  ∧ inboundArgs pod c ∈ chainRules kubeForwardChainName s
  ∧ inboundArgs pod c ∈ chainRules kubeOutputChainName s
  ∧ inboundBridgedArgs pod c ∈ chainRules kubeForwardChainName s
  ∧ outboundArgs pod c ∈ chainRules kubeInputChainName s
  ∧ outboundArgs pod c ∈ chainRules kubeForwardChainName s
  ∧ outboundArgs pod c ∈ chainRules kubeOutputChainName s
  ∧ outboundBridgedArgs pod c ∈ chainRules kubeForwardChainName s.

End FurtherNotions.


Section Layouts.
Context {names : Names}.

(** The chain a pass builds for a pod when it has to create it, top to
    bottom: with no targeting policy, the default egress jump, the two
    accept rules and the default ingress jump; otherwise the two accept
    rules and the policy jumps, the last policy first; then, in both cases,
    the log and reject rules and the two mark rules. *)
Definition podChainLayout (networkPoliciesInfo : list networkPolicyInfo) (version : string)
    (pod : podInfo) : list rulespec :=
  match targeting pod networkPoliciesInfo with
  | [] => [defaultEgressArgs pod; statefulArgs; localNodeArgs pod; defaultIngressArgs pod]
  | ps => statefulArgs :: localNodeArgs pod :: rev (map (policyJumpArgs version) ps)
  end
  ++ [logDroppedArgs (name pod) (namespace pod); rejectArgs (name pod) (namespace pod);
      markResetArgs; markAcceptArgs].

End Layouts.

(** Two stores hold the same chains, each with the same rules up to their
    order. *)
Definition sameRules (ch ch' : gmap (string * string) (list rulespec)) : Prop :=
  ∀ k, match ch !! k, ch' !! k with
       | Some l, Some l' => l ≡ₚ l'
       | None, None => True
       | _, _ => False
       end.

(** A computation only adds to the record of the commands issued. *)
Definition logs {A : Type} (m : M A) : Prop :=
  ∀ s, ∃ new, calls (m s).2 = calls s ++ new.

(** * Facts *)

(** ** The hash and the encoding, on known vectors *)

Example sha256_constants :
  length SHA256.K = 64%nat
  ∧ take 2 SHA256.K = [0x428a2f98; 0x71374491]%Z
  ∧ last SHA256.K = Some 0xc67178f2%Z
  ∧ SHA256.ha SHA256.init = 0x6a09e667%Z
  ∧ SHA256.hh SHA256.init = 0x5be0cd19%Z.
Proof. vm_compute. repeat split; reflexivity. Qed.

Example sha256_abc :
  SHA256.Sum256 (bytes_of_string "abc") =
  [0xba; 0x78; 0x16; 0xbf; 0x8f; 0x01; 0xcf; 0xea; 0x41; 0x41; 0x40; 0xde; 0x5d; 0xae; 0x22; 0x23;
   0xb0; 0x03; 0x61; 0xa3; 0x96; 0x17; 0x7a; 0x9c; 0xb4; 0x10; 0xff; 0x61; 0xf2; 0x00; 0x15; 0xad]%Z.
Proof. vm_compute. reflexivity. Qed.

Example base32_sha256_empty :
  Base32.EncodeToString (SHA256.Sum256 (bytes_of_string "")) =
  "4OYMIQUY7QOBJGX36TEJS35ZEQT24QPEMSNZGTFESWMRW6CSXBKQ====".
Proof. vm_compute. reflexivity. Qed.

Example base32_sha256_long :
  Base32.EncodeToString (SHA256.Sum256 (bytes_of_string "defaultnginx1")) =
  "X2U52NN5RPTWE6EY7CWIGDROWJTYQAHHTJZL56JCZDZKISMLAUKQ====".
Proof. vm_compute. reflexivity. Qed.

Example base32_sha256_two_blocks :
  substring 0 16
    (Base32.EncodeToString
       (SHA256.Sum256
          (bytes_of_string
             "aaaaaaaaaaaaaaaaaaaaaaaaaaaaaaaaaaaaaaaaaaaaaaaaaaaaaaaaaaaaaaaaaaaaaa")))
  = "NPK6KA2IKWQREQPQ".
Proof. vm_compute. reflexivity. Qed.


(** ** Computations, pointwise *)

Lemma runSteps_app (l1 l2 : list step) (s : ipt) :
  runSteps (l1 ++ l2) s = (try runSteps l1; runSteps l2) s.
Proof.
  revert s. induction l1 as [|st l1 IH]; intros s; simpl.
  - reflexivity.
  - unfold bind.
    destruct (runStep st s) as [[[e|]|c] s']; simpl; try reflexivity.
    rewrite IH. reflexivity.
Qed.

Lemma runSteps_cons (st : step) (l : list step) (s : ipt) :
  runSteps (st :: l) s =
  match runStep st s with
  | (Done None, s') => runSteps l s'
  | (Done (Some e), s') => (Done (Some e), s')
  | (Crashed c, s') => (Crashed c, s')
  end.
Proof.
  simpl. unfold bind. destruct (runStep st s) as [[[e|]|c] s']; reflexivity.
Qed.

Lemma bind_eq {A B} (m : M A) (k : A → M B) (s : ipt) :
  bind m k s =
  match m s with
  | (Done a, s') => k a s'
  | (Crashed c, s') => (Crashed c, s')
  end.
Proof. reflexivity. Qed.

Section Refinement.
Context `{Names}.

(** Each function of the source runs exactly its list of steps. *)

Lemma setupPodIngressRules_range_steps pod chain version policies present s :
  setupPodIngressRules_range pod chain version policies present s =
  match runSteps (policySteps pod chain version policies) s with
  | (Done None, s') =>
      (Done (present || existsb (fun p => targets p pod) policies, None), s')
  | (Done (Some e), s') => (Done (true, Some e), s')
  | (Crashed c, s') => (Crashed c, s')
  end.
Proof.
  revert present s. induction policies as [|p ps IH]; intros present s.
  - simpl. unfold ret. rewrite orb_false_r. reflexivity.
  - unfold policySteps, targeting in *. simpl.
    destruct (targets p pod) eqn:Ht; simpl.
    + unfold bind.
      destruct (insertUnlessExists_exit1 _ _ s) as [[[e|]|c] s']; simpl; try reflexivity.
      rewrite IH. rewrite orb_true_r. reflexivity.
    + rewrite IH. reflexivity.
Qed.

Lemma setupPodIngressRules_steps pod chain policies version s :
  setupPodIngressRules pod chain policies version s =
  runSteps (ingressSteps pod chain policies version) s.
Proof.
  unfold setupPodIngressRules, ingressSteps.
  rewrite runSteps_app. unfold bind at 1.
  rewrite setupPodIngressRules_range_steps. unfold bind at 4.
  destruct (runSteps (policySteps _ _ _ _) s) as [[[e|]|c] s']; simpl; try reflexivity.
  rewrite runSteps_app.
  destruct (existsb _ policies); simpl.
  - reflexivity.
  - unfold bind.
    destruct (insertUnlessExists_exit1 _ _ s') as [[[e|]|c] s'']; reflexivity.
Qed.

Lemma setupPodEgressRules_range_steps pod chain version policies present s :
  setupPodEgressRules_range pod chain version policies present s =
  match runSteps (policySteps pod chain version policies) s with
  | (Done None, s') =>
      (Done (present || existsb (fun p => targets p pod) policies, None), s')
  | (Done (Some e), s') => (Done (true, Some e), s')
  | (Crashed c, s') => (Crashed c, s')
  end.
Proof.
  revert present s. induction policies as [|p ps IH]; intros present s.
  - simpl. unfold ret. rewrite orb_false_r. reflexivity.
  - unfold policySteps, targeting in *. simpl.
    destruct (targets p pod) eqn:Ht; simpl.
    + unfold bind.
      destruct (insertUnlessExists_exit1 _ _ s) as [[[e|]|c] s']; simpl; try reflexivity.
      rewrite IH. rewrite orb_true_r. reflexivity.
    + rewrite IH. reflexivity.
Qed.

Lemma setupPodEgressRules_steps pod chain policies version s :
  setupPodEgressRules pod chain policies version s =
  runSteps (egressSteps pod chain policies version) s.
Proof.
  unfold setupPodEgressRules, egressSteps.
  rewrite runSteps_app. unfold bind at 1.
  rewrite setupPodEgressRules_range_steps. unfold bind at 3.
  destruct (runSteps (policySteps _ _ _ _) s) as [[[e|]|c] s']; simpl; try reflexivity.
  rewrite runSteps_app.
  destruct (existsb _ policies); simpl.
  - reflexivity.
  - unfold bind.
    destruct (insertUnlessExists_exit1 _ _ s') as [[[e|]|c] s'']; reflexivity.
Qed.

Lemma interceptPodInboundTraffic_steps pod chain s :
  interceptPodInboundTraffic pod chain s = runSteps (inboundSteps pod chain) s.
Proof. reflexivity. Qed.

Lemma interceptPodOutboundTraffic_range_steps pod chain cs s :
  interceptPodOutboundTraffic_range pod chain cs s =
  runSteps (map (fun c => SAppend true c (outboundArgs pod chain)) cs) s.
Proof.
  revert s. induction cs as [|c cs IH]; intros s; simpl; [reflexivity|].
  unfold bind. destruct (appendUniqueUnlessExists _ _ s) as [[[e|]|k] s']; auto.
Qed.

Lemma interceptPodOutboundTraffic_steps pod chain s :
  interceptPodOutboundTraffic pod chain s = runSteps (outboundSteps pod chain) s.
Proof.
  unfold interceptPodOutboundTraffic, outboundSteps.
  rewrite runSteps_app. unfold bind at 1 3.
  rewrite interceptPodOutboundTraffic_range_steps. reflexivity.
Qed.

Lemma dropUnmarkedTrafficRules_steps podName podNamespace chain s :
  dropUnmarkedTrafficRules podName podNamespace chain s =
  runSteps (dropSteps podName podNamespace chain) s.
Proof. reflexivity. Qed.

Lemma syncPodFirewallChains_range_steps policies version pods active s :
  syncPodFirewallChains_range policies version pods active s =
  match runSteps (flat_map (podSteps policies version) pods) s with
  | (Done None, s') => (Done (Some (recordChains version pods active), None), s')
  | (Done (Some e), s') => (Done (None, Some e), s')
  | (Crashed c, s') => (Crashed c, s')
  end.
Proof.
  revert active s. induction pods as [|pod rest IH]; intros active s.
  - reflexivity.
  - cbn [flat_map syncPodFirewallChains_range recordChains fold_left].
    rewrite runSteps_app. unfold podSteps.
    rewrite ?bind_eq, ?runSteps_cons. cbn [runStep].
    destruct (newChain_exit1 _ s) as [[[e|]|c] s1]; try reflexivity.
    rewrite ?runSteps_app, ?bind_eq, ?runSteps_app, ?bind_eq, ?setupPodIngressRules_steps.
    destruct (runSteps (ingressSteps _ _ _ _) s1) as [[[e|]|c] s2]; try reflexivity.
    rewrite ?runSteps_app, ?bind_eq, ?setupPodEgressRules_steps.
    destruct (runSteps (egressSteps _ _ _ _) s2) as [[[e|]|c] s3]; try reflexivity.
    rewrite ?runSteps_app, ?bind_eq, ?interceptPodInboundTraffic_steps.
    destruct (runSteps (inboundSteps _ _) s3) as [[[e|]|c] s4]; try reflexivity.
    rewrite ?runSteps_app, ?bind_eq, ?interceptPodOutboundTraffic_steps.
    destruct (runSteps (outboundSteps _ _) s4) as [[[e|]|c] s5]; try reflexivity.
    rewrite ?runSteps_app, ?bind_eq, ?dropUnmarkedTrafficRules_steps.
    destruct (runSteps (dropSteps _ _ _) s5) as [[[e|]|c] s6]; try reflexivity.
    rewrite ?runSteps_app, ?bind_eq, ?runSteps_cons. cbn [runStep].
    destruct (appendUnique _ markResetArgs s6) as [[[e|]|c] s7]; try reflexivity.
    rewrite ?runSteps_app, ?bind_eq, ?runSteps_cons. cbn [runStep].
    destruct (appendUnique _ markAcceptArgs s7) as [[[e|]|c] s8]; try reflexivity.
    cbn [runSteps]. unfold ret at 1. apply IH.
Qed.

End Refinement.

(** ** Steps on a store whose commands are not forced *)

Lemma run_ff (c : command) (s : ipt) :
  script s = [] →
  run c s = (Done (exec c (chains s)).1,
             Ipt (exec c (chains s)).2 [] (calls s ++ [(c, (exec c (chains s)).1)])).
Proof.
  intros Hs. unfold run. rewrite Hs. destruct (exec c (chains s)); reflexivity.
Qed.

Lemma insert_pos_1 (l : list rulespec) : bool_decide (1 ≤ 1 ≤ S (length l))%nat = true.
Proof. apply bool_decide_eq_true_2. lia. Qed.

Lemma runStep_ff (st : step) (s : ipt) :
  script s = [] →
  ∃ s', runStep st s = (Done (applyStep st (chains s)).1, s')
        ∧ chains s' = (applyStep st (chains s)).2
        ∧ script s' = [].
Proof.
  intros Hs. destruct st as [c|exit1 c a|checked c a]; cbn [runStep applyStep].
  - unfold newChain_exit1, NewChain. rewrite bind_eq, run_ff by assumption.
    cbn [exec]. destruct (chains s !! ("filter", c)) eqn:Hc; cbn; eauto.
  - assert (Hgen : ∃ s',
        (if exit1 then insertUnlessExists_exit1 c a else insertUnlessExists c a) s
        = (Done (applyStep (SInsert exit1 c a) (chains s)).1, s')
        ∧ chains s' = (applyStep (SInsert exit1 c a) (chains s)).2 ∧ script s' = []).
    { cbn [applyStep].
      destruct exit1; unfold insertUnlessExists_exit1, insertUnlessExists, Exists, Insert;
        rewrite !bind_eq, run_ff by assumption; cbn [exec];
        (destruct (chains s !! ("filter", c)) as [l|] eqn:Hc; cbn [fst snd];
         [destruct (in_chain a l) eqn:Hin; cbn [fst snd negb ret] | cbn [ret negb]]);
        rewrite ?bind_eq, ?run_ff by reflexivity; cbn [chains exec];
        rewrite ?Hc, ?insert_pos_1; cbn; eauto. }
    destruct exit1; exact Hgen.
  - assert (Hgen : ∃ s',
        (if checked then appendUniqueUnlessExists c a else appendUnique c a) s
        = (Done (applyStep (SAppend checked c a) (chains s)).1, s')
        ∧ chains s' = (applyStep (SAppend checked c a) (chains s)).2 ∧ script s' = []).
    { cbn [applyStep].
      destruct checked;
        unfold appendUniqueUnlessExists, appendUnique, AppendUnique, Exists, Append;
        rewrite !bind_eq, run_ff by assumption; cbn [exec];
        (destruct (chains s !! ("filter", c)) as [l|] eqn:Hc; cbn [fst snd];
         [destruct (in_chain a l) eqn:Hin; cbn [fst snd negb ret] | cbn [ret negb]]);
        rewrite ?bind_eq, ?run_ff by reflexivity; cbn [chains exec fst snd];
        rewrite ?Hc, ?Hin; cbn [fst snd ret];
        rewrite ?bind_eq, ?run_ff by reflexivity; cbn [chains exec fst snd];
        rewrite ?Hc, ?Hin; cbn; eauto. }
    destruct checked; exact Hgen.
Qed.

Lemma runSteps_ff (l : list step) (s : ipt) :
  script s = [] →
  ∃ s', runSteps l s = (Done (applySteps l (chains s)).1, s')
        ∧ chains s' = (applySteps l (chains s)).2
        ∧ script s' = [].
Proof.
  revert s. induction l as [|st l IH]; intros s Hs.
  - exists s. repeat split; assumption.
  - rewrite runSteps_cons. cbn [applySteps].
    destruct (runStep_ff st s Hs) as (s1 & Hrun & Hch & Hs1).
    rewrite Hrun. destruct (applyStep st (chains s)) as [[e|] ch1]; cbn [fst snd] in *.
    + exists s1. repeat split; assumption.
    + destruct (IH s1 Hs1) as (s2 & Hrun2 & Hch2 & Hs2).
      rewrite Hch in *. exists s2. repeat split; assumption.
Qed.

(** ** The store only grows *)

Lemma extends_refl ch : extends ch ch.
Proof. intros k l Hk. exists l. split; [assumption | set_solver]. Qed.

Lemma extends_trans ch1 ch2 ch3 : extends ch1 ch2 → extends ch2 ch3 → extends ch1 ch3.
Proof.
  intros H12 H23 k l Hk.
  destruct (H12 k l Hk) as (l2 & Hk2 & Hsub2).
  destruct (H23 k l2 Hk2) as (l3 & Hk3 & Hsub3).
  exists l3. split; [assumption | set_solver].
Qed.

Lemma extends_insert ch k l l' :
  ch !! k = Some l → l ⊆ l' → extends ch (<[k := l']> ch).
Proof.
  intros Hk Hsub k0 l0 Hk0. destruct (decide (k = k0)) as [->|Hne].
  - rewrite lookup_insert_eq. exists l'. split; [reflexivity|].
    assert (l0 = l) by congruence. subst. assumption.
  - rewrite lookup_insert_ne by assumption. exists l0. split; [assumption | set_solver].
Qed.

Lemma extends_insert_fresh ch k l' :
  ch !! k = None → extends ch (<[k := l']> ch).
Proof.
  intros Hk k0 l0 Hk0. destruct (decide (k = k0)) as [->|Hne]; [congruence|].
  rewrite lookup_insert_ne by assumption. exists l0. split; [assumption | set_solver].
Qed.

Lemma in_chain_true a l : in_chain a l = true ↔ a ∈ l.
Proof. unfold in_chain. apply bool_decide_eq_true. Qed.

Lemma in_chain_false a l : in_chain a l = false ↔ a ∉ l.
Proof. unfold in_chain. apply bool_decide_eq_false. Qed.

Lemma applyStep_extends st ch : extends ch (applyStep st ch).2.
Proof.
  destruct st as [c|exit1 c a|checked c a]; cbn [applyStep];
    destruct (ch !! ("filter", c)) as [l|] eqn:Hc; cbn [snd];
    try apply extends_refl.
  - apply extends_insert_fresh. assumption.
  - destruct (in_chain a l); [apply extends_refl|].
    eapply extends_insert; [eassumption | set_solver].
  - destruct (in_chain a l); [apply extends_refl|].
    eapply extends_insert; [eassumption | set_solver].
Qed.

Lemma applySteps_extends l ch : extends ch (applySteps l ch).2.
Proof.
  revert ch. induction l as [|st l IH]; intros ch; cbn [applySteps].
  - apply extends_refl.
  - pose proof (applyStep_extends st ch) as H1.
    destruct (applyStep st ch) as [[e|] ch1]; cbn [snd] in *; [assumption|].
    eapply extends_trans; [exact H1 | apply IH].
Qed.

Lemma settled_extends ch ch' st : settled ch st → extends ch ch' → settled ch' st.
Proof.
  unfold settled. intros Hst Hext.
  destruct (ch !! ("filter", step_chain st)) as [l|] eqn:Hc; [|contradiction].
  destruct (Hext _ _ Hc) as (l' & -> & Hsub).
  destruct (step_rule st); [set_solver | exact I].
Qed.



Lemma applyStep_settles st ch ch' :
  (lenient st = true → is_Some (ch !! ("filter", step_chain st))) →
  applyStep st ch = (None, ch') → settled ch' st.
Proof.
  unfold settled.
  destruct st as [c|exit1 c a|checked c a]; cbn [applyStep step_chain step_rule lenient];
    destruct (ch !! ("filter", c)) as [l|] eqn:Hc; intros Hlen Happ.
  - inversion Happ; subst. rewrite Hc. exact I.
  - inversion Happ; subst. rewrite lookup_insert_eq. exact I.
  - destruct (in_chain a l) eqn:Hin; inversion Happ; subst.
    + rewrite Hc. apply in_chain_true. assumption.
    + rewrite lookup_insert_eq. set_solver.
  - destruct exit1; [|discriminate].
    destruct (Hlen eq_refl) as [? ?]; discriminate.
  - destruct (in_chain a l) eqn:Hin; inversion Happ; subst.
    + rewrite Hc. apply in_chain_true. assumption.
    + rewrite lookup_insert_eq. set_solver.
  - discriminate.
Qed.

Lemma applySteps_settles l ch ch' :
  Forall (fun st => lenient st = true → is_Some (ch !! ("filter", step_chain st))) l →
  applySteps l ch = (None, ch') → Forall (settled ch') l.
Proof.
  revert ch. induction l as [|st l IH]; intros ch Hlen Happ; [constructor|].
  cbn [applySteps] in Happ. inversion Hlen as [|? ? Hst Hl]; subst.
  destruct (applyStep st ch) as [[e|] ch1] eqn:H1; [discriminate|].
  pose proof (applyStep_extends st ch) as Hext1. rewrite H1 in Hext1. cbn [snd] in Hext1.
  pose proof (applySteps_extends l ch1) as Hext2. rewrite Happ in Hext2. cbn [snd] in Hext2.
  constructor.
  - eapply settled_extends; [eapply applyStep_settles; eassumption | assumption].
  - apply (IH ch1); [|assumption].
    eapply Forall_impl; [exact Hl|]. cbn. intros st' Hst' Hlen'.
    destruct (Hst' Hlen') as [l0 Hl0]. destruct (Hext1 _ _ Hl0) as (l1 & -> & _). eauto.
Qed.

(** ** No step installs a rule that is already there *)

Lemma applyStep_duplicate_free st ch :
  duplicate_free ch → duplicate_free (applyStep st ch).2.
Proof.
  intros Hdf.
  destruct st as [c|exit1 c a|checked c a]; cbn [applyStep];
    destruct (ch !! ("filter", c)) as [l|] eqn:Hc; cbn [snd]; try assumption.
  - intros k l Hk. destruct (decide (("filter", c) = k)) as [<-|Hne].
    + rewrite lookup_insert_eq in Hk. inversion Hk. constructor.
    + rewrite lookup_insert_ne in Hk by assumption. eapply Hdf; eassumption.
  - destruct (in_chain a l) eqn:Hin; [assumption|]. apply in_chain_false in Hin.
    intros k l0 Hk. destruct (decide (("filter", c) = k)) as [<-|Hne].
    + rewrite lookup_insert_eq in Hk. inversion Hk; subst.
      constructor; [assumption | eapply Hdf; eassumption].
    + rewrite lookup_insert_ne in Hk by assumption. eapply Hdf; eassumption.
  - destruct (in_chain a l) eqn:Hin; [assumption|]. apply in_chain_false in Hin.
    intros k l0 Hk. destruct (decide (("filter", c) = k)) as [<-|Hne].
    + rewrite lookup_insert_eq in Hk. inversion Hk; subst.
      apply NoDup_app. split; [eapply Hdf; eassumption|]. split.
      * intros x Hx Hx'. apply list_elem_of_singleton in Hx'. subst. contradiction.
      * apply NoDup_singleton.
    + rewrite lookup_insert_ne in Hk by assumption. eapply Hdf; eassumption.
Qed.

Lemma applySteps_duplicate_free l ch :
  duplicate_free ch → duplicate_free (applySteps l ch).2.
Proof.
  revert ch. induction l as [|st l IH]; intros ch Hdf; cbn [applySteps]; [assumption|].
  pose proof (applyStep_duplicate_free st ch Hdf) as H1.
  destruct (applyStep st ch) as [[e|] ch1]; cbn [snd] in *; [assumption|].
  apply IH. assumption.
Qed.

Lemma applySteps_app l1 l2 ch :
  applySteps (l1 ++ l2) ch =
  match applySteps l1 ch with
  | (Some e, ch1) => (Some e, ch1)
  | (None, ch1) => applySteps l2 ch1
  end.
Proof.
  revert ch. induction l1 as [|st l1 IH]; intros ch; cbn [applySteps app]; [reflexivity|].
  destruct (applyStep st ch) as [[e|] ch1]; [reflexivity | apply IH].
Qed.

Section Synchronizer.
Context `{Names}.

Lemma podSteps_lenient policies version pod :
  Forall (fun st => lenient st = true →
                    step_chain st = podFirewallChainName (namespace pod) (name pod) version)
         (podSteps policies version pod).
Proof.
  unfold podSteps, ingressSteps, egressSteps, policySteps, inboundSteps, outboundSteps,
    dropSteps.
  repeat first [ apply Forall_cons; split; [cbn; intros; first [reflexivity | discriminate]|]
               | apply Forall_app; split
               | apply Forall_nil_2
               | (apply Forall_forall; intros st Hst; apply list_elem_of_fmap in Hst;
                  destruct Hst as (p & -> & _); reflexivity)
               | destruct (existsb _ policies) ].
Qed.

Lemma podSteps_settles policies version pod ch ch' :
  applySteps (podSteps policies version pod) ch = (None, ch') →
  Forall (settled ch') (podSteps policies version pod).
Proof.
  intros Happ. pose proof (podSteps_lenient policies version pod) as Hlen.
  unfold podSteps in *. set (c := podFirewallChainName _ _ _) in *.
  cbn [applySteps] in Happ.
  destruct (applyStep (SNewChain c) ch) as [[e|] ch1] eqn:H1; [discriminate|].
  assert (Hc : settled ch1 (SNewChain c)).
  { eapply applyStep_settles; [|exact H1]. discriminate. }
  match type of Happ with
  | applySteps ?l _ = _ => pose proof (applySteps_extends l ch1) as Hext
  end.
  rewrite Happ in Hext. cbn [snd] in Hext.
  inversion Hlen as [|? ? _ Hrest]; subst.
  constructor; [eapply settled_extends; eassumption|].
  eapply applySteps_settles; [|exact Happ].
  eapply Forall_impl; [exact Hrest|]. cbn. intros st Hst Hl. rewrite (Hst Hl).
  unfold settled in Hc. cbn [step_chain step_rule] in Hc.
  destruct (ch1 !! ("filter", c)); [eauto | contradiction].
Qed.

Lemma pods_settle policies version pods ch ch' :
  applySteps (flat_map (podSteps policies version) pods) ch = (None, ch') →
  Forall (settled ch') (flat_map (podSteps policies version) pods).
Proof.
  revert ch. induction pods as [|pod rest IH]; intros ch Happ; [constructor|].
  cbn [flat_map] in *. rewrite applySteps_app in Happ.
  destruct (applySteps (podSteps policies version pod) ch) as [[e|] ch1] eqn:H1;
    [discriminate|].
  apply Forall_app. split.
  - pose proof (applySteps_extends (flat_map (podSteps policies version) rest) ch1) as Hext.
    rewrite Happ in Hext. cbn [snd] in Hext.
    eapply Forall_impl; [eapply podSteps_settles; exact H1|].
    intros st Hst. eapply settled_extends; eassumption.
  - eapply IH. exact Happ.
Qed.

Lemma recordChains_lookup version pods (m : gmap string bool) k :
  recordChains version pods m !! k =
  if bool_decide (k ∈ map (fun pod => podFirewallChainName (namespace pod) (name pod) version)
                          pods)
  then Some true else m !! k.
Proof.
  revert m. induction pods as [|pod rest IH]; intros m; cbn [recordChains fold_left map].
  - rewrite bool_decide_eq_false_2; [reflexivity | apply not_elem_of_nil].
  - fold (recordChains version rest
            (<[podFirewallChainName (namespace pod) (name pod) version := true]> m)).
    rewrite IH.
    set (c := podFirewallChainName (namespace pod) (name pod) version).
    set (cs := map _ rest).
    destruct (decide (k = c)) as [->|Hne].
    + rewrite (bool_decide_eq_true_2 (c ∈ c :: cs)) by apply list_elem_of_here.
      destruct (bool_decide (c ∈ cs)); [reflexivity | apply lookup_insert_eq].
    + rewrite lookup_insert_ne by congruence.
      destruct (decide (k ∈ cs)) as [Hin|Hnin].
      * rewrite (bool_decide_eq_true_2 (k ∈ cs)) by assumption.
        rewrite (bool_decide_eq_true_2 (k ∈ c :: cs))
          by (apply list_elem_of_further; assumption).
        reflexivity.
      * rewrite (bool_decide_eq_false_2 (k ∈ cs)) by assumption.
        rewrite (bool_decide_eq_false_2 (k ∈ c :: cs)); [reflexivity|].
        intros Hin. apply elem_of_cons in Hin. tauto.
Qed.

Lemma recordChains_Permutation version pods pods' (m : gmap string bool) :
  pods ≡ₚ pods' → recordChains version pods m = recordChains version pods' m.
Proof.
  intros Hp. apply map_eq. intros k. rewrite !recordChains_lookup.
  assert (Hiff : k ∈ map (fun pod => podFirewallChainName (namespace pod) (name pod) version)
                        pods
                 ↔ k ∈ map (fun pod => podFirewallChainName (namespace pod) (name pod)
                                         version) pods').
  { rewrite Hp. reflexivity. }
  repeat case_bool_decide; tauto.
Qed.

Lemma New_ff s :
  script s = [] →
  New s = (Done None, Ipt (chains s) [] (calls s ++ [(CmdNew, None)])).
Proof. intros Hs. unfold New. rewrite run_ff by assumption. reflexivity. Qed.

End Synchronizer.

(** ** A pass on a provisioned store succeeds *)

Lemma applyStep_ok st ch :
  is_Some (ch !! ("filter", step_chain st)) → (applyStep st ch).1 = None.
Proof.
  intros [l Hl].
  destruct st as [c|exit1 c a|checked c a]; cbn [applyStep step_chain] in *;
    rewrite Hl; reflexivity.
Qed.

Lemma applySteps_ok l ch :
  Forall (fun st => is_Some (ch !! ("filter", step_chain st))) l →
  (applySteps l ch).1 = None.
Proof.
  revert ch. induction l as [|st l IH]; intros ch Hall; [reflexivity|].
  inversion Hall as [|? ? Hst Hl]; subst. cbn [applySteps].
  pose proof (applyStep_ok st ch Hst) as Hok.
  pose proof (applyStep_extends st ch) as Hext.
  destruct (applyStep st ch) as [[e|] ch1]; cbn [fst snd] in *; [discriminate|].
  apply IH. eapply Forall_impl; [exact Hl|]. cbn. intros st' [l' Hl'].
  destruct (Hext _ _ Hl') as (l1 & -> & _). eauto.
Qed.

Section Provisioned.
Context `{Names}.

Lemma provisioned_extends ch ch' : provisioned ch → extends ch ch' → provisioned ch'.
Proof.
  intros (Hi & Hf & Ho) Hext.
  repeat split;
    match goal with
    | Hx : is_Some (ch !! ?k) |- is_Some (ch' !! ?k) =>
        destruct Hx as [l Hl]; destruct (Hext _ _ Hl) as (l' & -> & _); eauto
    end.
Qed.

Lemma podSteps_chains policies version pod :
  Forall (fun st =>
            step_chain st = podFirewallChainName (namespace pod) (name pod) version
            ∨ step_chain st = kubeInputChainName
            ∨ step_chain st = kubeForwardChainName
            ∨ step_chain st = kubeOutputChainName)
         (podSteps policies version pod).
Proof.
  unfold podSteps, ingressSteps, egressSteps, policySteps, inboundSteps, outboundSteps,
    dropSteps.
  repeat first [ apply Forall_cons; split; [cbn; tauto|]
               | apply Forall_app; split
               | apply Forall_nil_2
               | (apply Forall_forall; intros st Hst; apply list_elem_of_fmap in Hst;
                  destruct Hst as (p & -> & _); left; reflexivity)
               | destruct (existsb _ policies) ].
Qed.

Lemma podSteps_ok policies version pod ch :
  provisioned ch → (applySteps (podSteps policies version pod) ch).1 = None.
Proof.
  intros Hprov. pose proof (podSteps_chains policies version pod) as Hchains.
  unfold podSteps in *. set (c := podFirewallChainName _ _ _) in *.
  cbn [applySteps].
  pose proof (applyStep_extends (SNewChain c) ch) as Hext.
  destruct (applyStep (SNewChain c) ch) as [[e|] ch1] eqn:H1.
  - cbn [applyStep] in H1. destruct (ch !! ("filter", c)); discriminate.
  - cbn [snd] in Hext.
    assert (Hc : settled ch1 (SNewChain c)).
    { eapply applyStep_settles; [|exact H1]. discriminate. }
    unfold settled in Hc. cbn [step_chain step_rule] in Hc.
    destruct (provisioned_extends _ _ Hprov Hext) as (Hi & Hf & Ho).
    apply applySteps_ok. inversion Hchains as [|? ? _ Hrest]; subst.
    eapply Forall_impl; [exact Hrest|]. cbn.
    intros st [-> | [-> | [-> | ->]]]; try assumption.
    destruct (ch1 !! ("filter", c)); [eauto | contradiction].
Qed.

Lemma pods_ok policies version pods ch :
  provisioned ch →
  (applySteps (flat_map (podSteps policies version) pods) ch).1 = None.
Proof.
  revert ch. induction pods as [|pod rest IH]; intros ch Hprov; [reflexivity|].
  cbn [flat_map]. rewrite applySteps_app.
  pose proof (podSteps_ok policies version pod ch Hprov) as Hok.
  pose proof (applySteps_extends (podSteps policies version pod) ch) as Hext.
  destruct (applySteps (podSteps policies version pod) ch) as [[e|] ch1];
    cbn [fst snd] in *; [discriminate|].
  apply IH. eapply provisioned_extends; eassumption.
Qed.

(** On a store that holds the three top-level chains and whose commands
    are not forced, every pass succeeds. *)
Lemma syncPodFirewallChains_succeeds
    (npc : NetworkPolicyController) (networkPoliciesInfo : list networkPolicyInfo)
    (version : string) (order : gmap string podInfo → list podInfo) (s : ipt) :
  script s = [] → provisioned (chains s) →
  ∃ active s',
    syncPodFirewallChains npc networkPoliciesInfo version order s
    = (Done (Some active, None), s').
Proof.
  intros Hs Hprov. unfold syncPodFirewallChains, getLocalPods.
  rewrite bind_eq, New_ff by assumption.
  rewrite syncPodFirewallChains_range_steps.
  match goal with
  | |- context [runSteps ?l ?s0] =>
      destruct (runSteps_ff l s0 eq_refl) as (s1 & Hrun & _);
      pose proof (pods_ok networkPoliciesInfo version
                    (order (getLocalPods_range (nodeIP npc) (podLister npc) ∅))
                    (chains s0) Hprov) as Hok
  end.
  rewrite Hrun, Hok. eauto.
Qed.

End Provisioned.

Lemma Forall_flat_map {A B} (P : B → Prop) (f : A → list B) (l : list A) :
  Forall P (flat_map f l) ↔ Forall (fun x => Forall P (f x)) l.
Proof.
  induction l as [|x l IH]; cbn [flat_map].
  - split; constructor.
  - rewrite Forall_app, Forall_cons, IH. reflexivity.
Qed.

Section Idempotence.
Context `{Names}.



End Idempotence.

(** ** Existence-checked insertions into one chain *)

Lemma insertAll_cons a specs l :
  insertAll (a :: specs) l = insertAll specs (if in_chain a l then l else a :: l).
Proof. reflexivity. Qed.

Lemma countRules_cons P a l :
  countRules P (a :: l) = ((if P a then 1 else 0) + countRules P l)%nat.
Proof. unfold countRules. cbn [List.filter]. destruct (P a); reflexivity. Qed.

Lemma elem_of_List_filter (P : rulespec → bool) a l :
  a ∈ List.filter P l ↔ a ∈ l ∧ P a = true.
Proof. rewrite !list_elem_of_In. apply filter_In. Qed.


Lemma countRules_none P l : (∀ r, r ∈ l → P r = false) → countRules P l = 0%nat.
Proof.
  induction l as [|a l IH]; intros Hl; [reflexivity|].
  rewrite countRules_cons, (Hl a) by apply list_elem_of_here.
  apply IH. intros r Hr. apply Hl. apply list_elem_of_further. assumption.
Qed.

Lemma occurrences_not_in a l : a ∉ l → occurrences a l = 0%nat.
Proof.
  unfold occurrences. induction l as [|b l IH]; intros Hnin; [reflexivity|].
  apply not_elem_of_cons in Hnin. destruct Hnin as [Hne Hnin].
  rewrite countRules_cons, IH by assumption.
  rewrite bool_decide_eq_false_2 by congruence. reflexivity.
Qed.

Lemma insertAll_elem_of a specs l :
  a ∈ insertAll specs l ↔ a ∈ l ∨ a ∈ specs.
Proof.
  revert l. induction specs as [|b specs IH]; intros l.
  - cbn. set_solver.
  - rewrite insertAll_cons, IH. destruct (in_chain b l) eqn:Hb.
    + apply in_chain_true in Hb. set_solver.
    + set_solver.
Qed.

Lemma insertAll_occurrences a specs l :
  a ∉ l → a ∈ specs → occurrences a (insertAll specs l) = 1%nat.
Proof.
  revert l. induction specs as [|b specs IH]; intros l Hnin Hin.
  - apply elem_of_nil in Hin. contradiction.
  - rewrite insertAll_cons. destruct (decide (b = a)) as [->|Hne].
    + apply in_chain_false in Hnin. rewrite Hnin. clear IH Hin.
      assert (Hgen : ∀ l', occurrences a l' = 1%nat → a ∈ l' →
                           occurrences a (insertAll specs l') = 1%nat).
      { clear. induction specs as [|b specs IH]; intros l' Hocc Hin; [assumption|].
        rewrite insertAll_cons. destruct (in_chain b l') eqn:Hb; [apply IH; assumption|].
        apply IH.
        - unfold occurrences in *. rewrite countRules_cons.
          rewrite bool_decide_eq_false_2; [assumption|].
          intros ->. apply in_chain_false in Hb. contradiction.
        - apply list_elem_of_further. assumption. }
      apply Hgen; [|apply list_elem_of_here].
      unfold occurrences. rewrite countRules_cons, bool_decide_eq_true_2 by reflexivity.
      apply in_chain_false in Hnin.
      pose proof (occurrences_not_in a l Hnin) as H0. unfold occurrences in H0.
      rewrite H0. reflexivity.
    + apply elem_of_cons in Hin. destruct Hin as [->|Hin]; [congruence|].
      apply IH; [|assumption].
      destruct (in_chain b l); [assumption|].
      intros Hin'. apply elem_of_cons in Hin'. destruct Hin' as [->|?]; [congruence|tauto].
Qed.

Lemma applySteps_inserts c sts ch l :
  ch !! ("filter", c) = Some l →
  Forall (fun st => ∃ b a, st = SInsert b c a) sts →
  applySteps sts ch = (None, <[("filter", c) := insertAll (omap step_rule sts) l]> ch).
Proof.
  revert ch l. induction sts as [|st sts IH]; intros ch l Hc Hall.
  - cbn. rewrite insert_id by assumption. reflexivity.
  - inversion Hall as [|? ? (b & a & ->) Hrest]; subst.
    cbn [applySteps applyStep omap step_rule list_omap]. rewrite Hc.
    destruct (in_chain a l) eqn:Hin.
    + rewrite (IH ch l Hc Hrest). cbn [insertAll fold_left]. rewrite Hin. reflexivity.
    + rewrite (IH (<[("filter", c) := a :: l]> ch) (a :: l)).
      * rewrite insert_insert_eq. cbn [insertAll fold_left]. rewrite Hin. reflexivity.
      * apply lookup_insert_eq.
      * assumption.
Qed.

(** Existence-checked insertions count each distinct rule once. *)
Lemma insertAll_filter_NoDup (P : rulespec → bool) specs l :
  NoDup (List.filter P l) → NoDup (List.filter P (insertAll specs l)).
Proof.
  revert l. induction specs as [|a specs IH]; intros l Hnd; [assumption|].
  rewrite insertAll_cons. apply IH.
  destruct (in_chain a l) eqn:Hin; [assumption|].
  cbn [List.filter]. destruct (P a); [|assumption].
  apply NoDup_cons. split; [|assumption].
  apply in_chain_false in Hin. intros Ha. apply elem_of_List_filter in Ha. tauto.
Qed.

Lemma insertAll_countRules_distinct (P : rulespec → bool) specs l :
  (∀ r, r ∈ l → P r = false) →
  countRules P (insertAll specs l) = length (remove_dups (List.filter P specs)).
Proof.
  intros Hl. unfold countRules. apply Permutation_length.
  assert (Hnil : List.filter P l = []).
  { apply length_zero_iff_nil. apply (countRules_none P l). assumption. }
  apply NoDup_Permutation.
  - apply insertAll_filter_NoDup. rewrite Hnil. constructor.
  - apply NoDup_remove_dups.
  - intros r. rewrite elem_of_remove_dups, !elem_of_List_filter, insertAll_elem_of.
    split; [|tauto]. intros [[Hr|Hr] HP]; [|tauto].
    rewrite (Hl r Hr) in HP. discriminate HP.
Qed.

Lemma remove_dups_NoDup (l : list rulespec) : NoDup l → remove_dups l = l.
Proof.
  induction 1 as [|a l Ha _ IH]; [reflexivity|].
  cbn [remove_dups]. destruct (decide_rel elem_of a l); [contradiction|].
  rewrite IH. reflexivity.
Qed.

Section IngressEgress.
Context `{Names}.

Lemma prefix_append (s t : string) : String.prefix s (s +:+ t) = true.
Proof.
  induction s as [|a s IH].
  - destruct t; reflexivity.
  - change (String a s +:+ t) with (String a (s +:+ t)). cbn [String.prefix].
    destruct (ascii_dec a a); [exact IH | congruence].
Qed.

Lemma isPolicyJump_policyJumpArgs version policy :
  isPolicyJump (policyJumpArgs version policy) = true.
Proof.
  unfold isPolicyJump, policyJumpArgs. rewrite prefix_append. reflexivity.
Qed.

Lemma existsb_targeting pod policies :
  existsb (fun policy => targets policy pod) policies
  = negb (bool_decide (targeting pod policies = [])).
Proof.
  unfold targeting. induction policies as [|p ps IH]; [reflexivity|].
  cbn [existsb List.filter]. destruct (targets p pod); [reflexivity|]. exact IH.
Qed.

Lemma policySteps_rules pod chain version policies :
  omap step_rule (policySteps pod chain version policies)
  = map (policyJumpArgs version) (targeting pod policies).
Proof.
  unfold policySteps. induction (targeting pod policies) as [|p ps IH]; [reflexivity|].
  cbn [map omap list_omap step_rule]. cbn [omap] in IH. rewrite IH. reflexivity.
Qed.

Lemma policySteps_inserts pod chain version policies :
  Forall (fun st => ∃ b a, st = SInsert b chain a)
         (policySteps pod chain version policies).
Proof.
  unfold policySteps. apply Forall_forall. intros st Hst.
  apply list_elem_of_fmap in Hst. destruct Hst as (p & -> & _). eauto.
Qed.

Lemma ingressSteps_inserts pod chain policies version :
  Forall (fun st => ∃ b a, st = SInsert b chain a)
         (ingressSteps pod chain policies version).
Proof.
  unfold ingressSteps. rewrite !Forall_app. split; [apply policySteps_inserts|].
  split; [destruct (existsb _ policies)|]; repeat constructor; eauto.
Qed.


Lemma ingressSteps_rules pod chain policies version :
  omap step_rule (ingressSteps pod chain policies version)
  = map (policyJumpArgs version) (targeting pod policies)
    ++ (if bool_decide (targeting pod policies = []) then [defaultIngressArgs pod] else [])
    ++ [localNodeArgs pod; statefulArgs].
Proof.
  unfold ingressSteps. rewrite !omap_app, policySteps_rules, existsb_targeting.
  destruct (bool_decide (targeting pod policies = [])); reflexivity.
Qed.

Lemma egressSteps_rules pod chain policies version :
  omap step_rule (egressSteps pod chain policies version)
  = map (policyJumpArgs version) (targeting pod policies)
    ++ (if bool_decide (targeting pod policies = []) then [defaultEgressArgs pod] else [])
    ++ [statefulArgs].
Proof.
  unfold egressSteps. rewrite !omap_app, policySteps_rules, existsb_targeting.
  destruct (bool_decide (targeting pod policies = [])); reflexivity.
Qed.

Lemma List_filter_app (P : rulespec → bool) l1 l2 :
  List.filter P (l1 ++ l2) = List.filter P l1 ++ List.filter P l2.
Proof. apply List.filter_app. Qed.

Lemma filter_policyJumps version (ps : list networkPolicyInfo) :
  List.filter isPolicyJump (map (policyJumpArgs version) ps)
  = map (policyJumpArgs version) ps.
Proof.
  induction ps as [|p ps IH]; [reflexivity|].
  cbn [map List.filter]. rewrite isPolicyJump_policyJumpArgs, IH. reflexivity.
Qed.

Lemma filter_defaultIngress_policyJumps version (ps : list networkPolicyInfo) :
  List.filter isDefaultIngressJump (map (policyJumpArgs version) ps) = [].
Proof. induction ps as [|p ps IH]; [reflexivity|]. cbn. exact IH. Qed.

Lemma isDefaultIngressJump_defaultIngressArgs pod :
  isDefaultIngressJump (defaultIngressArgs pod) = true.
Proof. unfold isDefaultIngressJump, defaultIngressArgs. apply bool_decide_eq_true_2. reflexivity. Qed.

(** C2 (as amended): on a pod chain that holds no policy jump and no
    default-ingress jump yet (a freshly created one in particular), for
    every policy list, [setupPodIngressRules] succeeds and leaves: for no
    targeting policy, exactly one jump to the default ingress chain and no
    policy jump; for at least one targeting policy, the jump of every
    targeting policy exactly once, no other policy jump and no jump to the
    default ingress chain.  The policy jumps are then as many as the
    distinct jump rules of the targeting policies: N for N targeting
    policies with pairwise distinct jumps, fewer when a policy is listed
    more than once. *)
Theorem setupPodIngressRules_complete
    (pod : podInfo) (podFwChainName : string)
    (networkPoliciesInfo : list networkPolicyInfo) (version : string)
    (s : ipt) (l : list rulespec) :
  script s = [] →
  chains s !! ("filter", podFwChainName) = Some l →
  (∀ r, r ∈ l → isPolicyJump r = false ∧ isDefaultIngressJump r = false) →
  ∃ s' l',
    setupPodIngressRules pod podFwChainName networkPoliciesInfo version s = (Done None, s')
    ∧ chains s' !! ("filter", podFwChainName) = Some l'
    ∧ (targeting pod networkPoliciesInfo = [] →
         countRules isDefaultIngressJump l' = 1%nat
         ∧ occurrences (defaultIngressArgs pod) l' = 1%nat
         ∧ countRules isPolicyJump l' = 0%nat)
    ∧ (targeting pod networkPoliciesInfo ≠ [] →
         countRules isPolicyJump l'
         = length (remove_dups (map (policyJumpArgs version)
                                    (targeting pod networkPoliciesInfo)))
         ∧ (NoDup (map (policyJumpArgs version) (targeting pod networkPoliciesInfo)) →
            countRules isPolicyJump l' = length (targeting pod networkPoliciesInfo))
         ∧ (∀ policy, policy ∈ targeting pod networkPoliciesInfo →
                      occurrences (policyJumpArgs version policy) l' = 1%nat)
         ∧ (∀ r, r ∈ l' → isPolicyJump r = true →
                 ∃ policy, policy ∈ targeting pod networkPoliciesInfo
                           ∧ r = policyJumpArgs version policy)
         ∧ countRules isDefaultIngressJump l' = 0%nat).
Proof.
  intros Hs Hc Hl.
  rewrite setupPodIngressRules_steps.
  destruct (runSteps_ff (ingressSteps pod podFwChainName networkPoliciesInfo version) s Hs)
    as (s' & Hrun & Hch & _).
  rewrite (applySteps_inserts _ _ _ _ Hc (ingressSteps_inserts _ _ _ _)) in Hrun, Hch.
  cbn [fst snd] in *. rewrite ingressSteps_rules in Hch.
  set (specs := _ ++ _ ++ _) in Hch.
  exists s', (insertAll specs l). split; [assumption|].
  split; [rewrite Hch; apply lookup_insert_eq|].
  assert (HlP : ∀ r, r ∈ l → isPolicyJump r = false) by (intros r Hr; apply Hl in Hr; tauto).
  assert (HlD : ∀ r, r ∈ l → isDefaultIngressJump r = false)
    by (intros r Hr; apply Hl in Hr; tauto).
  assert (HfreshP : ∀ a, isPolicyJump a = true → a ∉ l).
  { intros a Ha Hin. apply HlP in Hin. congruence. }
  assert (HfreshD : ∀ a, isDefaultIngressJump a = true → a ∉ l).
  { intros a Ha Hin. apply HlD in Hin. congruence. }
  assert (HfP : List.filter isPolicyJump specs
                = map (policyJumpArgs version) (targeting pod networkPoliciesInfo)).
  { unfold specs. rewrite !List_filter_app, filter_policyJumps.
    destruct (bool_decide _); cbn; rewrite app_nil_r; reflexivity. }
  assert (HfD : List.filter isDefaultIngressJump specs
                = if bool_decide (targeting pod networkPoliciesInfo = [])
                  then [defaultIngressArgs pod] else []).
  { unfold specs. rewrite !List_filter_app, filter_defaultIngress_policyJumps.
    destruct (bool_decide _); cbn [app List.filter];
      rewrite ?isDefaultIngressJump_defaultIngressArgs; reflexivity. }
  rewrite (insertAll_countRules_distinct _ specs l HlP),
    (insertAll_countRules_distinct _ specs l HlD), HfP, HfD.
  split.
  - intros Hnone.
    assert (Hin : defaultIngressArgs pod ∈ specs).
    { unfold specs. rewrite Hnone, bool_decide_eq_true_2 by reflexivity.
      apply list_elem_of_here. }
    rewrite bool_decide_eq_true_2 by assumption. rewrite Hnone.
    repeat split; try reflexivity.
    apply insertAll_occurrences; [|assumption].
    apply HfreshD. apply isDefaultIngressJump_defaultIngressArgs.
  - intros Hsome. rewrite bool_decide_eq_false_2 by assumption.
    split; [reflexivity|]. split.
    { intros Hnd. rewrite (remove_dups_NoDup _ Hnd), length_map. reflexivity. }
    split.
    { intros policy Hp.
      assert (Hin : policyJumpArgs version policy ∈ specs).
      { unfold specs. apply elem_of_app. left. apply list_elem_of_fmap. eauto. }
      apply insertAll_occurrences; [|assumption].
      apply HfreshP. apply isPolicyJump_policyJumpArgs. }
    split; [|reflexivity].
    intros r Hr HP. apply insertAll_elem_of in Hr.
    destruct Hr as [Hr|Hr]; [rewrite (HlP r Hr) in HP; discriminate HP|].
    assert (Hf : r ∈ List.filter isPolicyJump specs) by (apply elem_of_List_filter; auto).
    rewrite HfP in Hf. apply list_elem_of_fmap in Hf.
    destruct Hf as (policy & -> & Hp). eauto.
Qed.

End IngressEgress.

(** C2 (as stated) fails on the sample node: a list in which the policy
    that targets the pod comes twice has two targeting entries, and
    [setupPodIngressRules] leaves one policy jump, the second insertion
    finding the rule of the first. *)
Lemma repeated_policy_has_one_jump :
  length (targeting (Demo.info Demo.web) [Demo.allowWeb; Demo.allowWeb]) = 2%nat
  ∧ ¬ @one_jump_per_targeting_policy Demo.names (Demo.info Demo.web)
        "KUBE-POD-FW-RDP34OAH7JOK5423" [Demo.allowWeb; Demo.allowWeb] Demo.version
        (Demo.storeWith "KUBE-POD-FW-RDP34OAH7JOK5423").
Proof.
  split; [vm_compute; reflexivity|].
  unfold one_jump_per_targeting_policy. intros Hc.
  destruct Hc as [Hcount _]; [vm_compute; discriminate|].
  vm_compute in Hcount. discriminate Hcount.
Qed.

(** A step that finds its rule in place only issues the existence check. *)
Lemma runStep_settled st a s :
  script s = [] → settled (chains s) st → step_rule st = Some a →
  runStep st s
  = (Done None, Ipt (chains s) [] (calls s ++ [(CmdCheck "filter" (step_chain st) a, None)])).
Proof.
  intros Hs Hst Ha. unfold settled in Hst. rewrite Ha in Hst.
  destruct (chains s !! ("filter", step_chain st)) as [l|] eqn:Hc; [|contradiction].
  apply in_chain_true in Hst.
  destruct st as [c|[] c a'|[] c a']; cbn [step_rule step_chain] in *;
    [discriminate|..]; inversion Ha; subst a'; cbn [runStep];
    unfold insertUnlessExists_exit1, insertUnlessExists, appendUniqueUnlessExists,
      appendUnique, AppendUnique, Exists;
    rewrite !bind_eq, run_ff by assumption; cbn [exec]; rewrite Hc, Hst; reflexivity.
Qed.

Lemma runSteps_settled sts s :
  script s = [] →
  Forall (settled (chains s)) sts →
  Forall (fun st => is_Some (step_rule st)) sts →
  ∃ s', runSteps sts s = (Done None, s')
        ∧ chains s' = chains s ∧ script s' = []
        ∧ ∃ new, calls s' = calls s ++ new ∧ Forall (fun k => is_check k = true) new.
Proof.
  revert s. induction sts as [|st sts IH]; intros s Hs Hset Hins.
  - exists s. repeat split; try assumption.
    exists []. rewrite app_nil_r. split; [reflexivity | constructor].
  - inversion Hset as [|? ? Hst Hset']; subst.
    inversion Hins as [|? ? [a Ha] Hins']; subst.
    rewrite runSteps_cons, (runStep_settled _ _ _ Hs Hst Ha).
    destruct (IH (Ipt (chains s) [] (calls s ++ [(CmdCheck "filter" (step_chain st) a, None)])))
      as (s' & Hrun & Hch & Hsc & new & Hcalls & Hnew); try assumption; try reflexivity.
    exists s'. repeat split; try assumption.
    exists ((CmdCheck "filter" (step_chain st) a, None) :: new). split.
    + rewrite Hcalls. cbn [calls]. rewrite <- app_assoc. reflexivity.
    + constructor; [reflexivity | assumption].
Qed.


Section SharedJumps.
Context `{Names}.



End SharedJumps.

Lemma occurrences_app a l1 l2 :
  occurrences a (l1 ++ l2) = (occurrences a l1 + occurrences a l2)%nat.
Proof.
  unfold occurrences, countRules. rewrite List.filter_app, length_app. reflexivity.
Qed.

Lemma occurrences_singleton a : occurrences a [a] = 1%nat.
Proof.
  unfold occurrences. rewrite countRules_cons, bool_decide_eq_true_2 by reflexivity.
  reflexivity.
Qed.

Lemma occurrences_other a b : a ≠ b → occurrences a [b] = 0%nat.
Proof.
  intros Hne. apply occurrences_not_in. intros Hin.
  apply list_elem_of_singleton in Hin. contradiction.
Qed.

Section DropTail.
Context `{Names}.

Lemma log_reject_differ podName podNamespace :
  logDroppedArgs podName podNamespace ≠ rejectArgs podName podNamespace.
Proof. unfold logDroppedArgs, rejectArgs. intros Heq. discriminate Heq. Qed.

(** C6 (as amended): [dropUnmarkedTrafficRules] installs its two rules
    through [AppendUnique], which looks for the rule first.  On a store
    whose commands are not forced and a chain that exists, a first call
    succeeds, and a second call succeeds, only issues existence checks and
    leaves the store as it was; a rule that the chain did not hold before
    the first call is held exactly once after the second. *)
Theorem dropUnmarkedTrafficRules_twice
    (podName podNamespace podFwChainName : string) (s : ipt) (l : list rulespec) :
  script s = [] →
  chains s !! ("filter", podFwChainName) = Some l →
  ∃ s1 s2 new,
    dropUnmarkedTrafficRules podName podNamespace podFwChainName s = (Done None, s1)
    ∧ dropUnmarkedTrafficRules podName podNamespace podFwChainName s1 = (Done None, s2)
    ∧ chains s2 = chains s1
    ∧ calls s2 = calls s1 ++ new ∧ Forall (fun k => is_check k = true) new
    ∧ (logDroppedArgs podName podNamespace ∉ l →
       occurrences (logDroppedArgs podName podNamespace) (chainRules podFwChainName s2)
       = 1%nat)
    ∧ (rejectArgs podName podNamespace ∉ l →
       occurrences (rejectArgs podName podNamespace) (chainRules podFwChainName s2)
       = 1%nat).
Proof.
  intros Hs Hc.
  set (lg := logDroppedArgs podName podNamespace).
  set (rj := rejectArgs podName podNamespace).
  assert (Hne : lg ≠ rj) by apply log_reject_differ.
  rewrite dropUnmarkedTrafficRules_steps.
  destruct (runSteps_ff (dropSteps podName podNamespace podFwChainName) s Hs)
    as (s1 & Hrun & Hch & Hsc1).
  set (l1 := if in_chain lg l then l else l ++ [lg]).
  set (l2 := if in_chain rj l1 then l1 else l1 ++ [rj]).
  assert (Happ : applySteps (dropSteps podName podNamespace podFwChainName) (chains s)
                 = (None, <[("filter", podFwChainName) := l2]> (chains s))).
  { unfold dropSteps. cbn [applySteps applyStep]. fold lg rj. rewrite Hc.
    assert (H1 : (if in_chain lg l then chains s
                  else <[("filter", podFwChainName) := l ++ [lg]]> (chains s))
                 !! ("filter", podFwChainName) = Some l1).
    { unfold l1. destruct (in_chain lg l); [assumption | apply lookup_insert_eq]. }
    rewrite H1. unfold l2, l1.
    destruct (in_chain lg l) eqn:E1;
      [destruct (in_chain rj l) eqn:E2 | destruct (in_chain rj (l ++ [lg])) eqn:E2];
      rewrite ?insert_insert_eq, ?insert_id by assumption; reflexivity. }
  rewrite Happ in Hrun, Hch. cbn [fst snd] in *.
  assert (Hset : Forall (settled (chains s1))
                        (dropSteps podName podNamespace podFwChainName)).
  { rewrite Hch. eapply applySteps_settles; [|exact Happ].
    unfold dropSteps. repeat constructor; discriminate. }
  destruct (runSteps_settled _ s1 Hsc1 Hset) as (s2 & Hrun2 & Hch2 & _ & new & Hcalls & Hnew).
  { unfold dropSteps. repeat constructor; cbn; eauto. }
  exists s1, s2, new. rewrite dropUnmarkedTrafficRules_steps.
  repeat (split; [assumption|]).
  assert (Hrules : chainRules podFwChainName s2 = l2).
  { unfold chainRules. rewrite Hch2, Hch, lookup_insert_eq. reflexivity. }
  rewrite Hrules. unfold l2, l1. split.
  - intros Hnin. apply in_chain_false in Hnin. rewrite Hnin.
    apply in_chain_false in Hnin.
    destruct (in_chain rj (l ++ [lg]));
      rewrite ?occurrences_app, occurrences_singleton, ?(occurrences_other lg rj Hne),
        (occurrences_not_in _ _ Hnin); reflexivity.
  - intros Hnin.
    assert (Hnin1 : rj ∉ (if in_chain lg l then l else l ++ [lg])).
    { destruct (in_chain lg l); [assumption|]. intros Hin.
      apply elem_of_app in Hin. destruct Hin as [?|Hin]; [contradiction|].
      apply list_elem_of_singleton in Hin. congruence. }
    pose proof Hnin1 as Hf. apply in_chain_false in Hf. rewrite Hf.
    rewrite occurrences_app, occurrences_singleton, (occurrences_not_in _ _ Hnin1).
    reflexivity.
Qed.

End DropTail.

(** C6 (as stated) fails on the sample node: after two calls on a fresh
    chain the log rule and the reject rule are there once, not twice. *)
Lemma second_call_adds_no_duplicate :
  ¬ second_call_duplicates "web" "default" "KUBE-POD-FW-RDP34OAH7JOK5423"
      (Demo.storeWith "KUBE-POD-FW-RDP34OAH7JOK5423").
Proof.
  unfold second_call_duplicates. vm_compute. intros [Hlog _]. discriminate Hlog.
Qed.

(** ** The local pods *)

Lemma strings_Compare_eqb (a b : string) :
  (strings_Compare a b =? 0)%Z = String.eqb a b.
Proof.
  unfold strings_Compare. destruct (String.compare a b) eqn:Hcmp.
  - apply String.compare_eq_iff in Hcmp. subst. rewrite String.eqb_refl. reflexivity.
  - destruct (String.eqb_spec a b) as [->|]; [|reflexivity].
    pose proof (String.compare_antisym b b) as Ha. rewrite Hcmp in Ha. discriminate Ha.
  - destruct (String.eqb_spec a b) as [->|]; [|reflexivity].
    pose proof (String.compare_antisym b b) as Ha. rewrite Hcmp in Ha. discriminate Ha.
Qed.

Lemma empty_address_test (a : string) :
  (String.length a =? 0)%nat || String.eqb a "" = String.eqb a "".
Proof. destruct a; reflexivity. Qed.

Lemma getLocalPods_range_cons nodeIP pod rest (m : gmap string podInfo) :
  getLocalPods_range nodeIP (pod :: rest) m =
  getLocalPods_range nodeIP rest
    (if isLocal nodeIP pod then <[Status_PodIP pod := snapshot pod]> m else m).
Proof.
  cbn [getLocalPods_range]. rewrite strings_Compare_eqb, empty_address_test.
  unfold isLocal. destruct (String.eqb (Status_HostIP pod) nodeIP); cbn [negb andb];
    [|reflexivity].
  destruct (String.eqb (Status_PodIP pod) ""); reflexivity.
Qed.

(** The entry under an address is the snapshot of the last local pod of the
    cache with that address. *)
Lemma getLocalPods_range_lookup nodeIP pods (m : gmap string podInfo) a :
  getLocalPods_range nodeIP pods m !! a =
  match last (List.filter (fun p => isLocal nodeIP p && String.eqb (Status_PodIP p) a) pods)
  with
  | Some p => Some (snapshot p)
  | None => m !! a
  end.
Proof.
  revert m. induction pods as [|pod rest IH]; intros m; [reflexivity|].
  rewrite getLocalPods_range_cons, IH. cbn [List.filter].
  destruct (isLocal nodeIP pod) eqn:Hloc; cbn [andb].
  - destruct (String.eqb_spec (Status_PodIP pod) a) as [<-|Hne].
    + rewrite last_cons.
      destruct (last (List.filter _ rest)); [reflexivity | apply lookup_insert_eq].
    + destruct (last (List.filter _ rest)); [reflexivity|].
      apply lookup_insert_ne. assumption.
  - reflexivity.
Qed.

Lemma last_filter_Some {A} (f : A → bool) (l : list A) (x : A) :
  last (List.filter f l) = Some x → x ∈ l ∧ f x = true.
Proof.
  intros Hl. apply last_Some_elem_of in Hl. apply list_elem_of_In in Hl.
  apply filter_In in Hl. rewrite <- list_elem_of_In in Hl. exact Hl.
Qed.

(** C5 (as amended): [getLocalPods] never returns an error; its mapping is
    keyed by pod address and holds, under an address, the snapshot of the
    last local pod of the cache with that address.  So every entry is the
    snapshot of a local pod, the address of every local pod is a key, a
    local pod whose address no other local pod shares is contained, and the
    mapping is empty when no pod is local. *)
Theorem getLocalPods_spec (npc : NetworkPolicyController) (nodeIP : string) :
  (getLocalPods npc nodeIP).2 = None
  ∧ (∀ a, (getLocalPods npc nodeIP).1 !! a
          = snapshot <$> last (List.filter
                                 (fun p => isLocal nodeIP p && String.eqb (Status_PodIP p) a)
                                 (podLister npc)))
  ∧ (∀ a i, (getLocalPods npc nodeIP).1 !! a = Some i →
            ∃ pod, pod ∈ podLister npc ∧ isLocal nodeIP pod = true
                   ∧ Status_PodIP pod = a ∧ i = snapshot pod)
  ∧ (∀ pod, pod ∈ podLister npc → isLocal nodeIP pod = true →
            is_Some ((getLocalPods npc nodeIP).1 !! Status_PodIP pod))
  ∧ (∀ pod, pod ∈ podLister npc → isLocal nodeIP pod = true →
            (∀ q, q ∈ podLister npc → isLocal nodeIP q = true →
                  Status_PodIP q = Status_PodIP pod → q = pod) →
            (getLocalPods npc nodeIP).1 !! Status_PodIP pod = Some (snapshot pod))
  ∧ ((∀ pod, pod ∈ podLister npc → isLocal nodeIP pod = false) →
     (getLocalPods npc nodeIP).1 = ∅).
Proof.
  assert (Hlookup : ∀ a, (getLocalPods npc nodeIP).1 !! a
     = snapshot <$> last (List.filter
                            (fun p => isLocal nodeIP p && String.eqb (Status_PodIP p) a)
                            (podLister npc))).
  { intros a. unfold getLocalPods. cbn [fst].
    rewrite getLocalPods_range_lookup, lookup_empty.
    destruct (last _); reflexivity. }
  assert (Hsound : ∀ a i, (getLocalPods npc nodeIP).1 !! a = Some i →
            ∃ pod, pod ∈ podLister npc ∧ isLocal nodeIP pod = true
                   ∧ Status_PodIP pod = a ∧ i = snapshot pod).
  { intros a i Hi. rewrite Hlookup in Hi.
    destruct (last _) as [p|] eqn:Hlast; [|discriminate].
    inversion Hi; subst i. apply last_filter_Some in Hlast.
    destruct Hlast as [Hin Hp]. apply andb_true_iff in Hp. destruct Hp as [Hloc Hip].
    apply String.eqb_eq in Hip. eauto. }
  assert (Hkey : ∀ pod, pod ∈ podLister npc → isLocal nodeIP pod = true →
            is_Some ((getLocalPods npc nodeIP).1 !! Status_PodIP pod)).
  { intros pod Hin Hloc. rewrite Hlookup.
    destruct (last _) as [p|] eqn:Hlast; [eauto|].
    apply last_None in Hlast.
    assert (Hf : pod ∈ List.filter
                   (fun p => isLocal nodeIP p && String.eqb (Status_PodIP p) (Status_PodIP pod))
                   (podLister npc)).
    { apply list_elem_of_In, filter_In. rewrite <- list_elem_of_In.
      split; [assumption|]. rewrite Hloc, String.eqb_refl. reflexivity. }
    rewrite Hlast in Hf. apply elem_of_nil in Hf. contradiction. }
  split; [reflexivity|]. split; [exact Hlookup|]. split; [exact Hsound|].
  split; [exact Hkey|]. split.
  - intros pod Hin Hloc Huniq. destruct (Hkey pod Hin Hloc) as [i Hi].
    destruct (Hsound _ _ Hi) as (q & Hq & Hqloc & Hqip & ->).
    rewrite Hi, (Huniq q Hq Hqloc Hqip). reflexivity.
  - intros Hnone. apply map_eq. intros a. rewrite lookup_empty.
    destruct ((getLocalPods npc nodeIP).1 !! a) as [i|] eqn:Hi; [|reflexivity].
    destruct (Hsound _ _ Hi) as (q & Hq & Hqloc & _). rewrite (Hnone q Hq) in Hqloc.
    discriminate.
Qed.

(** C5 (as stated) fails on the sample node: of two local pods on the host
    network, which share the node address, only the last one is in the
    mapping. *)
Lemma getLocalPods_drops_shared_address :
  ¬ contains_exactly_local_pods Demo.npcHostNetwork Demo.node.
Proof.
  intros Hc. specialize (Hc Demo.proxy). destruct Hc as [_ Hc].
  - apply list_elem_of_here.
  - specialize (Hc eq_refl). vm_compute in Hc. discriminate Hc.
Qed.

Section ActiveSet.
Context `{Names}.

(** C3 (as amended): on every successful pass, whatever the executor did
    and in whatever order the runtime iterated, the active set holds
    exactly the chain names of the entries of the local-pod mapping (one
    per address of a local pod), each mapped to true. *)
Theorem syncPodFirewallChains_active_set
    (npc : NetworkPolicyController) (networkPoliciesInfo : list networkPolicyInfo)
    (version : string) (order : gmap string podInfo → list podInfo)
    (s s' : ipt) (r : option (gmap string bool)) :
  (∀ m, order m ≡ₚ (map_to_list m).*2) →
  syncPodFirewallChains npc networkPoliciesInfo version order s = (Done (r, None), s') →
  ∃ active,
    r = Some active
    ∧ ∀ k, active !! k =
           if bool_decide
                (k ∈ map (fun pod => podFirewallChainName (namespace pod) (name pod) version)
                         (map_to_list (getLocalPods npc (nodeIP npc)).1).*2)
           then Some true else None.
Proof.
  intros Ho Hrun. unfold syncPodFirewallChains, getLocalPods in *. cbn [fst].
  set (m := getLocalPods_range (nodeIP npc) (podLister npc) ∅) in *.
  rewrite bind_eq in Hrun. destruct (New s) as [[[e|]|c] s0]; try discriminate.
  rewrite syncPodFirewallChains_range_steps in Hrun.
  destruct (runSteps _ s0) as [[[e|]|c] s1]; try discriminate.
  inversion Hrun; subst. eexists. split; [reflexivity|].
  intros k. rewrite (recordChains_Permutation version _ _ ∅ (Ho m)).
  rewrite recordChains_lookup, lookup_empty. reflexivity.
Qed.

End ActiveSet.

(** C3 (as stated) fails on the sample node: the pass succeeds, and of the
    two local pods on the host network only one has its chain in the active
    set. *)
Lemma active_set_misses_shared_address :
  (@syncPodFirewallChains Demo.names Demo.npcHostNetwork [] Demo.version Demo.order
     Demo.store).1
  = Done (Some {[ "KUBE-POD-FW-66YU77BNV6QZ2KJG" := true ]}, None)
  ∧ ¬ @one_chain_per_local_pod Demo.names Demo.npcHostNetwork Demo.version
        {[ "KUBE-POD-FW-66YU77BNV6QZ2KJG" := true ]}.
Proof.
  split; [vm_compute; reflexivity|].
  intros Hc. specialize (Hc "KUBE-POD-FW-VTHWDB6X535WBJR3").
  vm_compute in Hc. discriminate Hc.
Qed.

(** ** What a pass installs, whatever the executor does *)

Lemma installs_refl P ch : installs P ch ch.
Proof. intros k l r Hk Hr. left. eauto. Qed.

Lemma installs_trans P ch1 ch2 ch3 :
  installs P ch1 ch2 → installs P ch2 ch3 → installs P ch1 ch3.
Proof.
  intros H12 H23 k l3 r Hk Hr.
  destruct (H23 k l3 r Hk Hr) as [(l2 & Hk2 & Hr2)|HP]; [|right; assumption].
  exact (H12 k l2 r Hk2 Hr2).
Qed.

Lemma installs_insert P ch k l l' :
  ch !! k = Some l → (∀ r, r ∈ l' → r ∈ l ∨ P r) → installs P ch (<[k := l']> ch).
Proof.
  intros Hk Hl k0 l0 r Hk0 Hr. destruct (decide (k = k0)) as [<-|Hne].
  - rewrite lookup_insert_eq in Hk0. inversion Hk0; subst l0.
    destruct (Hl r Hr); [left; eauto | right; assumption].
  - rewrite lookup_insert_ne in Hk0 by assumption. left. eauto.
Qed.

Lemma installs_new P ch k : installs P ch (<[k := []]> ch).
Proof.
  intros k0 l0 r Hk0 Hr. destruct (decide (k = k0)) as [<-|Hne].
  - rewrite lookup_insert_eq in Hk0. inversion Hk0; subst l0.
    apply elem_of_nil in Hr. contradiction.
  - rewrite lookup_insert_ne in Hk0 by assumption. left. eauto.
Qed.

Lemma exec_installs P c ch :
  (∀ a, cmd_rule c = Some a → P a) → installs P ch (exec c ch).2.
Proof.
  intros HP. destruct c as [|t c|t c a|t c pos a|t c a]; cbn [exec];
    try apply installs_refl;
    destruct (ch !! (t, c)) as [l|] eqn:Hc; cbn [snd]; try apply installs_refl.
  - apply installs_new.
  - destruct (in_chain a l); apply installs_refl.
  - destruct (bool_decide _); cbn [snd]; [|apply installs_refl].
    eapply installs_insert; [eassumption|]. intros r Hr.
    apply elem_of_app in Hr. destruct Hr as [Hr|Hr].
    + left. exact (subseteq_take _ _ _ Hr).
    + apply elem_of_cons in Hr. destruct Hr as [->|Hr].
      * right. apply HP. reflexivity.
      * left. exact (subseteq_drop _ _ _ Hr).
  - eapply installs_insert; [eassumption|]. intros r Hr.
    apply elem_of_app in Hr. destruct Hr as [Hr|Hr]; [left; assumption|].
    apply list_elem_of_singleton in Hr. subst. right. apply HP. reflexivity.
Qed.

Lemma installsOnly_ret {A} P (a : A) : installsOnly P (ret a).
Proof. intros s. apply installs_refl. Qed.

Lemma installsOnly_abort {A} P c : installsOnly P (@abort A c).
Proof. intros s. apply installs_refl. Qed.

Lemma installsOnly_bind {A B} P (m : M A) (k : A → M B) :
  installsOnly P m → (∀ a, installsOnly P (k a)) → installsOnly P (bind m k).
Proof.
  intros Hm Hk s. rewrite bind_eq. specialize (Hm s).
  destruct (m s) as [[a|c] s1]; cbn [snd] in *; [|assumption].
  eapply installs_trans; [exact Hm | apply Hk].
Qed.

Lemma installsOnly_run P c :
  (∀ a, cmd_rule c = Some a → P a) → installsOnly P (run c).
Proof.
  intros HP s. unfold run. destruct (script s) as [|[e|] rest]; cbn [snd chains].
  - pose proof (exec_installs P c (chains s) HP) as He.
    destruct (exec c (chains s)); exact He.
  - apply installs_refl.
  - pose proof (exec_installs P c (chains s) HP) as He.
    destruct (exec c (chains s)); exact He.
Qed.

Lemma installsOnly_Exists P c a : installsOnly P (Exists "filter" c a).
Proof.
  unfold Exists. apply installsOnly_bind; [apply installsOnly_run; discriminate|].
  intros [e|]; [|apply installsOnly_ret].
  destruct e as [st m|m]; [|apply installsOnly_ret].
  destruct st as [|p|p]; try apply installsOnly_ret.
  destruct p; apply installsOnly_ret.
Qed.

Lemma installsOnly_runStep P st :
  (∀ a, step_rule st = Some a → P a) → installsOnly P (runStep st).
Proof.
  intros HP.
  assert (Hins : ∀ c a, step_rule st = Some a → installsOnly P (Insert "filter" c 1 a)).
  { intros c a Ha. apply installsOnly_run. cbn. intros ? [= <-]. auto. }
  assert (Happ : ∀ c a, step_rule st = Some a → installsOnly P (appendUnique c a)).
  { intros c a Ha. unfold appendUnique, AppendUnique.
    apply installsOnly_bind.
    - apply installsOnly_bind; [apply installsOnly_Exists|].
      intros [ex [e|]]; [apply installsOnly_ret|].
      destruct ex; [apply installsOnly_ret|].
      apply installsOnly_run. cbn. intros ? [= <-]. auto.
    - intros [e|]; apply installsOnly_ret. }
  destruct st as [c|[] c a|[] c a]; cbn [runStep].
  - unfold newChain_exit1, NewChain.
    apply installsOnly_bind; [apply installsOnly_run; discriminate|].
    intros [[st m|m]|]; try apply installsOnly_ret.
    + apply installsOnly_bind; [apply installsOnly_ret|].
      intros z. destruct (negb _); apply installsOnly_ret.
    + apply installsOnly_bind; [apply installsOnly_abort|].
      intros z. destruct (negb _); apply installsOnly_ret.
  - unfold insertUnlessExists_exit1.
    apply installsOnly_bind; [apply installsOnly_Exists|].
    intros [ex [e|]]; [apply installsOnly_ret|].
    destruct ex; cbn [negb]; [apply installsOnly_ret|].
    apply installsOnly_bind; [apply Hins; reflexivity|].
    intros [[st m|m]|]; try apply installsOnly_ret.
    + apply installsOnly_bind; [apply installsOnly_ret|].
      intros z. destruct (negb _); apply installsOnly_ret.
    + apply installsOnly_bind; [apply installsOnly_abort|].
      intros z. destruct (negb _); apply installsOnly_ret.
  - unfold insertUnlessExists.
    apply installsOnly_bind; [apply installsOnly_Exists|].
    intros [ex [e|]]; [apply installsOnly_ret|].
    destruct ex; cbn [negb]; [apply installsOnly_ret|].
    apply installsOnly_bind; [apply Hins; reflexivity|].
    intros [e|]; apply installsOnly_ret.
  - unfold appendUniqueUnlessExists.
    apply installsOnly_bind; [apply installsOnly_Exists|].
    intros [ex [e|]]; [apply installsOnly_ret|].
    destruct ex; cbn [negb]; [apply installsOnly_ret|].
    apply Happ. reflexivity.
  - apply Happ. reflexivity.
Qed.

Lemma installsOnly_runSteps P l :
  Forall (fun st => ∀ a, step_rule st = Some a → P a) l → installsOnly P (runSteps l).
Proof.
  induction 1 as [|st l Hst _ IH]; cbn [runSteps]; [apply installsOnly_ret|].
  apply installsOnly_bind; [apply installsOnly_runStep; assumption|].
  intros [e|]; [apply installsOnly_ret | exact IH].
Qed.

Lemma hasComment_cons a rest : hasComment rest = true → hasComment (a :: rest) = true.
Proof. intros Hr. cbn [hasComment]. rewrite Hr. apply orb_true_r. Qed.

Section Annotations.
Context `{Names}.

Lemma podSteps_commented policies version pod :
  Forall (fun st => ∀ a, step_rule st = Some a → hasComment a = true ∨ a = markResetArgs)
         (podSteps policies version pod).
Proof.
  unfold podSteps, ingressSteps, egressSteps, policySteps, inboundSteps, outboundSteps,
    dropSteps.
  repeat first
    [ apply Forall_cons; split;
      [cbn [step_rule]; intros a Ha; try discriminate; inversion Ha; subst a;
       first [ right; reflexivity
             | left; repeat first [reflexivity | apply hasComment_cons] ] |]
    | apply Forall_app; split
    | apply Forall_nil_2
    | (apply Forall_forall; intros st Hst; apply list_elem_of_fmap in Hst;
       destruct Hst as (p & -> & _); cbn [step_rule]; intros a Ha; inversion Ha; subst a;
       left; reflexivity)
    | destruct (existsb _ policies) ].
Qed.

Lemma installsOnly_range P policies version pods active :
  installsOnly P (runSteps (flat_map (podSteps policies version) pods)) →
  installsOnly P (syncPodFirewallChains_range policies version pods active).
Proof.
  intros Hr s. specialize (Hr s). rewrite syncPodFirewallChains_range_steps.
  destruct (runSteps _ s) as [[[e|]|c] s']; exact Hr.
Qed.

(** C9 (as amended): whatever the executor does, every rule that a pass of
    [syncPodFirewallChains] leaves in a chain and that was not there
    before carries a comment annotation, or is the mark-reset rule
    [-j MARK --set-mark 0/0x10000], which carries none. *)
Theorem syncPodFirewallChains_comments
    (npc : NetworkPolicyController) (networkPoliciesInfo : list networkPolicyInfo)
    (version : string) (order : gmap string podInfo → list podInfo) (s : ipt) :
  installs (fun r => hasComment r = true ∨ r = markResetArgs)
    (chains s)
    (chains (syncPodFirewallChains npc networkPoliciesInfo version order s).2).
Proof.
  revert s. change (installsOnly (fun r => hasComment r = true ∨ r = markResetArgs)
                      (syncPodFirewallChains npc networkPoliciesInfo version order)).
  unfold syncPodFirewallChains, getLocalPods.
  apply installsOnly_bind; [apply installsOnly_run; discriminate|].
  intros [e|]; [apply installsOnly_abort|].
  apply installsOnly_range, installsOnly_runSteps.
  apply Forall_flat_map, Forall_forall. intros pod _. apply podSteps_commented.
Qed.

End Annotations.

(** C9 (as stated) fails on the sample node: the pass leaves the mark-reset
    rule, which has no comment, in the chain of the pod. *)
Lemma mark_reset_rule_has_no_comment :
  ¬ every_installed_rule_commented Demo.store
      (@syncPodFirewallChains Demo.names Demo.npc [Demo.allowWeb] Demo.version Demo.order
         Demo.store).2.
Proof.
  intros Hc.
  specialize (Hc "KUBE-POD-FW-RDP34OAH7JOK5423" ["-j"; "MARK"; "--set-mark"; "0/0x10000"]).
  destruct Hc as [Hold|Hcomment].
  - apply (bool_decide_unpack _). vm_compute. exact I.
  - vm_compute in Hold. apply elem_of_nil in Hold. exact Hold.
  - vm_compute in Hcomment. discriminate Hcomment.
Qed.

(** ** Errors *)

Lemma returnsOnly_ret {A} (Q : A → Prop) (a : A) : Q a → returnsOnly Q (ret a).
Proof. intros Ha s a' s' Heq. inversion Heq; subst. assumption. Qed.

Lemma returnsOnly_bind {A B} (Q : B → Prop) (m : M A) (k : A → M B) :
  (∀ a, returnsOnly Q (k a)) → returnsOnly Q (bind m k).
Proof.
  intros Hk s b s' Heq. rewrite bind_eq in Heq.
  destruct (m s) as [[a|c] s1]; [|discriminate]. eapply Hk. eassumption.
Qed.

Lemma wrapped_failedToRun e : nilOrWrapped (Some (failedToRun e)).
Proof. cbn. eauto. Qed.

(** Every step returns no error or a wrapped one. *)
Lemma runStep_nilOrWrapped st : returnsOnly nilOrWrapped (runStep st).
Proof.
  assert (Hexit : ∀ e, returnsOnly nilOrWrapped
            (bind (ExitStatus e)
               (fun st => if negb (st =? 1)%Z then ret (Some (failedToRun e)) else ret None))).
  { intros e. apply returnsOnly_bind. intros z.
    destruct (negb _); apply returnsOnly_ret; [apply wrapped_failedToRun | exact I]. }
  assert (Happ : ∀ c a, returnsOnly nilOrWrapped (appendUnique c a)).
  { intros c a. unfold appendUnique. apply returnsOnly_bind.
    intros [e|]; apply returnsOnly_ret; [apply wrapped_failedToRun | exact I]. }
  destruct st as [c|[] c a|[] c a]; cbn [runStep].
  - unfold newChain_exit1. apply returnsOnly_bind.
    intros [e|]; [apply Hexit | apply returnsOnly_ret; exact I].
  - unfold insertUnlessExists_exit1. apply returnsOnly_bind.
    intros [ex [e|]]; [apply returnsOnly_ret, wrapped_failedToRun|].
    destruct ex; cbn [negb]; [apply returnsOnly_ret; exact I|].
    apply returnsOnly_bind.
    intros [e|]; [apply Hexit | apply returnsOnly_ret; exact I].
  - unfold insertUnlessExists. apply returnsOnly_bind.
    intros [ex [e|]]; [apply returnsOnly_ret, wrapped_failedToRun|].
    destruct ex; cbn [negb]; [apply returnsOnly_ret; exact I|].
    apply returnsOnly_bind.
    intros [e|]; apply returnsOnly_ret; [apply wrapped_failedToRun | exact I].
  - unfold appendUniqueUnlessExists. apply returnsOnly_bind.
    intros [ex [e|]]; [apply returnsOnly_ret, wrapped_failedToRun|].
    destruct ex; cbn [negb]; [apply returnsOnly_ret; exact I | apply Happ].
  - apply Happ.
Qed.

(** A list of steps that returns an error stopped at the step that failed:
    the steps before it ran without error, and no later step ran. *)
Lemma runSteps_stops l s e s' :
  runSteps l s = (Done (Some e), s') →
  ∃ l1 st l2 s1,
    l = l1 ++ st :: l2
    ∧ runSteps l1 s = (Done None, s1)
    ∧ runStep st s1 = (Done (Some e), s')
    ∧ nilOrWrapped (Some e).
Proof.
  revert s. induction l as [|st l IH]; intros s Hrun; [discriminate|].
  rewrite runSteps_cons in Hrun.
  destruct (runStep st s) as [[[e1|]|c] s1] eqn:Hst; try discriminate.
  - inversion Hrun; subst. exists [], st, l, s. repeat split; try assumption.
    exact (runStep_nilOrWrapped st _ _ _ Hst).
  - destruct (IH s1 Hrun) as (l1 & st' & l2 & s2 & -> & Hl1 & Hst' & Hw).
    exists (st :: l1), st', l2, s2. repeat split; try assumption.
    rewrite runSteps_cons, Hst. assumption.
Qed.

Section ErrorPaths.
Context `{Names}.

(** Whatever the executor does, a pass that returns ends in one of two
    ways: an active set and no error, or no active set and a wrapped
    error raised by the step at which the pass stopped. *)
Lemma syncPodFirewallChains_returns
    (npc : NetworkPolicyController) (networkPoliciesInfo : list networkPolicyInfo)
    (version : string) (order : gmap string podInfo → list podInfo)
    (s s' : ipt) (r : option (gmap string bool)) (err : option error) :
  syncPodFirewallChains npc networkPoliciesInfo version order s = (Done (r, err), s') →
  match err with
  | None => is_Some r
  | Some e =>
      r = None
      ∧ (∃ e0, e = failedToRun e0)
      ∧ ∃ s0 l1 st l2 s1,
          flat_map (podSteps networkPoliciesInfo version)
                   (order (getLocalPods npc (nodeIP npc)).1) = l1 ++ st :: l2
          ∧ runSteps l1 s0 = (Done None, s1)
          ∧ runStep st s1 = (Done (Some e), s')
  end.
Proof.
  intros Hrun. unfold syncPodFirewallChains, getLocalPods in *. cbn [fst].
  rewrite bind_eq in Hrun. destruct (New s) as [[[e|]|c] s0]; try discriminate.
  rewrite syncPodFirewallChains_range_steps in Hrun.
  destruct (runSteps _ s0) as [[[e|]|c] s1] eqn:Hsteps; try discriminate;
    inversion Hrun; subst.
  - destruct (runSteps_stops _ _ _ _ Hsteps) as (l1 & st & l2 & s2 & Hl & Hl1 & Hst & Hw).
    split; [reflexivity|]. split; [exact Hw|]. exists s0, l1, st, l2, s2. auto.
  - eauto.
Qed.

End ErrorPaths.

(** C8 fails on the sample node when the first command of the pass fails
    with an error that is not go-iptables' own: the guard that reads the
    exit status panics in its type assertion, and the pass does not return. *)
Theorem syncPodFirewallChains_panics_on_foreign_error :
  (@syncPodFirewallChains Demo.names Demo.npc [Demo.allowWeb] Demo.version Demo.order
     Demo.storeLocked).1
  = Crashed PanicTypeAssertion.
Proof. vm_compute. reflexivity. Qed.

(** ** The event bridge *)

(** C7: an update notification for two pod objects requests a resync
    exactly when the phase or the assigned address differs, and then once.
    In particular an update that keeps phase and address (a change of
    labels, say) has no effect at all, and an update in which the address
    goes from empty to a real value requests exactly one resync. *)
Theorem UpdateFunc_requests_resync (oldPoObj newPoObj : Pod) :
  resyncRequests (UpdateFunc (PodObject oldPoObj) (PodObject newPoObj))
  = (if bool_decide (Status_Phase newPoObj ≠ Status_Phase oldPoObj
                     ∨ Status_PodIP newPoObj ≠ Status_PodIP oldPoObj)
     then 1%nat else 0%nat)
  ∧ (Status_Phase newPoObj = Status_Phase oldPoObj →
     Status_PodIP newPoObj = Status_PodIP oldPoObj →
     UpdateFunc (PodObject oldPoObj) (PodObject newPoObj) = [])
  ∧ (Status_PodIP oldPoObj = "" → Status_PodIP newPoObj ≠ "" →
     resyncRequests (UpdateFunc (PodObject oldPoObj) (PodObject newPoObj)) = 1%nat).
Proof.
  unfold UpdateFunc.
  destruct (String.eqb_spec (Status_Phase newPoObj) (Status_Phase oldPoObj)) as [Hph|Hph];
    destruct (String.eqb_spec (Status_PodIP newPoObj) (Status_PodIP oldPoObj)) as [Hip|Hip];
    cbn [negb orb].
  - rewrite bool_decide_eq_false_2 by tauto.
    split; [reflexivity|]. split; [reflexivity|]. intros Hold Hnew. congruence.
  - rewrite bool_decide_eq_true_2 by tauto.
    split; [reflexivity|]. split; [tauto | reflexivity].
  - rewrite bool_decide_eq_true_2 by tauto.
    split; [reflexivity|]. split; [tauto | reflexivity].
  - rewrite bool_decide_eq_true_2 by tauto.
    split; [reflexivity|]. split; [tauto | reflexivity].
Qed.

(** ** Chain names *)

Lemma be_bytes_length n x : length (SHA256.be_bytes n x) = n.
Proof. unfold SHA256.be_bytes. rewrite length_map, length_rev, length_seq. reflexivity. Qed.

Lemma Sum256_length (msg : list Z) : length (SHA256.Sum256 msg) = 32%nat.
Proof.
  unfold SHA256.Sum256, SHA256.digest_bytes.
  rewrite !length_app, !be_bytes_length. reflexivity.
Qed.

Lemma string_length_append (s t : string) :
  String.length (s +:+ t) = (String.length s + String.length t)%nat.
Proof.
  induction s as [|a s IH]; [reflexivity|].
  change (String a s +:+ t) with (String a (s +:+ t)).
  cbn [String.length]. rewrite IH. reflexivity.
Qed.

(** The encoding of a digest has at least sixteen characters. *)
Lemma encoded_prefix_length (d : list Z) :
  length d = 32%nat →
  String.length (substring 0 16 (Base32.EncodeToString d)) = 16%nat.
Proof.
  intros Hd.
  do 32 (destruct d as [|? d]; [discriminate Hd|]).
  destruct d; [reflexivity | discriminate Hd].
Qed.

Section ChainName.
Context `{Names}.

(** C4: [podFirewallChainName] is the pod-chain prefix followed by the
    first sixteen characters of the base32 encoding of the SHA-256 digest
    of namespace, pod name and version concatenated; the suffix always has
    sixteen characters; and the name depends on its three arguments
    through their concatenation only, so equal inputs give equal names. *)
Theorem podFirewallChainName_format (ns podName version : string) :
  podFirewallChainName ns podName version
  = kubePodFirewallChainPrefix
    +:+ substring 0 16
          (Base32.EncodeToString
             (SHA256.Sum256 (bytes_of_string (ns +:+ podName +:+ version))))
  ∧ String.length (podFirewallChainName ns podName version)
    = (String.length kubePodFirewallChainPrefix + 16)%nat
  ∧ ∀ ns' podName' version',
      ns' +:+ podName' +:+ version' = ns +:+ podName +:+ version →
      podFirewallChainName ns' podName' version' = podFirewallChainName ns podName version.
Proof.
  split; [reflexivity|]. split.
  - unfold podFirewallChainName.
    rewrite string_length_append, encoded_prefix_length by apply Sum256_length.
    reflexivity.
  - intros ns' podName' version' Heq. unfold podFirewallChainName. rewrite Heq.
    reflexivity.
Qed.

End ChainName.


(** * The facts on the sample node *)

(** A policy listed twice yields one jump: the second insertion finds the
    rule of the first. *)
Example setupPodIngressRules_repeated_policy :
  countRules isPolicyJump
    (chainRules "KUBE-POD-FW-RDP34OAH7JOK5423"
       (@setupPodIngressRules Demo.names (Demo.info Demo.web) "KUBE-POD-FW-RDP34OAH7JOK5423"
          [Demo.allowWeb; Demo.allowWeb] Demo.version
          (Demo.storeWith "KUBE-POD-FW-RDP34OAH7JOK5423")).2)
  = 1%nat.
Proof. vm_compute. reflexivity. Qed.

(** Without the top-level chains the pass stops at the first interception
    rule and returns no active set. *)
Example syncPodFirewallChains_unprovisioned :
  (@syncPodFirewallChains Demo.names Demo.npc [Demo.allowWeb] Demo.version Demo.order
     (Ipt ∅ [] [])).1
  = Done (None, Some (failedToRun noChain)).
Proof. vm_compute. reflexivity. Qed.


Lemma setupPodIngressRules_complete_witness :
  ∃ s' l',
    @setupPodIngressRules Demo.names (Demo.info Demo.web) "KUBE-POD-FW-RDP34OAH7JOK5423"
      [Demo.allowWeb; Demo.allowWeb] Demo.version
      (Demo.storeWith "KUBE-POD-FW-RDP34OAH7JOK5423")
    = (Done None, s')
    ∧ chains s' !! ("filter", "KUBE-POD-FW-RDP34OAH7JOK5423") = Some l'
    ∧ (targeting (Demo.info Demo.web) [Demo.allowWeb; Demo.allowWeb] = [] →
       countRules (@isDefaultIngressJump Demo.names) l' = 1%nat
       ∧ occurrences (@defaultIngressArgs Demo.names (Demo.info Demo.web)) l' = 1%nat
       ∧ countRules isPolicyJump l' = 0%nat)
    ∧ (targeting (Demo.info Demo.web) [Demo.allowWeb; Demo.allowWeb] ≠ [] →
       countRules isPolicyJump l'
       = length (remove_dups
                   (map (@policyJumpArgs Demo.names Demo.version)
                        (targeting (Demo.info Demo.web) [Demo.allowWeb; Demo.allowWeb])))
       ∧ (NoDup (map (@policyJumpArgs Demo.names Demo.version)
                     (targeting (Demo.info Demo.web) [Demo.allowWeb; Demo.allowWeb])) →
          countRules isPolicyJump l'
          = length (targeting (Demo.info Demo.web) [Demo.allowWeb; Demo.allowWeb]))
       ∧ (∀ policy, policy ∈ targeting (Demo.info Demo.web) [Demo.allowWeb; Demo.allowWeb] →
                    occurrences (@policyJumpArgs Demo.names Demo.version policy) l' = 1%nat)
       ∧ (∀ r, r ∈ l' → isPolicyJump r = true →
               ∃ policy, policy ∈ targeting (Demo.info Demo.web)
                                    [Demo.allowWeb; Demo.allowWeb]
                         ∧ r = @policyJumpArgs Demo.names Demo.version policy)
       ∧ countRules (@isDefaultIngressJump Demo.names) l' = 0%nat).
Proof.
  apply (@setupPodIngressRules_complete Demo.names (Demo.info Demo.web)
           "KUBE-POD-FW-RDP34OAH7JOK5423" [Demo.allowWeb; Demo.allowWeb] Demo.version
           (Demo.storeWith "KUBE-POD-FW-RDP34OAH7JOK5423") []).
  - reflexivity.
  - vm_compute. reflexivity.
  - intros r Hr. apply elem_of_nil in Hr. contradiction.
Defined.


Lemma dropUnmarkedTrafficRules_twice_witness :
  ∃ s1 s2 new,
    dropUnmarkedTrafficRules "web" "default" "KUBE-POD-FW-RDP34OAH7JOK5423"
      (Demo.storeWith "KUBE-POD-FW-RDP34OAH7JOK5423") = (Done None, s1)
    ∧ dropUnmarkedTrafficRules "web" "default" "KUBE-POD-FW-RDP34OAH7JOK5423" s1
      = (Done None, s2)
    ∧ chains s2 = chains s1
    ∧ calls s2 = calls s1 ++ new ∧ Forall (fun k => is_check k = true) new
    ∧ (logDroppedArgs "web" "default" ∉ [] →
       occurrences (logDroppedArgs "web" "default")
         (chainRules "KUBE-POD-FW-RDP34OAH7JOK5423" s2) = 1%nat)
    ∧ (rejectArgs "web" "default" ∉ [] →
       occurrences (rejectArgs "web" "default")
         (chainRules "KUBE-POD-FW-RDP34OAH7JOK5423" s2) = 1%nat).
Proof.
  apply (dropUnmarkedTrafficRules_twice "web" "default" "KUBE-POD-FW-RDP34OAH7JOK5423"
           (Demo.storeWith "KUBE-POD-FW-RDP34OAH7JOK5423") []).
  - reflexivity.
  - vm_compute. reflexivity.
Defined.

Lemma syncPodFirewallChains_active_set_witness :
  ∃ active : gmap string bool,
    Some ({[ "KUBE-POD-FW-66YU77BNV6QZ2KJG" := true ]} : gmap string bool) = Some active
    ∧ ∀ k, active !! k =
           if bool_decide
                (k ∈ map (fun pod => @podFirewallChainName Demo.names (namespace pod) (name pod)
                                       Demo.version)
                         (map_to_list (getLocalPods Demo.npcHostNetwork
                                         (nodeIP Demo.npcHostNetwork)).1).*2)
           then Some true else None.
Proof.
  apply (@syncPodFirewallChains_active_set Demo.names Demo.npcHostNetwork [] Demo.version
           Demo.order Demo.store
           (@syncPodFirewallChains Demo.names Demo.npcHostNetwork [] Demo.version Demo.order
              Demo.store).2).
  - intros m. reflexivity.
  - vm_compute. reflexivity.
Defined.

Lemma getLocalPods_spec_witness :
  (getLocalPods Demo.npc Demo.node).1 !! "10.1.1.5" = Some (snapshot Demo.web)
  ∧ (getLocalPods Demo.npc Demo.node).1 !! "10.1.2.7" = None
  ∧ (getLocalPods Demo.npc Demo.node).1 !! "" = None.
Proof.
  destruct (getLocalPods_spec Demo.npc Demo.node) as (_ & Hlookup & _ & _ & Huniq & _).
  split; [|split].
  - apply (Huniq Demo.web).
    + apply list_elem_of_here.
    + reflexivity.
    + intros q Hq Hloc Hip. unfold Demo.npc, podLister in Hq.
      apply elem_of_cons in Hq. destruct Hq as [->|Hq]; [reflexivity|].
      apply elem_of_cons in Hq. destruct Hq as [->|Hq]; [vm_compute in Hip; discriminate Hip|].
      apply elem_of_cons in Hq. destruct Hq as [->|Hq]; [vm_compute in Hloc; discriminate Hloc|].
      apply elem_of_cons in Hq. destruct Hq as [->|Hq]; [vm_compute in Hloc; discriminate Hloc|].
      apply elem_of_nil in Hq. contradiction.
  - rewrite Hlookup. vm_compute. reflexivity.
  - rewrite Hlookup. vm_compute. reflexivity.
Defined.

Lemma UpdateFunc_requests_resync_witness :
  UpdateFunc (PodObject Demo.web)
    (PodObject {| ObjectMeta_Name := "web"; ObjectMeta_Namespace := "default";
                  ObjectMeta_Labels := {[ "tier" := "front" ]};
                  Status_Phase := "Running"; Status_HostIP := Demo.node;
                  Status_PodIP := "10.1.1.5" |}) = []
  ∧ resyncRequests
      (UpdateFunc (PodObject Demo.job)
         (PodObject (Demo.mkPod "default" "job" "Pending" Demo.node "10.1.1.9"))) = 1%nat.
Proof.
  split.
  - apply (UpdateFunc_requests_resync Demo.web); reflexivity.
  - apply (UpdateFunc_requests_resync Demo.job); [reflexivity | discriminate].
Defined.

Lemma podFirewallChainName_format_witness :
  @podFirewallChainName Demo.names "a" "bc" "1" = @podFirewallChainName Demo.names "ab" "c" "1"
  ∧ @podFirewallChainName Demo.names "default" "web" Demo.version
    = "KUBE-POD-FW-RDP34OAH7JOK5423".
Proof.
  split.
  - apply (@podFirewallChainName_format Demo.names "ab" "c" "1"). reflexivity.
  - rewrite (proj1 (@podFirewallChainName_format Demo.names "default" "web" Demo.version)).
    vm_compute. reflexivity.
Defined.

(** * Facts beyond the claims *)

(** ** Relations kept by every command *)

Lemma keeps_ret {A} R (a : A) : Reflexive R → keeps R (ret a).
Proof. intros HR s. apply HR. Qed.

Lemma keeps_abort {A} R c : Reflexive R → keeps R (@abort A c).
Proof. intros HR s. apply HR. Qed.

Lemma keeps_bind {A B} R (m : M A) (k : A → M B) :
  Transitive R → keeps R m → (∀ a, keeps R (k a)) → keeps R (bind m k).
Proof.
  intros HT Hm Hk s. rewrite bind_eq. specialize (Hm s).
  destruct (m s) as [[a|c] s1]; cbn [snd] in *; [|assumption].
  eapply HT; [exact Hm | apply Hk].
Qed.

Lemma keeps_run R c :
  Reflexive R → (∀ ch, R ch (exec c ch).2) → keeps R (run c).
Proof.
  intros HR He s. unfold run. destruct (script s) as [|[e|] rest]; cbn [snd chains].
  - specialize (He (chains s)). destruct (exec c (chains s)); exact He.
  - apply HR.
  - specialize (He (chains s)). destruct (exec c (chains s)); exact He.
Qed.

Lemma keeps_Exists R c a :
  Reflexive R → Transitive R → (∀ ch, R ch (exec (CmdCheck "filter" c a) ch).2) →
  keeps R (Exists "filter" c a).
Proof.
  intros HR HT He. unfold Exists. apply keeps_bind; [assumption | apply keeps_run; assumption|].
  intros [e|]; [|apply keeps_ret; assumption].
  destruct e as [st m|m]; [|apply keeps_ret; assumption].
  destruct st as [|p|p]; try (apply keeps_ret; assumption).
  destruct p; apply keeps_ret; assumption.
Qed.

Lemma keeps_runStep R st :
  Reflexive R → Transitive R →
  (∀ c, c ∈ step_commands st → ∀ ch, R ch (exec c ch).2) →
  keeps R (runStep st).
Proof.
  intros HR HT Hc.
  assert (Hexit : ∀ e, keeps R
            (bind (ExitStatus e)
               (fun z => if negb (z =? 1)%Z then ret (Some (failedToRun e)) else ret None))).
  { intros e. apply keeps_bind; [assumption | destruct e; [apply keeps_ret | apply keeps_abort];
                                              assumption |].
    intros z. destruct (negb _); apply keeps_ret; assumption. }
  destruct st as [c|b c a|b c a]; cbn [step_commands] in Hc.
  - cbn [runStep]. unfold newChain_exit1, NewChain.
    apply keeps_bind; [assumption | apply keeps_run; [assumption|] |].
    + apply Hc. apply list_elem_of_here.
    + intros [e|]; [apply Hexit | apply keeps_ret; assumption].
  - assert (Hex : keeps R (Exists "filter" c a)).
    { apply keeps_Exists; try assumption. apply Hc. apply list_elem_of_here. }
    assert (Hins : keeps R (Insert "filter" c 1 a)).
    { apply keeps_run; [assumption|]. apply Hc.
      apply list_elem_of_further, list_elem_of_here. }
    destruct b; cbn [runStep]; unfold insertUnlessExists_exit1, insertUnlessExists;
      (apply keeps_bind; [assumption | exact Hex |]);
      intros [ex [e|]]; try (apply keeps_ret; assumption);
      (destruct ex; cbn [negb]; [apply keeps_ret; assumption|]);
      (apply keeps_bind; [assumption | exact Hins |]);
      intros [e|]; try (apply keeps_ret; assumption); apply Hexit.
  - assert (Hex : keeps R (Exists "filter" c a)).
    { apply keeps_Exists; try assumption. apply Hc. apply list_elem_of_here. }
    assert (Happ : keeps R (appendUnique c a)).
    { unfold appendUnique, AppendUnique.
      apply keeps_bind; [assumption | |].
      - apply keeps_bind; [assumption | exact Hex |].
        intros [ex [e|]]; [apply keeps_ret; assumption|].
        destruct ex; [apply keeps_ret; assumption|].
        apply keeps_run; [assumption|]. apply Hc.
        apply list_elem_of_further, list_elem_of_here.
      - intros [e|]; apply keeps_ret; assumption. }
    destruct b; cbn [runStep]; [|exact Happ].
    unfold appendUniqueUnlessExists.
    apply keeps_bind; [assumption | exact Hex |].
    intros [ex [e|]]; [apply keeps_ret; assumption|].
    destruct ex; cbn [negb]; [apply keeps_ret; assumption | exact Happ].
Qed.

Lemma keeps_runSteps R l :
  Reflexive R → Transitive R →
  Forall (fun st => ∀ c, c ∈ step_commands st → ∀ ch, R ch (exec c ch).2) l →
  keeps R (runSteps l).
Proof.
  intros HR HT. induction 1 as [|st l Hst _ IH]; cbn [runSteps]; [apply keeps_ret; assumption|].
  apply keeps_bind; [assumption | apply keeps_runStep; assumption |].
  intros [e|]; [apply keeps_ret; assumption | exact IH].
Qed.

Section KeptByPass.
Context `{Names}.

Lemma keeps_syncPodFirewallChains R npc networkPoliciesInfo version order :
  Reflexive R → Transitive R →
  Forall (fun st => ∀ c, c ∈ step_commands st → ∀ ch, R ch (exec c ch).2)
         (flat_map (podSteps networkPoliciesInfo version)
                   (order (getLocalPods npc (nodeIP npc)).1)) →
  keeps R (syncPodFirewallChains npc networkPoliciesInfo version order).
Proof.
  intros HR HT Hall. unfold syncPodFirewallChains, getLocalPods in *. cbn [fst] in Hall.
  apply keeps_bind; [assumption | apply keeps_run; [assumption | intros ch; apply HR] |].
  intros [e|]; [apply keeps_abort; assumption|].
  intros s. rewrite syncPodFirewallChains_range_steps.
  pose proof (keeps_runSteps R _ HR HT Hall s) as Hk.
  destruct (runSteps _ s) as [[[e|]|c] s']; exact Hk.
Qed.

End KeptByPass.

(** ** What a pass never does *)

Lemma exec_extends c ch : extends ch (exec c ch).2.
Proof.
  destruct c as [|t c|t c a|t c pos a|t c a]; cbn [exec];
    try apply extends_refl;
    destruct (ch !! (t, c)) as [l|] eqn:Hc; cbn [snd]; try apply extends_refl.
  - apply extends_insert_fresh. assumption.
  - destruct (in_chain a l); apply extends_refl.
  - destruct (bool_decide _); cbn [snd]; [|apply extends_refl].
    eapply extends_insert; [eassumption|]. intros x Hx.
    rewrite <- (take_drop (pos - 1) l) in Hx.
    apply elem_of_app in Hx. apply elem_of_app.
    destruct Hx as [Hx|Hx]; [left; assumption | right; apply list_elem_of_further; assumption].
  - eapply extends_insert; [eassumption|]. intros x Hx.
    apply elem_of_app. left. assumption.
Qed.

Lemma extends_Reflexive : Reflexive extends.
Proof. intros ch. apply extends_refl. Qed.

Lemma extends_Transitive : Transitive extends.
Proof. intros a b c. apply extends_trans. Qed.

Lemma sameOutside_Reflexive K : Reflexive (sameOutside K).
Proof. intros ch k _. reflexivity. Qed.

Lemma sameOutside_Transitive K : Transitive (sameOutside K).
Proof. intros a b c Hab Hbc k Hk. rewrite (Hbc k Hk). apply Hab. assumption. Qed.

Lemma exec_sameOutside (K : string * string → Prop) c ch :
  (∀ k, cmd_key c = Some k → K k) → sameOutside K ch (exec c ch).2.
Proof.
  intros HK k Hk.
  assert (Hne : ∀ t c0, cmd_key c = Some (t, c0) → (t, c0) ≠ k).
  { intros t c0 Hkey Heq. subst k. apply Hk, HK. assumption. }
  destruct c as [|t c|t c a|t c pos a|t c a]; cbn [exec]; try reflexivity;
    destruct (ch !! (t, c)) as [l|] eqn:Hc; cbn [snd]; try reflexivity.
  - apply lookup_insert_ne. apply Hne. reflexivity.
  - destruct (in_chain a l); reflexivity.
  - destruct (bool_decide _); cbn [snd]; [|reflexivity].
    apply lookup_insert_ne. apply Hne. reflexivity.
  - apply lookup_insert_ne. apply Hne. reflexivity.
Qed.

Lemma step_commands_key st c :
  c ∈ step_commands st → cmd_key c = Some ("filter", step_chain st).
Proof.
  destruct st as [c0|b c0 a|b c0 a]; cbn [step_commands step_chain]; intros Hc;
    repeat (apply elem_of_cons in Hc; destruct Hc as [->|Hc]; [reflexivity|]);
    apply elem_of_nil in Hc; contradiction.
Qed.

Section Never.
Context `{Names}.

(** X1: whatever the executor does, and whether the pass succeeds, fails or
    crashes, [syncPodFirewallChains] removes nothing: every chain of the
    store it started from is still there, with every rule it held. *)
Theorem syncPodFirewallChains_never_removes
    (npc : NetworkPolicyController) (networkPoliciesInfo : list networkPolicyInfo)
    (version : string) (order : gmap string podInfo → list podInfo) (s : ipt) :
  extends (chains s)
          (chains (syncPodFirewallChains npc networkPoliciesInfo version order s).2).
Proof.
  apply (keeps_syncPodFirewallChains extends).
  - apply extends_Reflexive.
  - apply extends_Transitive.
  - apply Forall_forall. intros st _ c _ ch. apply exec_extends.
Qed.

(** X2: whatever the executor does, a pass only touches the filter table,
    and in it only the chains of the pods it iterates over and the three
    top-level chains; every other chain of every table is left exactly as it
    was. *)
Theorem syncPodFirewallChains_frame
    (npc : NetworkPolicyController) (networkPoliciesInfo : list networkPolicyInfo)
    (version : string) (order : gmap string podInfo → list podInfo) (s : ipt)
    (t c : string) :
  (t ≠ "filter"
   ∨ ((c ∉ map (fun pod => podFirewallChainName (namespace pod) (name pod) version)
               (order (getLocalPods npc (nodeIP npc)).1))
      ∧ c ≠ kubeInputChainName ∧ c ≠ kubeForwardChainName ∧ c ≠ kubeOutputChainName)) →
  chains (syncPodFirewallChains npc networkPoliciesInfo version order s).2 !! (t, c)
  = chains s !! (t, c).
Proof.
  intros Hout.
  set (K := fun k : string * string =>
              ∃ c0, k = ("filter", c0)
                    ∧ (c0 ∈ map (fun pod => podFirewallChainName (namespace pod) (name pod)
                                              version)
                                (order (getLocalPods npc (nodeIP npc)).1)
                       ∨ c0 = kubeInputChainName ∨ c0 = kubeForwardChainName
                       ∨ c0 = kubeOutputChainName)).
  assert (Hkeeps : keeps (sameOutside K)
                     (syncPodFirewallChains npc networkPoliciesInfo version order)).
  { apply keeps_syncPodFirewallChains.
    - apply sameOutside_Reflexive.
    - apply sameOutside_Transitive.
    - apply Forall_flat_map, Forall_forall. intros pod Hpod.
      pose proof (podSteps_chains networkPoliciesInfo version pod) as Hchains.
      eapply Forall_impl; [exact Hchains|]. cbn. intros st Hst cmd Hcmd ch.
      apply exec_sameOutside. intros k Hk.
      rewrite (step_commands_key _ _ Hcmd) in Hk. inversion Hk; subst k.
      exists (step_chain st). split; [reflexivity|].
      destruct Hst as [-> | Hst]; [left | right; exact Hst].
      apply list_elem_of_fmap. eauto. }
  apply Hkeeps. unfold K. intros (c0 & Heq & Hc0). inversion Heq; subst.
  destruct Hout as [Ht | (Hpod & Hi & Hf & Ho)]; [congruence|].
  destruct Hc0 as [?|[?|[?|?]]]; contradiction.
Qed.

End Never.

(** ** A pass that returns an error stopped at the command that failed *)

Lemma run_lastCall c s :
  ∃ r s', run c s = (Done r, s') ∧ lastCall s' = Some (c, r).
Proof.
  unfold run, lastCall. destruct (script s) as [|[e|] rest].
  - destruct (exec c (chains s)) as [r ch]. exists r. eexists. split; [reflexivity|].
    cbn [calls]. apply last_snoc.
  - exists (Some e). eexists. split; [reflexivity|]. cbn [calls]. apply last_snoc.
  - destruct (exec c (chains s)) as [r ch]. exists r. eexists. split; [reflexivity|].
    cbn [calls]. apply last_snoc.
Qed.

Lemma Exists_lastCall c a s b err s' :
  Exists "filter" c a s = (Done (b, err), s') →
  match err with
  | None => True
  | Some e => lastCall s' = Some (CmdCheck "filter" c a, Some e)
  end.
Proof.
  unfold Exists. rewrite bind_eq.
  destruct (run_lastCall (CmdCheck "filter" c a) s) as (r & s1 & Hrun & Hlast).
  rewrite Hrun. destruct r as [e|]; [|intros [= <- <- <-]; exact I].
  destruct e as [st m|m]; [|intros [= <- <- <-]; exact Hlast].
  destruct st as [|p|p]; try (intros [= <- <- <-]; exact Hlast).
  destruct p; intros [= <- <- <-]; try exact Hlast. exact I.
Qed.

Lemma exit1_guard_error e s e' s' :
  bind (ExitStatus e)
       (fun z => if negb (z =? 1)%Z then ret (Some (failedToRun e)) else ret None) s
  = (Done (Some e'), s') →
  e' = failedToRun e ∧ s' = s.
Proof.
  rewrite bind_eq. destruct e as [st m|m]; cbn [ExitStatus]; [|discriminate].
  unfold ret. destruct (negb _); intros [= <- <-]; auto.
Qed.

Lemma runStep_fails_at_last st s e s' :
  runStep st s = (Done (Some e), s') →
  ∃ c e0, e = failedToRun e0 ∧ lastCall s' = Some (c, Some e0) ∧ c ∈ step_commands st.
Proof.
  assert (Hins : ∀ c a s0 e1 s1,
            Insert "filter" c 1 a s0 = (Done (Some e1), s1) →
            lastCall s1 = Some (CmdInsert "filter" c 1 a, Some e1)).
  { intros c a s0 e1 s1. unfold Insert.
    destruct (run_lastCall (CmdInsert "filter" c 1 a) s0) as (r & s2 & Hrun & Hlast).
    rewrite Hrun. intros [= <- <-]. exact Hlast. }
  assert (Happ : ∀ c a s0 e1 s1,
            appendUnique c a s0 = (Done (Some e1), s1) →
            ∃ c0 e0, e1 = failedToRun e0 ∧ lastCall s1 = Some (c0, Some e0)
                     ∧ c0 ∈ [CmdCheck "filter" c a; CmdAppend "filter" c a]).
  { intros c a s0 e1 s1. unfold appendUnique, AppendUnique. rewrite !bind_eq.
    destruct (Exists "filter" c a s0) as [[[ex err]|k] s2] eqn:Hex; [|discriminate].
    pose proof (Exists_lastCall _ _ _ _ _ _ Hex) as Hlast.
    destruct err as [e0|].
    - unfold ret. intros [= <- <-]. exists (CmdCheck "filter" c a), e0.
      split; [reflexivity|]. split; [assumption | apply list_elem_of_here].
    - destruct ex; [discriminate|]. unfold Append.
      destruct (run_lastCall (CmdAppend "filter" c a) s2) as (r & s3 & Hrun & Hl3).
      rewrite Hrun. destruct r as [e0|]; [|discriminate].
      unfold ret. intros [= <- <-]. exists (CmdAppend "filter" c a), e0.
      split; [reflexivity|]. split; [assumption|].
      apply list_elem_of_further, list_elem_of_here. }
  destruct st as [c|b c a|b c a]; cbn [runStep step_commands].
  - unfold newChain_exit1, NewChain. rewrite bind_eq.
    destruct (run_lastCall (CmdNewChain "filter" c) s) as (r & s1 & Hrun & Hlast).
    rewrite Hrun. destruct r as [e0|]; [|discriminate].
    intros Hg. apply exit1_guard_error in Hg. destruct Hg as [-> ->].
    exists (CmdNewChain "filter" c), e0.
    split; [reflexivity|]. split; [assumption | apply list_elem_of_here].
  - assert (Hgen : (if b then insertUnlessExists_exit1 c a else insertUnlessExists c a) s
                   = (Done (Some e), s') →
                   ∃ c0 e0, e = failedToRun e0 ∧ lastCall s' = Some (c0, Some e0)
                            ∧ c0 ∈ [CmdCheck "filter" c a; CmdInsert "filter" c 1 a]).
    { destruct b; unfold insertUnlessExists_exit1, insertUnlessExists; rewrite bind_eq;
        (destruct (Exists "filter" c a s) as [[[ex err]|k] s2] eqn:Hex; [|discriminate]);
        pose proof (Exists_lastCall _ _ _ _ _ _ Hex) as Hlast;
        (destruct err as [e0|];
         [unfold ret; intros [= <- <-]; exists (CmdCheck "filter" c a), e0;
          split; [reflexivity|]; split; [assumption | apply list_elem_of_here]|]);
        (destruct ex; cbn [negb]; [discriminate|]);
        rewrite bind_eq;
        (destruct (Insert "filter" c 1 a s2) as [[[e1|]|k] s3] eqn:Hi; try discriminate);
        pose proof (Hins _ _ _ _ _ Hi) as Hl3.
      - intros Hg. apply exit1_guard_error in Hg. destruct Hg as [-> ->].
        exists (CmdInsert "filter" c 1 a), e1. split; [reflexivity|]. split; [assumption|].
        apply list_elem_of_further, list_elem_of_here.
      - unfold ret. intros [= <- <-].
        exists (CmdInsert "filter" c 1 a), e1. split; [reflexivity|]. split; [assumption|].
        apply list_elem_of_further, list_elem_of_here. }
    destruct b; exact Hgen.
  - destruct b; [|apply Happ].
    unfold appendUniqueUnlessExists. rewrite bind_eq.
    destruct (Exists "filter" c a s) as [[[ex err]|k] s2] eqn:Hex; [|discriminate].
    pose proof (Exists_lastCall _ _ _ _ _ _ Hex) as Hlast.
    destruct err as [e0|].
    + unfold ret. intros [= <- <-]. exists (CmdCheck "filter" c a), e0.
      split; [reflexivity|]. split; [assumption | apply list_elem_of_here].
    + destruct ex; cbn [negb]; [discriminate | apply Happ].
Qed.

Section StopsAtFailure.
Context `{Names}.

(** X3: whatever the executor does, when [syncPodFirewallChains] returns an
    error the active set is nil, the error is the [fmt.Errorf] wrapping of
    the error of an executor command, and that command is the last one the
    pass issued: nothing is attempted after the failure. *)
Theorem syncPodFirewallChains_stops_at_failure
    (npc : NetworkPolicyController) (networkPoliciesInfo : list networkPolicyInfo)
    (version : string) (order : gmap string podInfo → list podInfo)
    (s s' : ipt) (r : option (gmap string bool)) (e : error) :
  syncPodFirewallChains npc networkPoliciesInfo version order s = (Done (r, Some e), s') →
  r = None
  ∧ ∃ c e0, e = failedToRun e0 ∧ lastCall s' = Some (c, Some e0) ∧ c ≠ CmdNew.
Proof.
  intros Hrun. unfold syncPodFirewallChains, getLocalPods in Hrun.
  rewrite bind_eq in Hrun. destruct (New s) as [[[e1|]|c] s0]; try discriminate.
  rewrite syncPodFirewallChains_range_steps in Hrun.
  destruct (runSteps _ s0) as [[[e1|]|c] s1] eqn:Hsteps; try discriminate.
  inversion Hrun; subst. split; [reflexivity|].
  destruct (runSteps_stops _ _ _ _ Hsteps) as (l1 & st & l2 & s2 & _ & _ & Hst & _).
  destruct (runStep_fails_at_last _ _ _ _ Hst) as (c & e0 & He & Hlast & Hc).
  exists c, e0. split; [assumption|]. split; [assumption|].
  intros ->. apply step_commands_key in Hc. discriminate Hc.
Qed.

End StopsAtFailure.

(** ** What a successful pass leaves *)

Lemma settled_rule ch st a :
  settled ch st → step_rule st = Some a →
  a ∈ default [] (ch !! ("filter", step_chain st)).
Proof.
  unfold settled. intros Hst Ha. rewrite Ha in Hst.
  destruct (ch !! ("filter", step_chain st)); [exact Hst | contradiction].
Qed.

Section InPlace.
Context `{Names}.

Lemma podSteps_elem_of policies version pod st :
  st ∈ podSteps policies version pod ↔
  let c := podFirewallChainName (namespace pod) (name pod) version in
  st = SNewChain c
  ∨ st ∈ ingressSteps pod c policies version
  ∨ st ∈ egressSteps pod c policies version
  ∨ st ∈ inboundSteps pod c
  ∨ st ∈ outboundSteps pod c
  ∨ st ∈ dropSteps (name pod) (namespace pod) c
  ∨ st = SAppend false c markResetArgs
  ∨ st = SAppend false c markAcceptArgs.
Proof.
  unfold podSteps. cbn zeta.
  rewrite elem_of_cons, !elem_of_app, !elem_of_cons, elem_of_nil. tauto.
Qed.

Lemma policyStep_in_ingress pod c policies version policy :
  policy ∈ targeting pod policies →
  SInsert true c (policyJumpArgs version policy) ∈ ingressSteps pod c policies version.
Proof.
  intros Hp. unfold ingressSteps, policySteps. apply elem_of_app. left.
  apply list_elem_of_fmap. eauto.
Qed.

Lemma settled_podInPlace policies version pod s :
  Forall (settled (chains s)) (podSteps policies version pod) →
  podInPlace policies version pod s.
Proof.
  intros Hall. rewrite Forall_forall in Hall.
  set (c := podFirewallChainName (namespace pod) (name pod) version).
  assert (Hin : ∀ st a, st ∈ podSteps policies version pod → step_rule st = Some a →
                        a ∈ chainRules (step_chain st) s).
  { intros st a Hst Ha. exact (settled_rule _ _ _ (Hall st Hst) Ha). }
  assert (Hnone : targeting pod policies = [] →
                  existsb (fun policy => targets policy pod) policies = false).
  { intros Hn. rewrite existsb_targeting, Hn. reflexivity. }
  unfold podInPlace. fold c.
  split.
  { assert (Hc : settled (chains s) (SNewChain c)).
    { apply Hall. apply podSteps_elem_of. left. reflexivity. }
    unfold settled in Hc. cbn [step_chain] in Hc.
    destruct (chains s !! ("filter", c)); [eauto | contradiction]. }
  split.
  { intros policy Hp.
    apply (Hin (SInsert true c (policyJumpArgs version policy))); [|reflexivity].
    apply podSteps_elem_of. right. left. apply policyStep_in_ingress. assumption. }
  split.
  { intros Hn. split.
    - apply (Hin (SInsert true c (defaultIngressArgs pod))); [|reflexivity].
      apply podSteps_elem_of. right. left. unfold ingressSteps. rewrite (Hnone Hn).
      rewrite !elem_of_app, !elem_of_cons. tauto.
    - apply (Hin (SInsert true c (defaultEgressArgs pod))); [|reflexivity].
      apply podSteps_elem_of. right. right. left. unfold egressSteps. rewrite (Hnone Hn).
      rewrite !elem_of_app, !elem_of_cons. tauto. }
  split.
  { apply (Hin (SInsert false c (localNodeArgs pod))); [|reflexivity].
    apply podSteps_elem_of. right. left. unfold ingressSteps.
    rewrite !elem_of_app, !elem_of_cons. tauto. }
  split.
  { apply (Hin (SInsert false c statefulArgs)); [|reflexivity].
    apply podSteps_elem_of. right. left. unfold ingressSteps.
    rewrite !elem_of_app, !elem_of_cons. tauto. }
  split.
  { apply (Hin (SAppend false c (logDroppedArgs (name pod) (namespace pod)))); [|reflexivity].
    apply podSteps_elem_of. do 5 right. left. unfold dropSteps.
    rewrite !elem_of_cons. tauto. }
  split.
  { apply (Hin (SAppend false c (rejectArgs (name pod) (namespace pod)))); [|reflexivity].
    apply podSteps_elem_of. do 5 right. left. unfold dropSteps.
    rewrite !elem_of_cons. tauto. }
  split.
  { apply (Hin (SAppend false c markResetArgs)); [|reflexivity].
    apply podSteps_elem_of. do 6 right. left. reflexivity. }
  split.
  { apply (Hin (SAppend false c markAcceptArgs)); [|reflexivity].
    apply podSteps_elem_of. do 7 right. reflexivity. }
  split.
  { apply (Hin (SInsert false kubeForwardChainName (inboundArgs pod c))); [|reflexivity].
    apply podSteps_elem_of. do 3 right. left. unfold inboundSteps.
    rewrite !elem_of_cons. tauto. }
  split.
  { apply (Hin (SInsert false kubeOutputChainName (inboundArgs pod c))); [|reflexivity].
    apply podSteps_elem_of. do 3 right. left. unfold inboundSteps.
    rewrite !elem_of_cons. tauto. }
  split.
  { apply (Hin (SInsert false kubeForwardChainName (inboundBridgedArgs pod c)));
      [|reflexivity].
    apply podSteps_elem_of. do 3 right. left. unfold inboundSteps.
    rewrite !elem_of_cons. tauto. }
  split.
  { apply (Hin (SAppend true kubeInputChainName (outboundArgs pod c))); [|reflexivity].
    apply podSteps_elem_of. do 4 right. left. unfold outboundSteps. cbn [map].
    rewrite !elem_of_app, !elem_of_cons. tauto. }
  split.
  { apply (Hin (SAppend true kubeForwardChainName (outboundArgs pod c))); [|reflexivity].
    apply podSteps_elem_of. do 4 right. left. unfold outboundSteps. cbn [map].
    rewrite !elem_of_app, !elem_of_cons. tauto. }
  split.
  { apply (Hin (SAppend true kubeOutputChainName (outboundArgs pod c))); [|reflexivity].
    apply podSteps_elem_of. do 4 right. left. unfold outboundSteps. cbn [map].
    rewrite !elem_of_app, !elem_of_cons. tauto. }
  apply (Hin (SInsert false kubeForwardChainName (outboundBridgedArgs pod c))); [|reflexivity].
  apply podSteps_elem_of. do 4 right. left. unfold outboundSteps. cbn [map].
  rewrite !elem_of_app, !elem_of_cons. tauto.
Qed.

(** X4: on a store that holds the three top-level chains and whose commands
    are not made to fail, a pass succeeds, and then, for every pod it
    iterated over, the chain of the pod is in the active set and everything
    the pass wants for the pod is in place: its chain with the policy jumps
    (or the two default jumps), the accept rules, the log, reject and mark
    rules, and its interception jumps in the top-level chains. *)
Theorem syncPodFirewallChains_postcondition
    (npc : NetworkPolicyController) (networkPoliciesInfo : list networkPolicyInfo)
    (version : string) (order : gmap string podInfo → list podInfo) (s : ipt) :
  script s = [] → provisioned (chains s) →
  ∃ active s',
    syncPodFirewallChains npc networkPoliciesInfo version order s
    = (Done (Some active, None), s')
    ∧ ∀ pod, pod ∈ order (getLocalPods npc (nodeIP npc)).1 →
        active !! podFirewallChainName (namespace pod) (name pod) version = Some true
        ∧ podInPlace networkPoliciesInfo version pod s'.
Proof.
  intros Hs Hprov.
  destruct (syncPodFirewallChains_succeeds npc networkPoliciesInfo version order s Hs Hprov)
    as (active & s' & Hrun).
  exists active, s'. split; [assumption|].
  unfold syncPodFirewallChains, getLocalPods in *. cbn [fst].
  set (m := getLocalPods_range (nodeIP npc) (podLister npc) ∅) in *.
  rewrite bind_eq, New_ff in Hrun by assumption.
  rewrite syncPodFirewallChains_range_steps in Hrun.
  set (plan := flat_map (podSteps networkPoliciesInfo version) (order m)) in *.
  destruct (runSteps_ff plan (Ipt (chains s) [] (calls s ++ [(CmdNew, None)])) eq_refl)
    as (t1 & Hr1 & Hch1 & _).
  rewrite Hr1 in Hrun. cbn [chains] in *.
  destruct (applySteps plan (chains s)) as [[e|] ch1] eqn:Happ; cbn [fst snd] in *;
    [discriminate|].
  inversion Hrun; subst active t1. clear Hrun.
  pose proof (pods_settle _ _ _ _ _ Happ) as Hall. rewrite <- Hch1 in Hall.
  apply Forall_flat_map in Hall. rewrite Forall_forall in Hall.
  intros pod Hpod. split.
  - rewrite recordChains_lookup, bool_decide_eq_true_2; [reflexivity|].
    apply list_elem_of_fmap. eauto.
  - apply settled_podInPlace. apply Hall. assumption.
Qed.

End InPlace.

(** ** The two ways in which a pass does not return *)






Lemma getLocalPods_range_cache_pods nodeIP pods (m : gmap string podInfo) :
  getLocalPods_range_cache nodeIP (map PodObject pods) m
  = Done (getLocalPods_range nodeIP pods m).
Proof.
  revert m. induction pods as [|pod rest IH]; intros m; [reflexivity|].
  cbn [map getLocalPods_range_cache getLocalPods_range].
  destruct (negb _); [apply IH|]. destruct (_ || _); apply IH.
Qed.


Section Crashes.
Context `{Names}.

(** On a cache of pods, the pass over the cache is [syncPodFirewallChains]. *)
Lemma syncPodFirewallChains_cache_pods npc policies version order s :
  syncPodFirewallChains_cache (nodeIP npc) (map PodObject (podLister npc)) policies version
    order s
  = syncPodFirewallChains npc policies version order s.
Proof.
  unfold syncPodFirewallChains_cache, syncPodFirewallChains, getLocalPods_cache, getLocalPods.
  rewrite getLocalPods_range_cache_pods. reflexivity.
Qed.


End Crashes.

(** ** A pass as the steps of its pods *)

Section PassAsSteps.
Context `{Names}.

(** On a store whose commands are not made to fail and that holds the three
    top-level chains, a pass is the application of the steps of its pods. *)
Lemma syncPodFirewallChains_applies npc policies version order s :
  script s = [] → provisioned (chains s) →
  ∃ s',
    syncPodFirewallChains npc policies version order s
    = (Done (Some (recordChains version (order (getLocalPods npc (nodeIP npc)).1) ∅), None),
       s')
    ∧ applySteps (flat_map (podSteps policies version)
                           (order (getLocalPods npc (nodeIP npc)).1)) (chains s)
      = (None, chains s')
    ∧ script s' = [].
Proof.
  intros Hs Hprov. unfold syncPodFirewallChains, getLocalPods. cbn [fst].
  set (m := getLocalPods_range (nodeIP npc) (podLister npc) ∅).
  rewrite bind_eq, New_ff by assumption.
  rewrite syncPodFirewallChains_range_steps.
  set (plan := flat_map (podSteps policies version) (order m)).
  destruct (runSteps_ff plan (Ipt (chains s) [] (calls s ++ [(CmdNew, None)])) eq_refl)
    as (s' & Hrun & Hch & Hs').
  cbn [chains] in *. rewrite Hrun.
  pose proof (pods_ok policies version (order m) (chains s) Hprov) as Hok.
  fold plan in Hok.
  destruct (applySteps plan (chains s)) as [[e|] ch'] eqn:Happ; cbn [fst snd] in *;
    [discriminate|].
  exists s'. subst ch'. repeat split; assumption.
Qed.

Lemma podSteps_targeting policies policies' version pod :
  targeting pod policies = targeting pod policies' →
  podSteps policies version pod = podSteps policies' version pod.
Proof.
  intros Heq. unfold podSteps, ingressSteps, egressSteps, policySteps.
  rewrite !existsb_targeting, Heq. reflexivity.
Qed.

(** X6: when no pod of the cache is local to the node, a pass probes the
    executor and does nothing else: it issues that one command, leaves every
    chain as it was and, unless the probe failed, returns an active set that
    is empty (and not nil) with a nil error. *)
Theorem syncPodFirewallChains_no_local_pods
    (npc : NetworkPolicyController) (networkPoliciesInfo : list networkPolicyInfo)
    (version : string) (order : gmap string podInfo → list podInfo) (s : ipt) :
  (∀ m, order m ≡ₚ (map_to_list m).*2) →
  (∀ pod, pod ∈ podLister npc → isLocal (nodeIP npc) pod = false) →
  ∃ r,
    calls (syncPodFirewallChains npc networkPoliciesInfo version order s).2
    = calls s ++ [(CmdNew, r)]
    ∧ chains (syncPodFirewallChains npc networkPoliciesInfo version order s).2 = chains s
    ∧ (syncPodFirewallChains npc networkPoliciesInfo version order s).1
      = match r with
        | None => Done (Some ∅, None)
        | Some e => Crashed (GlogFatal ("Failed to initialize iptables executor: " +:+ Error e))
        end.
Proof.
  intros Horder Hnone.
  assert (Hempty : getLocalPods_range (nodeIP npc) (podLister npc) ∅ = ∅).
  { apply map_eq. intros a. rewrite getLocalPods_range_lookup, lookup_empty.
    destruct (last _) as [p|] eqn:Hlast; [|reflexivity].
    apply last_filter_Some in Hlast. destruct Hlast as [Hp Hloc].
    rewrite (Hnone p Hp) in Hloc. discriminate Hloc. }
  assert (Hnil : order (getLocalPods_range (nodeIP npc) (podLister npc) ∅) = []).
  { apply Permutation_nil. symmetry. rewrite Hempty.
    rewrite (Horder ∅), map_to_list_empty. reflexivity. }
  unfold syncPodFirewallChains, getLocalPods. rewrite bind_eq, Hnil.
  assert (Hnew : ∃ r s0, New s = (Done r, s0) ∧ calls s0 = calls s ++ [(CmdNew, r)]
                         ∧ chains s0 = chains s).
  { unfold New, run. destruct (script s) as [|[e|] rest]; cbn [exec]; eauto. }
  destruct Hnew as (r & s0 & Hnew & Hcalls & Hch). rewrite Hnew.
  exists r. destruct r as [e|]; cbn; repeat split; assumption.
Qed.

(** X7: a pass depends on the policies only through the policies that
    target the pods it iterates over, in their order: two policy lists that
    agree there make the pass behave the same, whatever the executor does
    (same result, same commands, same store).  In particular policies that
    target no local pod change nothing. *)
Theorem syncPodFirewallChains_relevant_policies
    (npc : NetworkPolicyController) (policies policies' : list networkPolicyInfo)
    (version : string) (order : gmap string podInfo → list podInfo) (s : ipt) :
  (∀ pod, pod ∈ order (getLocalPods npc (nodeIP npc)).1 →
          targeting pod policies = targeting pod policies') →
  syncPodFirewallChains npc policies version order s
  = syncPodFirewallChains npc policies' version order s.
Proof.
  intros Hsame. unfold syncPodFirewallChains, getLocalPods in *. cbn [fst] in Hsame.
  rewrite !bind_eq. destruct (New s) as [[[e|]|c] s0]; try reflexivity.
  rewrite !syncPodFirewallChains_range_steps.
  replace (flat_map (podSteps policies' version)
             (order (getLocalPods_range (nodeIP npc) (podLister npc) ∅)))
    with (flat_map (podSteps policies version)
            (order (getLocalPods_range (nodeIP npc) (podLister npc) ∅)));
    [reflexivity|].
  induction (order (getLocalPods_range (nodeIP npc) (podLister npc) ∅)) as [|pod rest IH];
    [reflexivity|].
  cbn [flat_map]. rewrite IH.
  - rewrite (podSteps_targeting policies policies' version pod); [reflexivity|].
    apply Hsame. apply list_elem_of_here.
  - intros p Hp. apply Hsame. apply list_elem_of_further. assumption.
Qed.

End PassAsSteps.

(** ** The order of the rules *)

Lemma stepOn_other c st o : step_chain st ≠ c → stepOn c st o = o.
Proof. intros Hne. unfold stepOn. rewrite bool_decide_eq_false_2 by assumption. reflexivity. Qed.

Lemma stepOn_new c : stepOn c (SNewChain c) None = Some [].
Proof. unfold stepOn. cbn [step_chain]. rewrite bool_decide_eq_true_2; reflexivity. Qed.

Lemma stepOn_insert c b a l :
  stepOn c (SInsert b c a) (Some l) = Some (if in_chain a l then l else a :: l).
Proof. unfold stepOn. cbn [step_chain]. rewrite bool_decide_eq_true_2; reflexivity. Qed.

Lemma stepOn_append c b a l :
  stepOn c (SAppend b c a) (Some l) = Some (if in_chain a l then l else l ++ [a]).
Proof. unfold stepOn. cbn [step_chain]. rewrite bool_decide_eq_true_2; reflexivity. Qed.

Lemma applyStep_stepOn c st ch ch' :
  applyStep st ch = (None, ch') →
  ch' !! ("filter", c) = stepOn c st (ch !! ("filter", c)).
Proof.
  unfold stepOn.
  destruct st as [c0|b c0 a|b c0 a]; cbn [applyStep step_chain];
    (destruct (decide (c0 = c)) as [->|Hne];
     [rewrite bool_decide_eq_true_2 by reflexivity
     |rewrite bool_decide_eq_false_2 by assumption;
      assert (Hk : ("filter", c0) ≠ ("filter", c)) by congruence]).
  - destruct (ch !! ("filter", c)) as [l|] eqn:Hc; intros [= <-];
      [assumption | apply lookup_insert_eq].
  - destruct (ch !! ("filter", c0)) as [l|] eqn:Hc; intros [= <-];
      [reflexivity | apply lookup_insert_ne; assumption].
  - destruct (ch !! ("filter", c)) as [l|] eqn:Hc.
    + intros [= <-]. destruct (in_chain a l); [assumption | apply lookup_insert_eq].
    + destruct b; intros [= <-]. assumption.
  - destruct (ch !! ("filter", c0)) as [l|] eqn:Hc.
    + intros [= <-]. destruct (in_chain a l); [reflexivity|].
      apply lookup_insert_ne; assumption.
    + destruct b; intros [= <-]. reflexivity.
  - destruct (ch !! ("filter", c)) as [l|] eqn:Hc; [|discriminate].
    intros [= <-]. destruct (in_chain a l); [assumption | apply lookup_insert_eq].
  - destruct (ch !! ("filter", c0)) as [l|] eqn:Hc; [|discriminate].
    intros [= <-]. destruct (in_chain a l); [reflexivity|].
    apply lookup_insert_ne; assumption.
Qed.

Lemma chainAfter_cons c st l o : chainAfter c (st :: l) o = chainAfter c l (stepOn c st o).
Proof. reflexivity. Qed.

Lemma chainAfter_app c l1 l2 o :
  chainAfter c (l1 ++ l2) o = chainAfter c l2 (chainAfter c l1 o).
Proof. unfold chainAfter. apply fold_left_app. Qed.

Lemma applySteps_chainAfter c l ch ch' :
  applySteps l ch = (None, ch') →
  ch' !! ("filter", c) = chainAfter c l (ch !! ("filter", c)).
Proof.
  revert ch. induction l as [|st l IH]; intros ch Happ; cbn [applySteps] in Happ.
  - inversion Happ; subst. reflexivity.
  - destruct (applyStep st ch) as [[e|] ch1] eqn:H1; [discriminate|].
    rewrite chainAfter_cons, <- (applyStep_stepOn c st ch ch1 H1). apply IH. assumption.
Qed.

Lemma chainAfter_other c l o :
  Forall (fun st => step_chain st ≠ c) l → chainAfter c l o = o.
Proof.
  revert o. induction l as [|st l IH]; intros o Hall; [reflexivity|].
  inversion Hall as [|? ? Hst Hl]; subst.
  rewrite chainAfter_cons, stepOn_other by assumption. apply IH. assumption.
Qed.

Lemma chainAfter_inserts c b specs l :
  chainAfter c (map (fun a => SInsert b c a) specs) (Some l) = Some (insertAll specs l).
Proof.
  revert l. induction specs as [|a specs IH]; intros l; [reflexivity|].
  cbn [map]. rewrite chainAfter_cons, stepOn_insert, IH. reflexivity.
Qed.

Lemma insertAll_fresh_rev specs l :
  NoDup specs → (∀ a, a ∈ specs → a ∉ l) → insertAll specs l = rev specs ++ l.
Proof.
  revert l. induction specs as [|a specs IH]; intros l Hnd Hfresh; [reflexivity|].
  apply NoDup_cons in Hnd. destruct Hnd as [Hna Hnd].
  rewrite insertAll_cons.
  rewrite (proj2 (in_chain_false a l)) by (apply Hfresh, list_elem_of_here).
  rewrite IH; [cbn [rev]; rewrite <- app_assoc; reflexivity | assumption |].
  intros x Hx Hxl. apply elem_of_cons in Hxl. destruct Hxl as [->|Hxl]; [contradiction|].
  apply (Hfresh x); [apply list_elem_of_further|]; assumption.
Qed.

Lemma insertAll_present specs l : (∀ a, a ∈ specs → a ∈ l) → insertAll specs l = l.
Proof.
  induction specs as [|a specs IH]; intros Hin; [reflexivity|].
  rewrite insertAll_cons.
  rewrite (proj2 (in_chain_true a l)) by (apply Hin, list_elem_of_here).
  apply IH. intros x Hx. apply Hin. apply list_elem_of_further. assumption.
Qed.

Lemma elem_of_rev {A} (a : A) (l : list A) : a ∈ rev l ↔ a ∈ l.
Proof. rewrite !list_elem_of_In. symmetry. apply in_rev. Qed.

(** The rules of a pod chain differ in shape: the tactics below decide
    whether a rule is in a chain given as a list of such rules and of policy
    jumps, the latter told by their length [Hj]. *)
Ltac unfold_rules H :=
  unfold defaultIngressArgs, defaultEgressArgs, localNodeArgs, statefulArgs,
    logDroppedArgs, rejectArgs, markResetArgs, markAcceptArgs in H.

Ltac absent_in Hj Hin :=
  lazymatch type of Hin with
  | _ ∈ [] => apply elem_of_nil in Hin; contradiction
  | _ ∈ _ :: _ =>
      apply elem_of_cons in Hin; destruct Hin as [Hin|Hin];
      [unfold_rules Hin; discriminate Hin | absent_in Hj Hin]
  | _ ∈ _ ++ _ =>
      apply elem_of_app in Hin; destruct Hin as [Hin|Hin]; absent_in Hj Hin
  | _ ∈ rev _ => apply Hj in Hin; unfold_rules Hin; discriminate Hin
  end.

Ltac absent Hj := let Hin := fresh "Hin" in intros Hin; absent_in Hj Hin.

Ltac present :=
  repeat first [ apply list_elem_of_here | apply list_elem_of_further ].

Lemma chainAfter_nil c o : chainAfter c [] o = o.
Proof. reflexivity. Qed.

(** One existence-checked insertion or append into a chain. *)
Ltac chain_step Hj :=
  first [ rewrite stepOn_insert | rewrite stepOn_append ];
  first [ rewrite (proj2 (in_chain_true _ _)) by present
        | rewrite (proj2 (in_chain_false _ _)) by absent Hj ];
  cbn [app].

Section Layout.
Context `{Names}.

Lemma policySteps_as_inserts pod c version policies :
  policySteps pod c version policies
  = map (fun a => SInsert true c a) (map (policyJumpArgs version) (targeting pod policies)).
Proof. unfold policySteps. rewrite map_map. reflexivity. Qed.

Lemma podSteps_chainAfter policies version pod :
  let c := podFirewallChainName (namespace pod) (name pod) version in
  c ≠ kubeInputChainName → c ≠ kubeForwardChainName → c ≠ kubeOutputChainName →
  NoDup (map (policyJumpArgs version) (targeting pod policies)) →
  chainAfter c (podSteps policies version pod) None
  = Some (podChainLayout policies version pod).
Proof.
  intros c Hi Hf Ho Hnd. unfold podSteps. fold c.
  rewrite chainAfter_cons, stepOn_new.
  rewrite !chainAfter_app.
  rewrite (chainAfter_other c (inboundSteps pod c)), (chainAfter_other c (outboundSteps pod c)).
  2:{ unfold outboundSteps. cbn [map app]. repeat constructor; cbn [step_chain]; congruence. }
  2:{ unfold inboundSteps. repeat constructor; cbn [step_chain]; congruence. }
  unfold ingressSteps, egressSteps, dropSteps, podChainLayout.
  rewrite !chainAfter_app, policySteps_as_inserts, !chainAfter_inserts.
  rewrite existsb_targeting.
  set (jumps := map (policyJumpArgs version) (targeting pod policies)) in *.
  assert (Hj : ∀ a, a ∈ jumps → length a = 6%nat).
  { intros a Ha. apply list_elem_of_fmap in Ha. destruct Ha as (p & -> & _). reflexivity. }
  assert (Hrev : ∀ a, a ∈ rev jumps → length a = 6%nat).
  { intros a Ha. apply Hj. apply elem_of_rev. exact Ha. }
  rewrite (insertAll_fresh_rev jumps []), app_nil_r;
    [|assumption | intros a _; apply not_elem_of_nil].
  destruct (targeting pod policies) as [|p ps] eqn:HT.
  - subst jumps. cbn [map rev negb]. rewrite bool_decide_eq_true_2 by reflexivity.
    cbn [negb map]. rewrite ?chainAfter_cons, ?chainAfter_nil.
    repeat chain_step Hrev. reflexivity.
  - rewrite bool_decide_eq_false_2 by discriminate. cbn [negb].
    rewrite ?chainAfter_cons, ?chainAfter_nil.
    repeat chain_step Hrev.
    rewrite chainAfter_inserts, insertAll_present.
    2:{ intros a Ha. do 2 apply list_elem_of_further. apply elem_of_rev. exact Ha. }
    repeat chain_step Hrev. subst jumps. rewrite <- ?app_assoc. reflexivity.
Qed.

Lemma other_pods_other_chains policies version pods c :
  c ∉ map (fun pod => podFirewallChainName (namespace pod) (name pod) version) pods →
  c ≠ kubeInputChainName → c ≠ kubeForwardChainName → c ≠ kubeOutputChainName →
  Forall (fun st => step_chain st ≠ c) (flat_map (podSteps policies version) pods).
Proof.
  intros Hc Hi Hf Ho. apply Forall_flat_map, Forall_forall. intros pod Hpod.
  eapply Forall_impl; [apply podSteps_chains|]. cbn.
  intros st [Hst | [Hst | [Hst | Hst]]]; rewrite Hst; try congruence.
  intros <-. apply Hc. apply list_elem_of_fmap. eauto.
Qed.

(** X8: the chain a pass creates for a pod has a fixed order.  On a store
    that holds the three top-level chains and whose commands are not made to
    fail, for a pod whose chain does not exist yet (its name being that of
    no other pod iterated over and of no top-level chain) and whose
    targeting policies give pairwise distinct jumps, the pass succeeds and
    leaves in the chain of the pod, top to bottom: with no targeting policy,
    the default egress jump, the stateful and local-node accept rules and
    the default ingress jump; otherwise the two accept rules and then the
    policy jumps, the last policy first; and, at the bottom in both cases,
    the log rule, the reject rule, the mark reset and the accept mark. *)
Theorem syncPodFirewallChains_pod_chain_layout
    (npc : NetworkPolicyController) (networkPoliciesInfo : list networkPolicyInfo)
    (version : string) (order : gmap string podInfo → list podInfo) (s : ipt)
    (pod : podInfo) :
  let c := podFirewallChainName (namespace pod) (name pod) version in
  script s = [] → provisioned (chains s) →
  pod ∈ order (getLocalPods npc (nodeIP npc)).1 →
  NoDup (map (fun pod => podFirewallChainName (namespace pod) (name pod) version)
             (order (getLocalPods npc (nodeIP npc)).1)) →
  chains s !! ("filter", c) = None →
  NoDup (map (policyJumpArgs version) (targeting pod networkPoliciesInfo)) →
  ∃ active s',
    syncPodFirewallChains npc networkPoliciesInfo version order s
    = (Done (Some active, None), s')
    ∧ chains s' !! ("filter", c) = Some (podChainLayout networkPoliciesInfo version pod).
Proof.
  intros c Hs Hprov Hpod Hnames Hfresh Hjumps.
  assert (Htop : c ≠ kubeInputChainName ∧ c ≠ kubeForwardChainName
                 ∧ c ≠ kubeOutputChainName).
  { destruct Hprov as ([li Hli] & [lf Hlf] & [lo Hlo]).
    repeat split; intros Heq; rewrite Heq in Hfresh; congruence. }
  destruct Htop as (Hi & Hf & Ho).
  destruct (syncPodFirewallChains_applies npc networkPoliciesInfo version order s Hs Hprov)
    as (s' & Hrun & Happ & _).
  eexists. exists s'. split; [exact Hrun|].
  rewrite (applySteps_chainAfter c _ _ _ Happ), Hfresh.
  apply list_elem_of_split in Hpod. destruct Hpod as (l1 & l2 & Heq).
  rewrite Heq in Hnames |- *.
  rewrite map_app in Hnames. cbn [map] in Hnames.
  apply NoDup_app in Hnames. destruct Hnames as (_ & Hl1 & Hl2).
  apply NoDup_cons in Hl2. destruct Hl2 as [Hl2 _].
  rewrite flat_map_app. cbn [flat_map]. rewrite !chainAfter_app.
  rewrite (chainAfter_other c (flat_map _ l1)).
  2:{ apply other_pods_other_chains; try assumption.
      intros Hin. apply (Hl1 _ Hin). apply list_elem_of_here. }
  unfold c in *. rewrite podSteps_chainAfter by assumption.
  apply chainAfter_other. apply other_pods_other_chains; assumption.
Qed.

End Layout.

(** ** Where the interception jumps go *)

Section Interception.
Context `{Names}.

Lemma inbound_jumps_differ pod c : inboundBridgedArgs pod c ≠ inboundArgs pod c.
Proof. unfold inboundBridgedArgs, inboundArgs. intros Heq. discriminate Heq. Qed.

Lemma outbound_jumps_differ pod c : outboundBridgedArgs pod c ≠ outboundArgs pod c.
Proof. unfold outboundBridgedArgs, outboundArgs. intros Heq. discriminate Heq. Qed.

(** X9: [interceptPodInboundTraffic] puts its jumps at the top.  On a store
    whose commands are not made to fail and whose forward and output chains
    (two distinct chains) exist and hold none of the jumps yet, the call
    succeeds and leaves the forward chain with the bridged jump first, the
    plain jump second and the former rules below, the output chain with the
    plain jump first, and every other chain as it was. *)
Theorem interceptPodInboundTraffic_layout
    (pod : podInfo) (podFwChainName : string) (s : ipt) (lF lO : list rulespec) :
  script s = [] →
  kubeForwardChainName ≠ kubeOutputChainName →
  chains s !! ("filter", kubeForwardChainName) = Some lF →
  chains s !! ("filter", kubeOutputChainName) = Some lO →
  inboundArgs pod podFwChainName ∉ lF →
  inboundBridgedArgs pod podFwChainName ∉ lF →
  inboundArgs pod podFwChainName ∉ lO →
  ∃ s',
    interceptPodInboundTraffic pod podFwChainName s = (Done None, s')
    ∧ chains s'
      = <[("filter", kubeForwardChainName) :=
            inboundBridgedArgs pod podFwChainName :: inboundArgs pod podFwChainName :: lF]>
          (<[("filter", kubeOutputChainName) := inboundArgs pod podFwChainName :: lO]>
             (chains s)).
Proof.
  intros Hs Hne HF HO HiF HbF HiO.
  assert (Hk : ("filter", kubeForwardChainName) ≠ ("filter", kubeOutputChainName))
    by congruence.
  rewrite interceptPodInboundTraffic_steps.
  destruct (runSteps_ff (inboundSteps pod podFwChainName) s Hs) as (s' & Hrun & Hch & _).
  exists s'. rewrite Hrun, Hch. clear Hrun Hch.
  unfold inboundSteps. cbn [applySteps applyStep].
  rewrite HF, (proj2 (in_chain_false _ _) HiF).
  rewrite lookup_insert_ne, HO, (proj2 (in_chain_false _ _) HiO) by assumption.
  rewrite lookup_insert_ne, lookup_insert_eq by (apply not_eq_sym; assumption).
  rewrite (proj2 (in_chain_false _ (_ :: lF))).
  2:{ apply not_elem_of_cons. split; [apply inbound_jumps_differ | assumption]. }
  cbn [fst snd]. split; [reflexivity|].
  rewrite (insert_insert_ne _ ("filter", kubeOutputChainName)) by (apply not_eq_sym; assumption).
  rewrite insert_insert_eq. reflexivity.
Qed.

(** X10: [interceptPodOutboundTraffic] puts the plain jump at the bottom of
    the input, forward and output chains, and the bridged jump at the top of
    the forward chain.  On a store whose commands are not made to fail and
    whose three top-level chains (pairwise distinct) exist and hold none of
    the jumps yet, the call succeeds and leaves exactly that, every other
    chain being as it was. *)
Theorem interceptPodOutboundTraffic_layout
    (pod : podInfo) (podFwChainName : string) (s : ipt) (lI lF lO : list rulespec) :
  script s = [] →
  kubeInputChainName ≠ kubeForwardChainName →
  kubeInputChainName ≠ kubeOutputChainName →
  kubeForwardChainName ≠ kubeOutputChainName →
  chains s !! ("filter", kubeInputChainName) = Some lI →
  chains s !! ("filter", kubeForwardChainName) = Some lF →
  chains s !! ("filter", kubeOutputChainName) = Some lO →
  outboundArgs pod podFwChainName ∉ lI →
  outboundArgs pod podFwChainName ∉ lF →
  outboundArgs pod podFwChainName ∉ lO →
  outboundBridgedArgs pod podFwChainName ∉ lF →
  ∃ s',
    interceptPodOutboundTraffic pod podFwChainName s = (Done None, s')
    ∧ chains s'
      = <[("filter", kubeForwardChainName) :=
            outboundBridgedArgs pod podFwChainName
            :: lF ++ [outboundArgs pod podFwChainName]]>
          (<[("filter", kubeOutputChainName) := lO ++ [outboundArgs pod podFwChainName]]>
             (<[("filter", kubeInputChainName) := lI ++ [outboundArgs pod podFwChainName]]>
                (chains s))).
Proof.
  intros Hs Hif Hio Hfo HI HF HO HoI HoF HoO HbF.
  assert (Hk1 : ("filter", kubeInputChainName) ≠ ("filter", kubeForwardChainName))
    by congruence.
  assert (Hk2 : ("filter", kubeInputChainName) ≠ ("filter", kubeOutputChainName))
    by congruence.
  assert (Hk3 : ("filter", kubeForwardChainName) ≠ ("filter", kubeOutputChainName))
    by congruence.
  rewrite interceptPodOutboundTraffic_steps.
  destruct (runSteps_ff (outboundSteps pod podFwChainName) s Hs) as (s' & Hrun & Hch & _).
  exists s'. rewrite Hrun, Hch. clear Hrun Hch.
  unfold outboundSteps. cbn [map app applySteps applyStep].
  rewrite HI, (proj2 (in_chain_false _ _) HoI).
  rewrite lookup_insert_ne, HF, (proj2 (in_chain_false _ _) HoF) by assumption.
  rewrite !lookup_insert_ne, HO, (proj2 (in_chain_false _ _) HoO) by assumption.
  rewrite lookup_insert_ne, lookup_insert_eq by (apply not_eq_sym; assumption).
  rewrite (proj2 (in_chain_false _ (lF ++ _))).
  2:{ apply not_elem_of_app. split; [assumption|].
      apply not_elem_of_cons. split; [apply outbound_jumps_differ | apply not_elem_of_nil]. }
  cbn [fst snd]. split; [reflexivity|].
  rewrite (insert_insert_ne _ ("filter", kubeOutputChainName)) by (apply not_eq_sym; assumption).
  rewrite insert_insert_eq. reflexivity.
Qed.

End Interception.

(** ** Calling a function of the pass again *)

Lemma runSteps_again l s :
  script s = [] →
  Forall (fun st => is_Some (chains s !! ("filter", step_chain st))
                    ∧ is_Some (step_rule st)) l →
  ∃ s1 s2 new,
    runSteps l s = (Done None, s1)
    ∧ runSteps l s1 = (Done None, s2)
    ∧ chains s2 = chains s1
    ∧ calls s2 = calls s1 ++ new ∧ Forall (fun k => is_check k = true) new.
Proof.
  intros Hs Hall.
  destruct (runSteps_ff l s Hs) as (s1 & Hrun & Hch & Hs1).
  assert (Hok : (applySteps l (chains s)).1 = None).
  { apply applySteps_ok. eapply Forall_impl; [exact Hall|]. cbn. tauto. }
  destruct (applySteps l (chains s)) as [[e|] ch1] eqn:Happ; cbn [fst snd] in *;
    [discriminate|]. subst ch1.
  assert (Hset : Forall (settled (chains s1)) l).
  { eapply applySteps_settles; [|exact Happ].
    eapply Forall_impl; [exact Hall|]. cbn. tauto. }
  destruct (runSteps_settled l s1 Hs1 Hset) as (s2 & Hrun2 & Hch2 & _ & new & Hcalls & Hnew).
  { eapply Forall_impl; [exact Hall|]. cbn. tauto. }
  exists s1, s2, new. repeat split; assumption.
Qed.

Section Again.
Context `{Names}.

(** X11: the two interception functions are idempotent.  On a store that
    holds the three top-level chains and whose commands are not made to
    fail, a call of [interceptPodInboundTraffic] succeeds and a second call
    succeeds, issues existence checks only and leaves every chain as the
    first call left it; the same holds for [interceptPodOutboundTraffic]. *)
Theorem interception_idempotent (pod : podInfo) (podFwChainName : string) (s : ipt) :
  script s = [] → provisioned (chains s) →
  (∃ s1 s2 new,
     interceptPodInboundTraffic pod podFwChainName s = (Done None, s1)
     ∧ interceptPodInboundTraffic pod podFwChainName s1 = (Done None, s2)
     ∧ chains s2 = chains s1
     ∧ calls s2 = calls s1 ++ new ∧ Forall (fun k => is_check k = true) new)
  ∧ (∃ s1 s2 new,
       interceptPodOutboundTraffic pod podFwChainName s = (Done None, s1)
       ∧ interceptPodOutboundTraffic pod podFwChainName s1 = (Done None, s2)
       ∧ chains s2 = chains s1
       ∧ calls s2 = calls s1 ++ new ∧ Forall (fun k => is_check k = true) new).
Proof.
  intros Hs (Hi & Hf & Ho). split.
  - destruct (runSteps_again (inboundSteps pod podFwChainName) s Hs)
      as (s1 & s2 & new & H1 & H2 & Hrest).
    { unfold inboundSteps. repeat constructor; cbn [step_chain step_rule]; eauto. }
    exists s1, s2, new. rewrite !interceptPodInboundTraffic_steps. auto.
  - destruct (runSteps_again (outboundSteps pod podFwChainName) s Hs)
      as (s1 & s2 & new & H1 & H2 & Hrest).
    { unfold outboundSteps. cbn [map app].
      repeat constructor; cbn [step_chain step_rule]; eauto. }
    exists s1, s2, new. rewrite !interceptPodOutboundTraffic_steps. auto.
Qed.

(** X12: the two rule-setup functions are idempotent on an existing chain.
    On a store whose commands are not made to fail and that holds the chain
    of the pod, a call of [setupPodIngressRules] succeeds and a second call
    succeeds, issues existence checks only and leaves every chain as the
    first call left it; the same holds for [setupPodEgressRules]. *)
Theorem rule_setup_idempotent
    (pod : podInfo) (podFwChainName : string) (networkPoliciesInfo : list networkPolicyInfo)
    (version : string) (s : ipt) :
  script s = [] → is_Some (chains s !! ("filter", podFwChainName)) →
  (∃ s1 s2 new,
     setupPodIngressRules pod podFwChainName networkPoliciesInfo version s = (Done None, s1)
     ∧ setupPodIngressRules pod podFwChainName networkPoliciesInfo version s1
       = (Done None, s2)
     ∧ chains s2 = chains s1
     ∧ calls s2 = calls s1 ++ new ∧ Forall (fun k => is_check k = true) new)
  ∧ (∃ s1 s2 new,
       setupPodEgressRules pod podFwChainName networkPoliciesInfo version s = (Done None, s1)
       ∧ setupPodEgressRules pod podFwChainName networkPoliciesInfo version s1
         = (Done None, s2)
       ∧ chains s2 = chains s1
       ∧ calls s2 = calls s1 ++ new ∧ Forall (fun k => is_check k = true) new).
Proof.
  intros Hs Hc.
  assert (Hpol : Forall (fun st => is_Some (chains s !! ("filter", step_chain st))
                                   ∧ is_Some (step_rule st))
                        (policySteps pod podFwChainName version networkPoliciesInfo)).
  { unfold policySteps. apply Forall_forall. intros st Hst.
    apply list_elem_of_fmap in Hst. destruct Hst as (p & -> & _).
    cbn [step_chain step_rule]. eauto. }
  split.
  - destruct (runSteps_again
                (ingressSteps pod podFwChainName networkPoliciesInfo version) s Hs)
      as (s1 & s2 & new & H1 & H2 & Hrest).
    { unfold ingressSteps. rewrite !Forall_app. split; [exact Hpol|]. split.
      - destruct (existsb _ _); repeat constructor; cbn [step_chain step_rule]; eauto.
      - repeat constructor; cbn [step_chain step_rule]; eauto. }
    exists s1, s2, new. rewrite !setupPodIngressRules_steps. auto.
  - destruct (runSteps_again
                (egressSteps pod podFwChainName networkPoliciesInfo version) s Hs)
      as (s1 & s2 & new & H1 & H2 & Hrest).
    { unfold egressSteps. rewrite !Forall_app. split; [exact Hpol|]. split.
      - destruct (existsb _ _); repeat constructor; cbn [step_chain step_rule]; eauto.
      - repeat constructor; cbn [step_chain step_rule]; eauto. }
    exists s1, s2, new. rewrite !setupPodEgressRules_steps. auto.
Qed.

End Again.

(** ** A chain that is not there *)

Lemma applySteps_no_chain c l ch :
  ch !! ("filter", c) = None →
  Forall (fun st => step_chain st = c ∧ is_Some (step_rule st)) l →
  applySteps l ch
  = (if forallb lenient l then None else Some (failedToRun noChain), ch).
Proof.
  intros Hc. induction 1 as [|st l [Hst [a Ha]] _ IH]; [reflexivity|].
  cbn [applySteps forallb].
  destruct st as [c0|b c0 a0|b c0 a0]; cbn [step_chain step_rule lenient applyStep] in *;
    try discriminate; subst c0; rewrite Hc.
  - destruct b; cbn [andb]; [exact IH | reflexivity].
  - reflexivity.
Qed.

Section NoChain.
Context `{Names}.

(** X13: letting exit status 1 through does not hide a missing chain.  On a
    store whose commands are not made to fail and that does not hold the
    chain they are given, [setupPodIngressRules], [setupPodEgressRules] and
    [dropUnmarkedTrafficRules] each return the wrapped error of the
    executor (no chain by that name) and leave every chain as it was: the
    insertions of the policy and default jumps fail silently, and the first
    insertion or append whose error is not inspected stops the function. *)
Theorem missing_chain_is_reported
    (pod : podInfo) (podFwChainName : string) (networkPoliciesInfo : list networkPolicyInfo)
    (version : string) (s : ipt) :
  script s = [] → chains s !! ("filter", podFwChainName) = None →
  (∃ s', setupPodIngressRules pod podFwChainName networkPoliciesInfo version s
         = (Done (Some (failedToRun noChain)), s') ∧ chains s' = chains s)
  ∧ (∃ s', setupPodEgressRules pod podFwChainName networkPoliciesInfo version s
           = (Done (Some (failedToRun noChain)), s') ∧ chains s' = chains s)
  ∧ (∃ s', dropUnmarkedTrafficRules (name pod) (namespace pod) podFwChainName s
           = (Done (Some (failedToRun noChain)), s') ∧ chains s' = chains s).
Proof.
  intros Hs Hc.
  assert (Hpol : Forall (fun st => step_chain st = podFwChainName ∧ is_Some (step_rule st))
                        (policySteps pod podFwChainName version networkPoliciesInfo)).
  { unfold policySteps. apply Forall_forall. intros st Hst.
    apply list_elem_of_fmap in Hst. destruct Hst as (p & -> & _).
    cbn [step_chain step_rule]. eauto. }
  split; [|split].
  - rewrite setupPodIngressRules_steps.
    destruct (runSteps_ff (ingressSteps pod podFwChainName networkPoliciesInfo version) s Hs)
      as (s' & Hrun & Hch & _).
    assert (Hall : Forall (fun st => step_chain st = podFwChainName ∧ is_Some (step_rule st))
                          (ingressSteps pod podFwChainName networkPoliciesInfo version)).
    { unfold ingressSteps. rewrite !Forall_app. split; [exact Hpol|]. split.
      - destruct (existsb _ _); repeat constructor; cbn [step_chain step_rule]; eauto.
      - repeat constructor; cbn [step_chain step_rule]; eauto. }
    rewrite (applySteps_no_chain podFwChainName) in Hrun, Hch by assumption.
    exists s'. rewrite Hrun. unfold ingressSteps. rewrite !forallb_app. cbn [forallb lenient].
    rewrite !andb_false_r. cbn [fst snd] in *. split; [reflexivity | assumption].
  - rewrite setupPodEgressRules_steps.
    destruct (runSteps_ff (egressSteps pod podFwChainName networkPoliciesInfo version) s Hs)
      as (s' & Hrun & Hch & _).
    assert (Hall : Forall (fun st => step_chain st = podFwChainName ∧ is_Some (step_rule st))
                          (egressSteps pod podFwChainName networkPoliciesInfo version)).
    { unfold egressSteps. rewrite !Forall_app. split; [exact Hpol|]. split.
      - destruct (existsb _ _); repeat constructor; cbn [step_chain step_rule]; eauto.
      - repeat constructor; cbn [step_chain step_rule]; eauto. }
    rewrite (applySteps_no_chain podFwChainName) in Hrun, Hch by assumption.
    exists s'. rewrite Hrun. unfold egressSteps. rewrite !forallb_app. cbn [forallb lenient].
    rewrite !andb_false_r. cbn [fst snd] in *. split; [reflexivity | assumption].
  - rewrite dropUnmarkedTrafficRules_steps.
    destruct (runSteps_ff (dropSteps (name pod) (namespace pod) podFwChainName) s Hs)
      as (s' & Hrun & Hch & _).
    assert (Hall : Forall (fun st => step_chain st = podFwChainName ∧ is_Some (step_rule st))
                          (dropSteps (name pod) (namespace pod) podFwChainName)).
    { unfold dropSteps. repeat constructor; cbn [step_chain step_rule]; eauto. }
    rewrite (applySteps_no_chain podFwChainName) in Hrun, Hch by assumption.
    exists s'. rewrite Hrun. cbn [fst snd] in *. split; [reflexivity | assumption].
Qed.

End NoChain.

(** ** Objects that are not pods *)

(** X14: the delete handler checks both of its type assertions, and panics
    on a nil pod pointer only.  Given a nil pod pointer, or a tombstone that
    holds one, [DeleteFunc] panics where the log line reads the namespace
    of the pod, before any resync is requested; given anything else it does
    not panic: it requests one resync when the object is a pod or a
    tombstone that holds a pod, and otherwise logs an error and does
    nothing else. *)
Theorem DeleteFunc_panics_on_nil_pod_only (obj : object) :
  (DeleteFunc obj = [Panic] ↔ holdsNilPod obj)
  ∧ (¬ holdsNilPod obj → Forall (fun e => is_Panic e = false) (DeleteFunc obj))
  ∧ resyncRequests (DeleteFunc obj)
    = match recoverPod obj with Some _ => 1%nat | None => 0%nat end
  ∧ (recoverPod obj = None → ¬ holdsNilPod obj → ∃ msg, DeleteFunc obj = [GlogError msg]).
Proof.
  unfold DeleteFunc, OnPodDelete, holdsNilPod.
  destruct obj as [pod| |[pod| |inner|]|]; cbn [recoverPod];
    (split;
     [split; [intros Hp; try discriminate Hp; auto
             |intros [Hc|Hc]; try discriminate Hc; reflexivity]|]);
    (split; [intros Hn; try (exfalso; apply Hn; auto; fail); repeat constructor|]);
    (split; [reflexivity|]);
    intros Hr Hn; try discriminate Hr; try (exfalso; apply Hn; auto; fail); eauto.
Qed.

(** X15: the add and update handlers assert the type of what they are
    given without checking.  An object that is not a pod, a tombstone
    included, makes [AddFunc] panic, and makes [UpdateFunc] panic whether it
    comes as the old or as the new object, before any resync is
    requested. *)
Theorem AddFunc_UpdateFunc_panic_unless_pod (obj : object) :
  (∀ pod, obj ≠ PodObject pod) →
  AddFunc obj = [Panic]
  ∧ ∀ other, UpdateFunc other obj = [Panic] ∧ UpdateFunc obj other = [Panic].
Proof.
  intros Hnp.
  destruct obj as [pod| |inner|]; [exfalso; apply (Hnp pod); reflexivity | | |];
    (split; [reflexivity|]); intros other; (split; [reflexivity|]);
    destruct other; reflexivity.
Qed.

(** ** The characters of a chain name *)

Lemma enc_alphabet (v : Z) : Base32.enc v ∈ list_ascii_of_string Base32.encodeStd.
Proof.
  unfold Base32.enc.
  assert (Hlt : (Z.to_nat (Z.land v 31) < 32)%nat).
  { change 31%Z with (Z.ones 5). rewrite Z.land_ones by lia.
    pose proof (Z.mod_pos_bound v (2 ^ 5) ltac:(lia)). lia. }
  revert Hlt. generalize (Z.to_nat (Z.land v 31)). intros n Hn.
  do 32 (destruct n as [|n];
         [cbn; repeat first [apply list_elem_of_here | apply list_elem_of_further]|]).
  lia.
Qed.

Lemma encoded_prefix_alphabet (d : list Z) :
  length d = 32%nat →
  Forall (fun ch => ch ∈ list_ascii_of_string Base32.encodeStd)
         (list_ascii_of_string (substring 0 16 (Base32.EncodeToString d))).
Proof.
  intros Hd.
  do 32 (destruct d as [|? d]; [discriminate Hd|]).
  cbn [Base32.EncodeToString Base32.chars fold_right substring list_ascii_of_string].
  repeat (apply Forall_cons; split; [apply enc_alphabet|]). apply Forall_nil_2.
Qed.

Section ChainAlphabet.
Context `{Names}.

(** X16: after the prefix, a pod chain name is made of sixteen characters
    of the base32 alphabet (upper-case letters and the digits 2 to 7): the
    padding character of the encoding never gets into a name. *)
Theorem podFirewallChainName_alphabet (ns podName version : string) :
  ∃ suffix,
    podFirewallChainName ns podName version = kubePodFirewallChainPrefix +:+ suffix
    ∧ String.length suffix = 16%nat
    ∧ Forall (fun ch => ch ∈ list_ascii_of_string "ABCDEFGHIJKLMNOPQRSTUVWXYZ234567")
             (list_ascii_of_string suffix).
Proof.
  eexists. split; [reflexivity|]. split.
  - apply encoded_prefix_length, Sum256_length.
  - apply encoded_prefix_alphabet, Sum256_length.
Qed.

End ChainAlphabet.

(** ** The order in which the pods are visited *)

Lemma applyStep_only_planned st ch k l' r :
  (applyStep st ch).2 !! k = Some l' → r ∈ l' →
  (∃ l0, ch !! k = Some l0 ∧ r ∈ l0)
  ∨ (k = ("filter", step_chain st) ∧ step_rule st = Some r).
Proof.
  destruct st as [c|b c a|b c a]; cbn [applyStep step_chain step_rule];
    destruct (ch !! ("filter", c)) as [l|] eqn:Hc; cbn [snd]; eauto.
  - destruct (decide (("filter", c) = k)) as [<-|Hne].
    + rewrite lookup_insert_eq. intros [= <-] Hr. apply elem_of_nil in Hr. contradiction.
    + rewrite lookup_insert_ne by assumption. eauto.
  - destruct (in_chain a l); [eauto|].
    destruct (decide (("filter", c) = k)) as [<-|Hne].
    + rewrite lookup_insert_eq. intros [= <-] Hr.
      apply elem_of_cons in Hr. destruct Hr as [->|Hr]; eauto.
    + rewrite lookup_insert_ne by assumption. eauto.
  - destruct (in_chain a l); [eauto|].
    destruct (decide (("filter", c) = k)) as [<-|Hne].
    + rewrite lookup_insert_eq. intros [= <-] Hr.
      apply elem_of_app in Hr. destruct Hr as [Hr|Hr]; [eauto|].
      apply elem_of_cons in Hr. destruct Hr as [->|Hr]; [eauto|].
      apply elem_of_nil in Hr. contradiction.
    + rewrite lookup_insert_ne by assumption. eauto.
Qed.

Lemma applyStep_only_planned_chains st ch k :
  is_Some ((applyStep st ch).2 !! k) →
  is_Some (ch !! k) ∨ k = ("filter", step_chain st).
Proof.
  destruct st as [c|b c a|b c a]; cbn [applyStep step_chain];
    destruct (ch !! ("filter", c)) as [l|] eqn:Hc; cbn [snd]; eauto;
    try (destruct (in_chain a l); [eauto|]);
    (destruct (decide (("filter", c) = k)) as [<-|Hne];
     [eauto | rewrite lookup_insert_ne by assumption; eauto]).
Qed.

Lemma applySteps_only_planned l ch k l' r :
  (applySteps l ch).2 !! k = Some l' → r ∈ l' →
  (∃ l0, ch !! k = Some l0 ∧ r ∈ l0)
  ∨ (∃ st, st ∈ l ∧ k = ("filter", step_chain st) ∧ step_rule st = Some r).
Proof.
  revert ch. induction l as [|st l IH]; intros ch; cbn [applySteps]; [eauto|].
  destruct (applyStep st ch) as [[e|] ch1] eqn:H1; cbn [snd]; intros Hk Hr.
  - pose proof (applyStep_only_planned st ch k l' r) as Hone. rewrite H1 in Hone.
    destruct (Hone Hk Hr) as [?|[? ?]]; [eauto|].
    right. exists st. split; [apply list_elem_of_here | auto].
  - destruct (IH ch1 Hk Hr) as [(l0 & Hk0 & Hr0)|(st' & Hst' & Hrest)].
    + pose proof (applyStep_only_planned st ch k l0 r) as Hone. rewrite H1 in Hone.
      destruct (Hone Hk0 Hr0) as [?|[? ?]]; [eauto|].
      right. exists st. split; [apply list_elem_of_here | auto].
    + right. exists st'. split; [apply list_elem_of_further; assumption | assumption].
Qed.

Lemma applySteps_only_planned_chains l ch k :
  is_Some ((applySteps l ch).2 !! k) →
  is_Some (ch !! k) ∨ ∃ st, st ∈ l ∧ k = ("filter", step_chain st).
Proof.
  revert ch. induction l as [|st l IH]; intros ch; cbn [applySteps]; [eauto|].
  destruct (applyStep st ch) as [[e|] ch1] eqn:H1; cbn [snd]; intros Hk.
  - pose proof (applyStep_only_planned_chains st ch k) as Hone. rewrite H1 in Hone.
    destruct (Hone Hk) as [?|?]; [eauto|].
    right. exists st. split; [apply list_elem_of_here | assumption].
  - destruct (IH ch1 Hk) as [Hk0|(st' & Hst' & Hrest)].
    + pose proof (applyStep_only_planned_chains st ch k) as Hone. rewrite H1 in Hone.
      destruct (Hone Hk0) as [?|?]; [eauto|].
      right. exists st. split; [apply list_elem_of_here | assumption].
    + right. exists st'. split; [apply list_elem_of_further; assumption | assumption].
Qed.

(** A plan that ran covers what any plan with fewer steps leaves. *)
Lemma applySteps_covers l1 l2 ch ch1 ch2 :
  applySteps l1 ch = (None, ch1) → applySteps l2 ch = (None, ch2) →
  Forall (settled ch2) l2 → (∀ st, st ∈ l1 → st ∈ l2) →
  extends ch1 ch2.
Proof.
  intros H1 H2 Hset Hsub k l Hk. rewrite Forall_forall in Hset.
  pose proof (applySteps_extends l2 ch) as Hext. rewrite H2 in Hext. cbn [snd] in Hext.
  assert (Hsome : is_Some (ch2 !! k)).
  { pose proof (applySteps_only_planned_chains l1 ch k) as Hc.
    rewrite H1 in Hc. cbn [snd] in Hc.
    destruct (Hc (ex_intro _ l Hk)) as [[l0 Hl0]|(st & Hst & ->)].
    - destruct (Hext _ _ Hl0) as (l' & Hl' & _). eauto.
    - specialize (Hset st (Hsub st Hst)). unfold settled in Hset.
      destruct (ch2 !! ("filter", step_chain st)); [eauto | contradiction]. }
  destruct Hsome as [l2' Hl2]. exists l2'. split; [assumption|].
  intros r Hr.
  pose proof (applySteps_only_planned l1 ch k l r) as Hp.
  rewrite H1 in Hp. cbn [snd] in Hp.
  destruct (Hp Hk Hr) as [(l0 & Hl0 & Hr0)|(st & Hst & -> & Hrule)].
  - destruct (Hext _ _ Hl0) as (l' & Hl' & Hsubl). rewrite Hl2 in Hl'.
    inversion Hl'; subst l'. apply Hsubl. assumption.
  - specialize (Hset st (Hsub st Hst)). unfold settled in Hset.
    rewrite Hl2, Hrule in Hset. assumption.
Qed.

Lemma extends_sameRules ch ch' :
  extends ch ch' → extends ch' ch → duplicate_free ch → duplicate_free ch' →
  sameRules ch ch'.
Proof.
  intros H12 H21 Hd1 Hd2 k.
  destruct (ch !! k) as [l|] eqn:Hk; destruct (ch' !! k) as [l'|] eqn:Hk'.
  - destruct (H12 _ _ Hk) as (l1 & Hl1 & Hsub1). rewrite Hk' in Hl1. inversion Hl1; subst l1.
    destruct (H21 _ _ Hk') as (l2 & Hl2 & Hsub2). rewrite Hk in Hl2. inversion Hl2; subst l2.
    apply NoDup_Permutation; [eapply Hd1; eassumption | eapply Hd2; eassumption |].
    intros r. split; [apply Hsub1 | apply Hsub2].
  - destruct (H12 _ _ Hk) as (l1 & Hl1 & _). rewrite Hk' in Hl1. discriminate Hl1.
  - destruct (H21 _ _ Hk') as (l2 & Hl2 & _). rewrite Hk in Hl2. discriminate Hl2.
  - exact I.
Qed.

Section VisitOrder.
Context `{Names}.

Lemma plan_Permutation policies version pods pods' st :
  pods ≡ₚ pods' →
  st ∈ flat_map (podSteps policies version) pods →
  st ∈ flat_map (podSteps policies version) pods'.
Proof.
  intros Hp. rewrite !list_elem_of_In, !in_flat_map.
  intros (pod & Hpod & Hst). exists pod. split; [|assumption].
  eapply Permutation_in; eassumption.
Qed.

(** X17: the order in which the runtime iterates over the map of local
    pods does not change what a pass achieves.  On a store that holds the
    three top-level chains, holds no rule twice and whose commands are not
    made to fail, passes under two iteration orders both succeed, return
    the same active set and leave the same chains, each with the same
    rules; only the order of the rules within a chain may differ. *)
Theorem syncPodFirewallChains_order_independent
    (npc : NetworkPolicyController) (networkPoliciesInfo : list networkPolicyInfo)
    (version : string) (order1 order2 : gmap string podInfo → list podInfo) (s : ipt) :
  script s = [] → provisioned (chains s) → duplicate_free (chains s) →
  (∀ m, order1 m ≡ₚ (map_to_list m).*2) →
  (∀ m, order2 m ≡ₚ (map_to_list m).*2) →
  ∃ active s1 s2,
    syncPodFirewallChains npc networkPoliciesInfo version order1 s
    = (Done (Some active, None), s1)
    ∧ syncPodFirewallChains npc networkPoliciesInfo version order2 s
      = (Done (Some active, None), s2)
    ∧ sameRules (chains s1) (chains s2).
Proof.
  intros Hs Hprov Hdf Ho1 Ho2.
  destruct (syncPodFirewallChains_applies npc networkPoliciesInfo version order1 s Hs Hprov)
    as (s1 & Hrun1 & Happ1 & _).
  destruct (syncPodFirewallChains_applies npc networkPoliciesInfo version order2 s Hs Hprov)
    as (s2 & Hrun2 & Happ2 & _).
  set (m := (getLocalPods npc (nodeIP npc)).1) in *.
  assert (Hp : order1 m ≡ₚ order2 m) by (rewrite (Ho1 m), (Ho2 m); reflexivity).
  eexists. exists s1, s2. split; [exact Hrun1|]. split.
  - rewrite (recordChains_Permutation version _ _ ∅ Hp). exact Hrun2.
  - pose proof (pods_settle _ _ _ _ _ Happ1) as Hset1.
    pose proof (pods_settle _ _ _ _ _ Happ2) as Hset2.
    apply extends_sameRules.
    + eapply applySteps_covers; [exact Happ1 | exact Happ2 | exact Hset2 |].
      intros st. apply plan_Permutation. assumption.
    + eapply applySteps_covers; [exact Happ2 | exact Happ1 | exact Hset1 |].
      intros st. apply plan_Permutation. symmetry. assumption.
    + pose proof (applySteps_duplicate_free
                    (flat_map (podSteps networkPoliciesInfo version) (order1 m))
                    (chains s) Hdf) as Hd.
      rewrite Happ1 in Hd. exact Hd.
    + pose proof (applySteps_duplicate_free
                    (flat_map (podSteps networkPoliciesInfo version) (order2 m))
                    (chains s) Hdf) as Hd.
      rewrite Happ2 in Hd. exact Hd.
Qed.

End VisitOrder.

(** ** What [getLocalPods] does not look at *)

(** X18: [getLocalPods] does not look at the phase of a pod.  Two caches
    that list pods with the same names, namespaces, labels, host addresses
    and assigned addresses, in the same order, give the same mapping,
    whatever the phases: a pod that has completed or failed and still
    carries an address is kept like a running one. *)
Theorem getLocalPods_ignores_phase (npc npc' : NetworkPolicyController) (nodeIP : string) :
  Forall2 (fun p q => ObjectMeta_Name p = ObjectMeta_Name q
                      ∧ ObjectMeta_Namespace p = ObjectMeta_Namespace q
                      ∧ ObjectMeta_Labels p = ObjectMeta_Labels q
                      ∧ Status_HostIP p = Status_HostIP q
                      ∧ Status_PodIP p = Status_PodIP q)
          (podLister npc) (podLister npc') →
  getLocalPods npc nodeIP = getLocalPods npc' nodeIP.
Proof.
  intros Hall. unfold getLocalPods. f_equal.
  generalize (∅ : gmap string podInfo).
  induction Hall as [|p q ps qs (Hn & Hns & Hl & Hh & Hi) _ IH]; intros m; [reflexivity|].
  rewrite !getLocalPods_range_cons.
  unfold isLocal, snapshot. rewrite Hn, Hns, Hl, Hh, Hi. apply IH.
Qed.

(** ** The top-level chains are needed *)

Lemma applyStep_creates st ch k :
  is_Some ((applyStep st ch).2 !! k) →
  is_Some (ch !! k) ∨ (∃ c, st = SNewChain c ∧ k = ("filter", c)).
Proof.
  destruct st as [c|b c a|b c a]; cbn [applyStep];
    destruct (ch !! ("filter", c)) as [l|] eqn:Hc; cbn [snd]; eauto.
  - destruct (decide (("filter", c) = k)) as [<-|Hne];
      [eauto | rewrite lookup_insert_ne by assumption; eauto].
  - destruct (in_chain a l); [eauto|].
    destruct (decide (("filter", c) = k)) as [<-|Hne];
      [eauto | rewrite lookup_insert_ne by assumption; eauto].
  - destruct (in_chain a l); [eauto|].
    destruct (decide (("filter", c) = k)) as [<-|Hne];
      [eauto | rewrite lookup_insert_ne by assumption; eauto].
Qed.

Lemma applySteps_creates l ch k :
  is_Some ((applySteps l ch).2 !! k) →
  is_Some (ch !! k) ∨ (∃ c, SNewChain c ∈ l ∧ k = ("filter", c)).
Proof.
  revert ch. induction l as [|st l IH]; intros ch; cbn [applySteps]; [eauto|].
  pose proof (applyStep_creates st ch k) as Hone.
  destruct (applyStep st ch) as [[e|] ch1] eqn:H1; cbn [snd] in *; intros Hk.
  - destruct (Hone Hk) as [?|(c & -> & ->)]; [eauto|].
    right. exists c. split; [apply list_elem_of_here | reflexivity].
  - destruct (IH ch1 Hk) as [Hk0|(c & Hc & ->)].
    + destruct (Hone Hk0) as [?|(c & -> & ->)]; [eauto|].
      right. exists c. split; [apply list_elem_of_here | reflexivity].
    + right. exists c. split; [apply list_elem_of_further; assumption | reflexivity].
Qed.

Lemma applyStep_error st ch e : (applyStep st ch).1 = Some e → e = failedToRun noChain.
Proof.
  destruct st as [c|b c a|b c a]; cbn [applyStep];
    destruct (ch !! ("filter", c)) as [l|]; cbn [fst]; try discriminate.
  - destruct b; [discriminate|]. intros [= <-]. reflexivity.
  - intros [= <-]. reflexivity.
Qed.

Lemma applySteps_error l ch e : (applySteps l ch).1 = Some e → e = failedToRun noChain.
Proof.
  revert ch. induction l as [|st l IH]; intros ch; cbn [applySteps]; [discriminate|].
  pose proof (applyStep_error st ch) as Hone.
  destruct (applyStep st ch) as [[e1|] ch1]; cbn [fst] in *.
  - intros [= <-]. apply Hone. reflexivity.
  - apply IH.
Qed.

Section TopLevel.
Context `{Names}.

Lemma podSteps_new_chains policies version pod c :
  SNewChain c ∈ podSteps policies version pod →
  c = podFirewallChainName (namespace pod) (name pod) version.
Proof.
  intros Hin. apply podSteps_elem_of in Hin. cbn zeta in Hin.
  destruct Hin as [[= ->] | Hin]; [reflexivity|]. exfalso.
  unfold ingressSteps, egressSteps, policySteps, inboundSteps, outboundSteps, dropSteps in Hin.
  cbn [map] in Hin.
  rewrite ?elem_of_app, ?elem_of_cons, ?list_elem_of_fmap in Hin.
  repeat match goal with
         | H : _ ∨ _ |- _ => destruct H as [H|H]
         | H : ∃ _, _ ∧ _ |- _ => destruct H as (? & H & _)
         | H : SNewChain _ = _ |- _ => discriminate H
         | H : _ ∈ (if ?b then _ else _) |- _ => destruct b
         | H : _ ∈ [] |- _ => apply elem_of_nil in H; contradiction
         | H : _ ∈ _ :: _ |- _ => apply elem_of_cons in H
         end.
Qed.

(** X19: the pass relies on the three top-level chains and creates none of
    them.  On a store whose commands are not made to fail, when there is a
    pod to iterate over and one of the input, forward and output chains is
    missing (its name being that of no pod chain), the pass returns no
    active set and the wrapped error of the executor, no chain by that
    name. *)
Theorem syncPodFirewallChains_needs_top_level_chains
    (npc : NetworkPolicyController) (networkPoliciesInfo : list networkPolicyInfo)
    (version : string) (order : gmap string podInfo → list podInfo) (s : ipt)
    (top : string) :
  script s = [] →
  order (getLocalPods npc (nodeIP npc)).1 ≠ [] →
  top ∈ [kubeInputChainName; kubeForwardChainName; kubeOutputChainName] →
  chains s !! ("filter", top) = None →
  top ∉ map (fun pod => podFirewallChainName (namespace pod) (name pod) version)
            (order (getLocalPods npc (nodeIP npc)).1) →
  ∃ s',
    syncPodFirewallChains npc networkPoliciesInfo version order s
    = (Done (None, Some (failedToRun noChain)), s').
Proof.
  intros Hs Hpods Htop Hmissing Hfree.
  unfold syncPodFirewallChains, getLocalPods in *. cbn [fst] in *.
  set (pods := order (getLocalPods_range (nodeIP npc) (podLister npc) ∅)) in *.
  rewrite bind_eq, New_ff by assumption.
  rewrite syncPodFirewallChains_range_steps.
  set (plan := flat_map (podSteps networkPoliciesInfo version) pods).
  destruct (runSteps_ff plan (Ipt (chains s) [] (calls s ++ [(CmdNew, None)])) eq_refl)
    as (s' & Hrun & Hch & _).
  cbn [chains] in *. rewrite Hrun.
  destruct (applySteps plan (chains s)) as [[e|] ch'] eqn:Happ; cbn [fst snd] in *.
  - pose proof (applySteps_error plan (chains s) e) as He. rewrite Happ in He.
    rewrite (He eq_refl). eauto.
  - exfalso. subst ch'.
    pose proof (pods_settle _ _ _ _ _ Happ) as Hall.
    apply Forall_flat_map in Hall. rewrite Forall_forall in Hall.
    destruct pods as [|pod rest] eqn:Hp; [contradiction|].
    specialize (Hall pod (list_elem_of_here _ _)).
    destruct (settled_podInPlace _ _ _ _ Hall)
      as (_ & _ & _ & _ & _ & _ & _ & _ & _ & HiF & HiO & _ & HoI & _).
    assert (Hsome : is_Some (chains s' !! ("filter", top))).
    { unfold chainRules in *.
      repeat (apply elem_of_cons in Htop; destruct Htop as [->|Htop]);
        [ destruct (chains s' !! ("filter", kubeInputChainName)); [eauto|]
        | destruct (chains s' !! ("filter", kubeForwardChainName)); [eauto|]
        | destruct (chains s' !! ("filter", kubeOutputChainName)); [eauto|]
        | apply elem_of_nil in Htop; contradiction ];
        cbn in *;
        match goal with Hx : _ ∈ [] |- _ => apply elem_of_nil in Hx; contradiction end. }
    pose proof (applySteps_creates plan (chains s) ("filter", top)) as Hc.
    rewrite Happ in Hc. cbn [snd] in Hc.
    destruct (Hc Hsome) as [[l Hl]|(c & Hin & Heq)]; [congruence|].
    inversion Heq; subst c. apply Hfree.
    unfold plan in Hin. apply list_elem_of_In, in_flat_map in Hin.
    destruct Hin as (p & Hp' & Hin). apply list_elem_of_In in Hp', Hin.
    apply podSteps_new_chains in Hin.
    apply list_elem_of_fmap. exists p. split; assumption.
Qed.

End TopLevel.

(** ** What letting exit status 1 through costs *)

Lemma logs_ret {A} (a : A) : logs (ret a).
Proof. intros s. exists []. cbn. rewrite app_nil_r. reflexivity. Qed.

Lemma logs_abort {A} c : logs (@abort A c).
Proof. intros s. exists []. cbn. rewrite app_nil_r. reflexivity. Qed.

Lemma logs_bind {A B} (m : M A) (k : A → M B) :
  logs m → (∀ a, logs (k a)) → logs (bind m k).
Proof.
  intros Hm Hk s. rewrite bind_eq. destruct (Hm s) as [new1 H1].
  destruct (m s) as [[a|c] s1]; cbn [snd] in *; [|eauto].
  destruct (Hk a s1) as [new2 H2]. exists (new1 ++ new2).
  rewrite H2, H1, app_assoc. reflexivity.
Qed.

Lemma logs_run c : logs (run c).
Proof.
  intros s. unfold run. destruct (script s) as [|[e|] rest]; cbn [snd calls];
    try destruct (exec c (chains s)); cbn [snd calls]; eauto.
Qed.

Lemma logs_Exists c a : logs (Exists "filter" c a).
Proof.
  unfold Exists. apply logs_bind; [apply logs_run|].
  intros [e|]; [|apply logs_ret].
  destruct e as [st m|m]; [|apply logs_ret].
  destruct st as [|p|p]; try apply logs_ret.
  destruct p; apply logs_ret.
Qed.

Lemma logs_runStep st : logs (runStep st).
Proof.
  assert (Hexit : ∀ e, logs
            (bind (ExitStatus e)
               (fun z => if negb (z =? 1)%Z then ret (Some (failedToRun e)) else ret None))).
  { intros e. apply logs_bind; [destruct e; [apply logs_ret | apply logs_abort]|].
    intros z. destruct (negb _); apply logs_ret. }
  assert (Happ : ∀ c a, logs (appendUnique c a)).
  { intros c a. unfold appendUnique, AppendUnique.
    apply logs_bind.
    - apply logs_bind; [apply logs_Exists|].
      intros [ex [e|]]; [apply logs_ret|].
      destruct ex; [apply logs_ret | apply logs_run].
    - intros [e|]; apply logs_ret. }
  destruct st as [c|b c a|b c a]; cbn [runStep].
  - unfold newChain_exit1, NewChain. apply logs_bind; [apply logs_run|].
    intros [e|]; [apply Hexit | apply logs_ret].
  - destruct b; unfold insertUnlessExists_exit1, insertUnlessExists;
      (apply logs_bind; [apply logs_Exists|]);
      intros [ex [e|]]; try apply logs_ret;
      (destruct ex; cbn [negb]; [apply logs_ret|]);
      (apply logs_bind; [apply logs_run|]);
      intros [e|]; try apply logs_ret; apply Hexit.
  - destruct b; [|apply Happ].
    unfold appendUniqueUnlessExists. apply logs_bind; [apply logs_Exists|].
    intros [ex [e|]]; [apply logs_ret|].
    destruct ex; cbn [negb]; [apply logs_ret | apply Happ].
Qed.

Lemma logs_runSteps l : logs (runSteps l).
Proof.
  induction l as [|st l IH]; cbn [runSteps]; [apply logs_ret|].
  apply logs_bind; [apply logs_runStep|].
  intros [e|]; [apply logs_ret | exact IH].
Qed.

Section Masked.
Context `{Names}.

(** X20: a nil error from [setupPodIngressRules] does not mean that the
    policy jumps are in place.  When the insertion of the jump of the one
    policy that targets the pod fails with exit status 1 (the chain exists
    and does not hold the jump, and no other command fails), the guard lets
    the error through: the function goes on, returns nil, and leaves the
    chain without the jump. *)
Theorem setupPodIngressRules_masks_failed_insertion
    (pod : podInfo) (podFwChainName : string) (networkPoliciesInfo : list networkPolicyInfo)
    (version : string) (s : ipt) (l : list rulespec) (policy : networkPolicyInfo)
    (msg : string) :
  targeting pod networkPoliciesInfo = [policy] →
  chains s !! ("filter", podFwChainName) = Some l →
  policyJumpArgs version policy ∉ l →
  script s = [None; Some (IptablesError 1 msg)] →
  ∃ s' rest,
    setupPodIngressRules pod podFwChainName networkPoliciesInfo version s = (Done None, s')
    ∧ calls s'
      = calls s
        ++ [(CmdCheck "filter" podFwChainName (policyJumpArgs version policy),
             Some (IptablesError 1 "Bad rule (does a matching rule exist in that chain?)."));
            (CmdInsert "filter" podFwChainName 1 (policyJumpArgs version policy),
             Some (IptablesError 1 msg))]
        ++ rest
    ∧ policyJumpArgs version policy ∉ chainRules podFwChainName s'.
Proof.
  intros HT Hc Hfresh Hscript.
  rewrite setupPodIngressRules_steps. unfold ingressSteps, policySteps.
  rewrite existsb_targeting, HT, bool_decide_eq_false_2 by discriminate.
  cbn [negb map app]. rewrite runSteps_cons. cbn [runStep].
  unfold insertUnlessExists_exit1 at 1. rewrite bind_eq.
  unfold Exists at 1. rewrite bind_eq. unfold run at 1. rewrite Hscript.
  cbn [exec tail]. rewrite Hc, (proj2 (in_chain_false _ _) Hfresh).
  unfold ret at 1. cbn [negb]. rewrite bind_eq. unfold Insert, run at 1. cbn [script].
  rewrite bind_eq. cbn [ExitStatus]. unfold ret at 1 2. cbn [Z.eqb Pos.eqb negb].
  unfold ret. cbn [chains calls].
  match goal with
  | |- context [runSteps ?steps ?s1] =>
      destruct (runSteps_ff steps s1 eq_refl) as (s' & Hrun & Hch & _);
      destruct (logs_runSteps steps s1) as [rest Hcalls]
  end.
  cbn [chains calls] in *. rewrite Hrun in Hcalls |- *. cbn [snd] in Hcalls.
  rewrite (applySteps_inserts podFwChainName _ _ l Hc) in Hch |- *
    by (repeat constructor; eauto).
  exists s', rest. cbn [fst snd] in *. split; [reflexivity|]. split.
  - rewrite Hcalls, <- !app_assoc. reflexivity.
  - unfold chainRules. rewrite Hch, lookup_insert_eq.
    change (omap step_rule _) with [localNodeArgs pod; statefulArgs]. cbn [default from_option id].
    rewrite insertAll_elem_of. intros [Hin|Hin]; [contradiction|].
    apply elem_of_cons in Hin. destruct Hin as [Heq|Hin]; [discriminate Heq|].
    apply elem_of_cons in Hin. destruct Hin as [Heq|Hin]; [discriminate Heq|].
    apply elem_of_nil in Hin. contradiction.
Qed.

End Masked.

(** * The further facts on the sample node *)

(** A cache entry that is not a pod stops the pass in [getLocalPods], after
    the executor was probed; so does a nil pod pointer. *)
Example syncPodFirewallChains_cache_foreign_entry :
  @syncPodFirewallChains_cache Demo.names Demo.node [PodObject Demo.web; OtherObject]
    [Demo.allowWeb] Demo.version Demo.order Demo.store
  = (Crashed PanicTypeAssertion, Ipt (chains Demo.store) [] [(CmdNew, None)])
  ∧ @syncPodFirewallChains_cache Demo.names Demo.node [PodObject Demo.web; NilPodObject]
      [Demo.allowWeb] Demo.version Demo.order Demo.store
    = (Crashed PanicNilDereference, Ipt (chains Demo.store) [] [(CmdNew, None)]).
Proof. split; vm_compute; reflexivity. Qed.

Lemma syncPodFirewallChains_frame_witness :
  chains (@syncPodFirewallChains Demo.names Demo.npc [Demo.allowWeb] Demo.version Demo.order
            Demo.store).2 !! ("filter", "KUBE-POD-FW-66YU77BNV6QZ2KJG")
  = chains Demo.store !! ("filter", "KUBE-POD-FW-66YU77BNV6QZ2KJG")
  ∧ chains (@syncPodFirewallChains Demo.names Demo.npc [Demo.allowWeb] Demo.version Demo.order
              Demo.store).2 !! ("nat", "KUBE-ROUTER-INPUT")
    = chains Demo.store !! ("nat", "KUBE-ROUTER-INPUT").
Proof.
  split.
  - apply (@syncPodFirewallChains_frame Demo.names Demo.npc [Demo.allowWeb] Demo.version
             Demo.order Demo.store "filter" "KUBE-POD-FW-66YU77BNV6QZ2KJG").
    right. split; [|repeat split; discriminate].
    apply (bool_decide_unpack _). vm_compute. exact I.
  - apply (@syncPodFirewallChains_frame Demo.names Demo.npc [Demo.allowWeb] Demo.version
             Demo.order Demo.store "nat" "KUBE-ROUTER-INPUT").
    left. discriminate.
Defined.

Lemma syncPodFirewallChains_stops_at_failure_witness :
  (None : option (gmap string bool)) = None
  ∧ ∃ c e0,
      failedToRun noChain = failedToRun e0
      ∧ lastCall (@syncPodFirewallChains Demo.names Demo.npc [Demo.allowWeb] Demo.version
                    Demo.order (Ipt ∅ [] [])).2
        = Some (c, Some e0)
      ∧ c ≠ CmdNew.
Proof.
  apply (@syncPodFirewallChains_stops_at_failure Demo.names Demo.npc [Demo.allowWeb]
           Demo.version Demo.order (Ipt ∅ [] [])).
  vm_compute. reflexivity.
Defined.

Lemma syncPodFirewallChains_postcondition_witness :
  ∃ active s',
    @syncPodFirewallChains Demo.names Demo.npc [Demo.allowWeb] Demo.version Demo.order
      Demo.store
    = (Done (Some active, None), s')
    ∧ ∀ pod, pod ∈ Demo.order (getLocalPods Demo.npc (nodeIP Demo.npc)).1 →
        active !! @podFirewallChainName Demo.names (namespace pod) (name pod) Demo.version
        = Some true
        ∧ @podInPlace Demo.names [Demo.allowWeb] Demo.version pod s'.
Proof.
  apply (@syncPodFirewallChains_postcondition Demo.names Demo.npc [Demo.allowWeb]
           Demo.version Demo.order Demo.store).
  - reflexivity.
  - unfold provisioned. vm_compute. repeat split; eexists; reflexivity.
Defined.


Lemma syncPodFirewallChains_no_local_pods_witness :
  ∃ r,
    calls (@syncPodFirewallChains Demo.names
             {| nodeIP := Demo.node; podLister := [Demo.cache; Demo.job] |}
             [Demo.allowWeb] Demo.version Demo.order Demo.store).2
    = calls Demo.store ++ [(CmdNew, r)]
    ∧ chains (@syncPodFirewallChains Demo.names
                {| nodeIP := Demo.node; podLister := [Demo.cache; Demo.job] |}
                [Demo.allowWeb] Demo.version Demo.order Demo.store).2
      = chains Demo.store
    ∧ (@syncPodFirewallChains Demo.names
         {| nodeIP := Demo.node; podLister := [Demo.cache; Demo.job] |}
         [Demo.allowWeb] Demo.version Demo.order Demo.store).1
      = match r with
        | None => Done (Some ∅, None)
        | Some e => Crashed (GlogFatal ("Failed to initialize iptables executor: " +:+ Error e))
        end.
Proof.
  apply (@syncPodFirewallChains_no_local_pods Demo.names
           {| nodeIP := Demo.node; podLister := [Demo.cache; Demo.job] |}
           [Demo.allowWeb] Demo.version Demo.order Demo.store).
  - intros m. reflexivity.
  - intros pod Hpod. cbn [podLister nodeIP] in *.
    apply elem_of_cons in Hpod. destruct Hpod as [->|Hpod]; [reflexivity|].
    apply elem_of_cons in Hpod. destruct Hpod as [->|Hpod]; [reflexivity|].
    apply elem_of_nil in Hpod. contradiction.
Defined.

Lemma syncPodFirewallChains_relevant_policies_witness :
  @syncPodFirewallChains Demo.names Demo.npc [Demo.allowWeb] Demo.version Demo.order
    Demo.store
  = @syncPodFirewallChains Demo.names Demo.npc
      [Demo.allowWeb;
       {| policy_name := "allow-cache"; policy_namespace := "default";
          targetPods := {[ "10.1.2.7" := Demo.info Demo.cache ]} |}]
      Demo.version Demo.order Demo.store.
Proof.
  apply (@syncPodFirewallChains_relevant_policies Demo.names Demo.npc).
  intros pod Hpod. vm_compute in Hpod.
  repeat (apply elem_of_cons in Hpod; destruct Hpod as [->|Hpod];
          [vm_compute; reflexivity|]).
  apply elem_of_nil in Hpod. contradiction.
Defined.

Lemma syncPodFirewallChains_pod_chain_layout_witness :
  ∃ active s',
    @syncPodFirewallChains Demo.names Demo.npc [Demo.allowWeb] Demo.version Demo.order
      Demo.store
    = (Done (Some active, None), s')
    ∧ chains s' !! ("filter", "KUBE-POD-FW-RDP34OAH7JOK5423")
      = Some (@podChainLayout Demo.names [Demo.allowWeb] Demo.version (Demo.info Demo.web)).
Proof.
  apply (@syncPodFirewallChains_pod_chain_layout Demo.names Demo.npc [Demo.allowWeb]
           Demo.version Demo.order Demo.store (Demo.info Demo.web)).
  - reflexivity.
  - unfold provisioned. vm_compute. repeat split; eexists; reflexivity.
  - vm_compute. repeat first [apply list_elem_of_here | apply list_elem_of_further].
  - apply (bool_decide_unpack _). vm_compute. exact I.
  - vm_compute. reflexivity.
  - apply (bool_decide_unpack _). vm_compute. exact I.
Defined.

Lemma interceptPodInboundTraffic_layout_witness :
  ∃ s',
    @interceptPodInboundTraffic Demo.names (Demo.info Demo.web) "KUBE-POD-FW-RDP34OAH7JOK5423"
      Demo.store
    = (Done None, s')
    ∧ chains s'
      = <[("filter", "KUBE-ROUTER-FORWARD") :=
            [inboundBridgedArgs (Demo.info Demo.web) "KUBE-POD-FW-RDP34OAH7JOK5423";
             inboundArgs (Demo.info Demo.web) "KUBE-POD-FW-RDP34OAH7JOK5423"]]>
          (<[("filter", "KUBE-ROUTER-OUTPUT") :=
               [inboundArgs (Demo.info Demo.web) "KUBE-POD-FW-RDP34OAH7JOK5423"]]>
             (chains Demo.store)).
Proof.
  apply (@interceptPodInboundTraffic_layout Demo.names (Demo.info Demo.web)
           "KUBE-POD-FW-RDP34OAH7JOK5423" Demo.store [] []).
  - reflexivity.
  - discriminate.
  - vm_compute. reflexivity.
  - vm_compute. reflexivity.
  - apply not_elem_of_nil.
  - apply not_elem_of_nil.
  - apply not_elem_of_nil.
Defined.

Lemma interceptPodOutboundTraffic_layout_witness :
  ∃ s',
    @interceptPodOutboundTraffic Demo.names (Demo.info Demo.web)
      "KUBE-POD-FW-RDP34OAH7JOK5423" Demo.store
    = (Done None, s')
    ∧ chains s'
      = <[("filter", "KUBE-ROUTER-FORWARD") :=
            [outboundBridgedArgs (Demo.info Demo.web)
               "KUBE-POD-FW-RDP34OAH7JOK5423";
             outboundArgs (Demo.info Demo.web) "KUBE-POD-FW-RDP34OAH7JOK5423"]]>
          (<[("filter", "KUBE-ROUTER-OUTPUT") :=
               [outboundArgs (Demo.info Demo.web) "KUBE-POD-FW-RDP34OAH7JOK5423"]]>
             (<[("filter", "KUBE-ROUTER-INPUT") :=
                  [outboundArgs (Demo.info Demo.web)
                     "KUBE-POD-FW-RDP34OAH7JOK5423"]]>
                (chains Demo.store))).
Proof.
  apply (@interceptPodOutboundTraffic_layout Demo.names (Demo.info Demo.web)
           "KUBE-POD-FW-RDP34OAH7JOK5423" Demo.store [] [] []).
  - reflexivity.
  - discriminate.
  - discriminate.
  - discriminate.
  - vm_compute. reflexivity.
  - vm_compute. reflexivity.
  - vm_compute. reflexivity.
  - apply not_elem_of_nil.
  - apply not_elem_of_nil.
  - apply not_elem_of_nil.
  - apply not_elem_of_nil.
Defined.

Lemma interception_idempotent_witness :
  (∃ s1 s2 new,
     @interceptPodInboundTraffic Demo.names (Demo.info Demo.web)
       "KUBE-POD-FW-RDP34OAH7JOK5423" Demo.store = (Done None, s1)
     ∧ @interceptPodInboundTraffic Demo.names (Demo.info Demo.web)
         "KUBE-POD-FW-RDP34OAH7JOK5423" s1 = (Done None, s2)
     ∧ chains s2 = chains s1
     ∧ calls s2 = calls s1 ++ new ∧ Forall (fun k => is_check k = true) new)
  ∧ (∃ s1 s2 new,
       @interceptPodOutboundTraffic Demo.names (Demo.info Demo.web)
         "KUBE-POD-FW-RDP34OAH7JOK5423" Demo.store = (Done None, s1)
       ∧ @interceptPodOutboundTraffic Demo.names (Demo.info Demo.web)
           "KUBE-POD-FW-RDP34OAH7JOK5423" s1 = (Done None, s2)
       ∧ chains s2 = chains s1
       ∧ calls s2 = calls s1 ++ new ∧ Forall (fun k => is_check k = true) new).
Proof.
  apply (@interception_idempotent Demo.names (Demo.info Demo.web)
           "KUBE-POD-FW-RDP34OAH7JOK5423" Demo.store).
  - reflexivity.
  - unfold provisioned. vm_compute. repeat split; eexists; reflexivity.
Defined.

Lemma rule_setup_idempotent_witness :
  (∃ s1 s2 new,
     @setupPodIngressRules Demo.names (Demo.info Demo.web) "KUBE-POD-FW-RDP34OAH7JOK5423"
       [Demo.allowWeb] Demo.version (Demo.storeWith "KUBE-POD-FW-RDP34OAH7JOK5423")
     = (Done None, s1)
     ∧ @setupPodIngressRules Demo.names (Demo.info Demo.web) "KUBE-POD-FW-RDP34OAH7JOK5423"
         [Demo.allowWeb] Demo.version s1
       = (Done None, s2)
     ∧ chains s2 = chains s1
     ∧ calls s2 = calls s1 ++ new ∧ Forall (fun k => is_check k = true) new)
  ∧ (∃ s1 s2 new,
       @setupPodEgressRules Demo.names (Demo.info Demo.web) "KUBE-POD-FW-RDP34OAH7JOK5423"
         [Demo.allowWeb] Demo.version (Demo.storeWith "KUBE-POD-FW-RDP34OAH7JOK5423")
       = (Done None, s1)
       ∧ @setupPodEgressRules Demo.names (Demo.info Demo.web) "KUBE-POD-FW-RDP34OAH7JOK5423"
           [Demo.allowWeb] Demo.version s1
         = (Done None, s2)
       ∧ chains s2 = chains s1
       ∧ calls s2 = calls s1 ++ new ∧ Forall (fun k => is_check k = true) new).
Proof.
  apply (@rule_setup_idempotent Demo.names (Demo.info Demo.web)
           "KUBE-POD-FW-RDP34OAH7JOK5423" [Demo.allowWeb] Demo.version
           (Demo.storeWith "KUBE-POD-FW-RDP34OAH7JOK5423")).
  - reflexivity.
  - vm_compute. eexists. reflexivity.
Defined.

Lemma missing_chain_is_reported_witness :
  (∃ s', @setupPodIngressRules Demo.names (Demo.info Demo.web)
           "KUBE-POD-FW-RDP34OAH7JOK5423" [Demo.allowWeb] Demo.version Demo.store
         = (Done (Some (failedToRun noChain)), s') ∧ chains s' = chains Demo.store)
  ∧ (∃ s', @setupPodEgressRules Demo.names (Demo.info Demo.web)
             "KUBE-POD-FW-RDP34OAH7JOK5423" [Demo.allowWeb] Demo.version Demo.store
           = (Done (Some (failedToRun noChain)), s') ∧ chains s' = chains Demo.store)
  ∧ (∃ s', dropUnmarkedTrafficRules (name (Demo.info Demo.web))
             (namespace (Demo.info Demo.web)) "KUBE-POD-FW-RDP34OAH7JOK5423" Demo.store
           = (Done (Some (failedToRun noChain)), s') ∧ chains s' = chains Demo.store).
Proof.
  apply (@missing_chain_is_reported Demo.names (Demo.info Demo.web)
           "KUBE-POD-FW-RDP34OAH7JOK5423" [Demo.allowWeb] Demo.version Demo.store).
  - reflexivity.
  - vm_compute. reflexivity.
Defined.

Lemma AddFunc_UpdateFunc_panic_unless_pod_witness :
  AddFunc (DeletedFinalStateUnknown (PodObject Demo.web)) = [Panic]
  ∧ ∀ other,
      UpdateFunc other (DeletedFinalStateUnknown (PodObject Demo.web)) = [Panic]
      ∧ UpdateFunc (DeletedFinalStateUnknown (PodObject Demo.web)) other = [Panic].
Proof.
  apply (AddFunc_UpdateFunc_panic_unless_pod (DeletedFinalStateUnknown (PodObject Demo.web))).
  intros pod Heq. discriminate Heq.
Defined.

Lemma syncPodFirewallChains_order_independent_witness :
  ∃ active s1 s2,
    @syncPodFirewallChains Demo.names Demo.npc [Demo.allowWeb] Demo.version Demo.order
      Demo.store
    = (Done (Some active, None), s1)
    ∧ @syncPodFirewallChains Demo.names Demo.npc [Demo.allowWeb] Demo.version
        (fun m => rev (Demo.order m)) Demo.store
      = (Done (Some active, None), s2)
    ∧ sameRules (chains s1) (chains s2).
Proof.
  apply (@syncPodFirewallChains_order_independent Demo.names Demo.npc [Demo.allowWeb]
           Demo.version Demo.order (fun m => rev (Demo.order m)) Demo.store).
  - reflexivity.
  - unfold provisioned. vm_compute. repeat split; eexists; reflexivity.
  - change (map_Forall (fun _ (l : list rulespec) => NoDup l) (chains Demo.store)).
    apply (bool_decide_unpack _). vm_compute. exact I.
  - intros m. reflexivity.
  - intros m. symmetry. apply Permutation_rev.
Defined.
Lemma getLocalPods_ignores_phase_witness :
  getLocalPods Demo.npc Demo.node
  = getLocalPods
      {| nodeIP := Demo.node;
         podLister := [Demo.mkPod "default" "web" "Succeeded" Demo.node "10.1.1.5";
                       Demo.mkPod "default" "db" "Failed" Demo.node "10.1.1.6";
                       Demo.cache; Demo.job] |}
      Demo.node.
Proof.
  apply getLocalPods_ignores_phase.
  repeat constructor.
Defined.

Lemma syncPodFirewallChains_needs_top_level_chains_witness :
  ∃ s',
    @syncPodFirewallChains Demo.names Demo.npc [Demo.allowWeb] Demo.version Demo.order
      (Ipt ∅ [] [])
    = (Done (None, Some (failedToRun noChain)), s').
Proof.
  apply (@syncPodFirewallChains_needs_top_level_chains Demo.names Demo.npc [Demo.allowWeb]
           Demo.version Demo.order (Ipt ∅ [] []) "KUBE-ROUTER-FORWARD").
  - reflexivity.
  - vm_compute. discriminate.
  - apply list_elem_of_further, list_elem_of_here.
  - reflexivity.
  - apply (bool_decide_unpack _). vm_compute. exact I.
Defined.

Lemma setupPodIngressRules_masks_failed_insertion_witness :
  ∃ s' rest,
    @setupPodIngressRules Demo.names (Demo.info Demo.web) "KUBE-POD-FW-RDP34OAH7JOK5423"
      [Demo.allowWeb] Demo.version
      {| chains := chains (Demo.storeWith "KUBE-POD-FW-RDP34OAH7JOK5423");
         script := [None; Some (IptablesError 1 "iptables: Resource temporarily unavailable.")];
         calls := [] |}
    = (Done None, s')
    ∧ calls s'
      = [] ++ [(CmdCheck "filter" "KUBE-POD-FW-RDP34OAH7JOK5423"
                  (@policyJumpArgs Demo.names Demo.version Demo.allowWeb),
                Some (IptablesError 1 "Bad rule (does a matching rule exist in that chain?)."));
               (CmdInsert "filter" "KUBE-POD-FW-RDP34OAH7JOK5423" 1
                  (@policyJumpArgs Demo.names Demo.version Demo.allowWeb),
                Some (IptablesError 1 "iptables: Resource temporarily unavailable."))]
        ++ rest
    ∧ @policyJumpArgs Demo.names Demo.version Demo.allowWeb
      ∉ chainRules "KUBE-POD-FW-RDP34OAH7JOK5423" s'.
Proof.
  apply (@setupPodIngressRules_masks_failed_insertion Demo.names (Demo.info Demo.web)
           "KUBE-POD-FW-RDP34OAH7JOK5423" [Demo.allowWeb] Demo.version
           {| chains := chains (Demo.storeWith "KUBE-POD-FW-RDP34OAH7JOK5423");
              script := [None;
                         Some (IptablesError 1 "iptables: Resource temporarily unavailable.")];
              calls := [] |}
           [] Demo.allowWeb "iptables: Resource temporarily unavailable.").
  - vm_compute. reflexivity.
  - vm_compute. reflexivity.
  - apply not_elem_of_nil.
  - reflexivity.
Defined.
